(** * Buffer pool manager: LRU-K replacer, extendible hash table, frame manager

    A shallow embedding of the three classes of the buffer pool
    (lru_k_replacer.cpp, extendible_hash_table.cpp,
    buffer_pool_manager_instance.cpp) and the properties of their
    operations.  Machine integers are carried by [Z]; the places where the
    C++ arithmetic wraps are written out. *)

From Stdlib Require Import ZArith Lia Bool.
From stdpp Require Import base option list gmap.

(** ** Machine integers *)

Module MachineInt.
Local Open Scope Z_scope.

(** [size_t] is an unsigned 64-bit integer: [++] wraps at [2^64]. *)
Definition SIZE_MOD : Z := 2 ^ 64.
Definition size_t_incr (t : Z) : Z := (t + 1) mod SIZE_MOD.

(** [static_cast<int>(x)] of a [size_t]: reduction to a signed 32-bit value. *)
Definition static_cast_int (x : Z) : Z := (x + 2 ^ 31) mod 2 ^ 32 - 2 ^ 31.

(** [int] arithmetic ([pin_count_], [next_page_id_]): two's complement wrap. *)
Definition int_wrap (x : Z) : Z := (x + 2 ^ 31) mod 2 ^ 32 - 2 ^ 31.

Definition INT_MAX : Z := 2 ^ 31 - 1.

(** [std::hash<int>] of libstdc++ and libc++: the value converted to
    [size_t]. *)
Definition std_hash_int (k : Z) : Z := k mod SIZE_MOD.

End MachineInt.

(** ** The LRU-K replacer (lru_k_replacer.h, lru_k_replacer.cpp) *)

Module Replacer.
Import MachineInt.
Local Open Scope Z_scope.

(** [frame_id_t] is [int]; timestamps, [replacer_size_] and [k_] are
    [size_t].  The three [std::unordered_map]s are finite maps. *)
Record LRUKReplacer := mkReplacer {
  current_timestamp_ : Z;
  replacer_size_ : Z;
  k_ : Z;
  hist_map_ : gmap Z (list Z);
  last_map_ : gmap Z Z;
  evict_flag_ : gmap Z bool
}.

(** Constructor [LRUKReplacer(num_frames, k)]. *)
Definition new_replacer (num_frames k : Z) : LRUKReplacer :=
  mkReplacer 0 num_frames k ∅ ∅ ∅.

(** [current_timestamp_++], the first statement of every operation. *)
Definition tick (r : LRUKReplacer) : LRUKReplacer :=
  mkReplacer (size_t_incr (current_timestamp_ r)) (replacer_size_ r) (k_ r)
             (hist_map_ r) (last_map_ r) (evict_flag_ r).

(** [std::list::front]; the lists stored in [hist_map_] are never empty. *)
Definition front (l : list Z) : Z := hd 0 l.

(** One iteration of either [for] loop of [Evict]: the running pair is
    [( *frame_id, lr_ts )]. *)
Definition scan_step {A} (ts_of : A → Z) (flags : gmap Z bool)
    (acc : Z * Z) (kv : Z * A) : Z * Z :=
  if bool_decide (is_Some (flags !! kv.1)) && (ts_of kv.2 <? acc.2)
  then (kv.1, ts_of kv.2) else acc.

Definition scan {A} (ts_of : A → Z) (flags : gmap Z bool)
    (l : list (Z * A)) (acc : Z * Z) : Z * Z :=
  foldl (scan_step ts_of flags) acc l.

(** [Evict], with the iteration orders of the two unordered maps given as
    the enumerations [hs] and [ls].  The result is the returned [bool] and the
    value left in [*frame_id]. *)
Definition Evict_in (hs : list (Z * list Z)) (ls : list (Z * Z))
    (r : LRUKReplacer) : (bool * Z) * LRUKReplacer :=
  let r1 := tick r in
  if bool_decide (hist_map_ r1 = ∅) && bool_decide (last_map_ r1 = ∅)
  then ((false, -1), r1)
  else
    let lr_ts := current_timestamp_ r1 in
    let '(fid, lr_ts1) := scan front (evict_flag_ r1) hs (-1, lr_ts) in
    if bool_decide (is_Some (hist_map_ r1 !! fid)) then
      ((true, fid),
       mkReplacer (current_timestamp_ r1) (replacer_size_ r1) (k_ r1)
                  (delete fid (hist_map_ r1)) (last_map_ r1)
                  (delete fid (evict_flag_ r1)))
    else
      let '(fid2, _) := scan id (evict_flag_ r1) ls (fid, lr_ts1) in
      if fid2 =? -1 then ((false, -1), r1)
      else
        ((true, fid2),
         mkReplacer (current_timestamp_ r1) (replacer_size_ r1) (k_ r1)
                    (hist_map_ r1) (delete fid2 (last_map_ r1))
                    (delete fid2 (evict_flag_ r1))).

Definition Evict (r : LRUKReplacer) : (bool * Z) * LRUKReplacer :=
  Evict_in (map_to_list (hist_map_ r)) (map_to_list (last_map_ r)) r.

(** [RecordAccess(frame_id)]. *)
Definition RecordAccess (frame_id : Z) (r : LRUKReplacer) : LRUKReplacer :=
  let r1 := tick r in
  let now := current_timestamp_ r1 in
  if static_cast_int (replacer_size_ r1) <=? frame_id then r1
  else if bool_decide (is_Some (last_map_ r1 !! frame_id)) then
    mkReplacer now (replacer_size_ r1) (k_ r1) (hist_map_ r1)
               (<[frame_id := now]> (last_map_ r1)) (evict_flag_ r1)
  else
    let h := default [] (hist_map_ r1 !! frame_id) ++ [now] in
    if k_ r1 <=? Z.of_nat (length h) then
      mkReplacer now (replacer_size_ r1) (k_ r1)
                 (delete frame_id (hist_map_ r1))
                 (<[frame_id := now]> (last_map_ r1)) (evict_flag_ r1)
    else
      mkReplacer now (replacer_size_ r1) (k_ r1)
                 (<[frame_id := h]> (hist_map_ r1)) (last_map_ r1)
                 (evict_flag_ r1).

(** [SetEvictable(frame_id, set_evictable)]. *)
Definition SetEvictable (frame_id : Z) (set_evictable : bool)
    (r : LRUKReplacer) : LRUKReplacer :=
  let r1 := tick r in
  if set_evictable && bool_decide (hist_map_ r1 !! frame_id = None)
                   && bool_decide (last_map_ r1 !! frame_id = None)
  then r1
  else if set_evictable then
    mkReplacer (current_timestamp_ r1) (replacer_size_ r1) (k_ r1)
               (hist_map_ r1) (last_map_ r1)
               (<[frame_id := true]> (evict_flag_ r1))
  else
    mkReplacer (current_timestamp_ r1) (replacer_size_ r1) (k_ r1)
               (hist_map_ r1) (last_map_ r1)
               (delete frame_id (evict_flag_ r1)).

(** [Remove(frame_id)]. *)
Definition Remove (frame_id : Z) (r : LRUKReplacer) : LRUKReplacer :=
  let r1 := tick r in
  mkReplacer (current_timestamp_ r1) (replacer_size_ r1) (k_ r1)
             (delete frame_id (hist_map_ r1))
             (delete frame_id (last_map_ r1))
             (delete frame_id (evict_flag_ r1)).

(** [Size()]. *)
Definition Size (r : LRUKReplacer) : nat := size (evict_flag_ r).

(** *** Well-formed replacer states *)

Definition tracked (r : LRUKReplacer) (f : Z) : Prop :=
  is_Some (hist_map_ r !! f) ∨ is_Some (last_map_ r !! f).

Definition evictable (r : LRUKReplacer) (f : Z) : Prop :=
  is_Some (evict_flag_ r !! f).

(** What the operations maintain when they are called with frame ids that
    are not negative, as long as the 64-bit clock has not wrapped. *)
Record wf (r : LRUKReplacer) : Prop := mk_wf {
  wf_clock : 0 <= current_timestamp_ r;
  wf_hist_front : ∀ f h, hist_map_ r !! f = Some h →
                         h ≠ [] ∧ 0 <= front h <= current_timestamp_ r;
  wf_last_ts : ∀ f t, last_map_ r !! f = Some t → 0 <= t <= current_timestamp_ r;
  wf_phase : ∀ f, is_Some (hist_map_ r !! f) → last_map_ r !! f = None;
  wf_flag : ∀ f, evictable r f → tracked r f;
  wf_ids : ∀ f, tracked r f → 0 <= f
}.

Definition clock_ok (r : LRUKReplacer) : Prop :=
  current_timestamp_ r + 1 < SIZE_MOD.

(** An enumeration of a map, in any order (the iteration order of an
    unordered map is unspecified). *)
Definition enumerates {A} (l : list (Z * A)) (m : gmap Z A) : Prop :=
  ∀ k a, (k, a) ∈ l ↔ m !! k = Some a.

(** The victim rule of LRU-K as the replacer implements it: a flagged
    history-phase frame of minimal oldest timestamp, or, when no
    history-phase frame is flagged, a flagged steady-phase frame of minimal
    most-recent timestamp. *)
Definition victim_rule (r : LRUKReplacer) (f : Z) : Prop :=
  (∃ h, hist_map_ r !! f = Some h ∧
        ∀ g hg, evictable r g → hist_map_ r !! g = Some hg → front h <= front hg)
  ∨ ((∀ g, evictable r g → hist_map_ r !! g = None) ∧
     ∃ t, last_map_ r !! f = Some t ∧
          ∀ g tg, evictable r g → last_map_ r !! g = Some tg → t <= tg).

(** *** Call sequences *)

Inductive Call :=
| CallEvict
| CallRecordAccess (frame_id : Z)
| CallSetEvictable (frame_id : Z) (set_evictable : bool)
| CallRemove (frame_id : Z).

Definition run_call (c : Call) (r : LRUKReplacer) : LRUKReplacer :=
  match c with
  | CallEvict => (Evict r).2
  | CallRecordAccess f => RecordAccess f r
  | CallSetEvictable f b => SetEvictable f b r
  | CallRemove f => Remove f r
  end.

(** [RecordAccess] is called with a frame id that is not negative. *)
Definition nonneg_call (c : Call) : Prop :=
  match c with
  | CallRecordAccess f => 0 <= f
  | _ => True
  end.

(** The states a fresh replacer reaches by such calls before the clock
    wraps. *)
Inductive reachable_nonneg (num_frames k : Z) : LRUKReplacer → Prop :=
| reachable_nonneg_new :
    reachable_nonneg num_frames k (new_replacer num_frames k)
| reachable_nonneg_call r c :
    reachable_nonneg num_frames k r → clock_ok r → nonneg_call c →
    reachable_nonneg num_frames k (run_call c r).

(** A sequence of calls, run from left to right. *)
Definition run_calls (cs : list Call) (r : LRUKReplacer) : LRUKReplacer :=
  foldl (λ r c, run_call c r) r cs.

(** What every sequence of calls maintains, whatever the frame ids and the
    clock: a history list is not empty and shorter than [k_], no frame is in
    both maps, only tracked frames are flagged, and the tracked frame ids are
    below [static_cast<int>(replacer_size_)]. *)
Record phases_ok (r : LRUKReplacer) : Prop := mk_phases_ok {
  po_hist : ∀ f h, hist_map_ r !! f = Some h →
                   h ≠ [] ∧ Z.of_nat (length h) < k_ r;
  po_phase : ∀ f, is_Some (hist_map_ r !! f) → last_map_ r !! f = None;
  po_flag : ∀ f, evictable r f → tracked r f;
  po_bound : ∀ f, tracked r f → f < static_cast_int (replacer_size_ r)
}.

(** The timestamps that [Evict] compares are pairwise distinct. *)
Definition distinct_times (r : LRUKReplacer) : Prop :=
  (∀ f g hf hg, hist_map_ r !! f = Some hf → hist_map_ r !! g = Some hg →
                front hf = front hg → f = g) ∧
  (∀ f g t, last_map_ r !! f = Some t → last_map_ r !! g = Some t → f = g).

End Replacer.
(** ** The extendible hash table (extendible_hash_table.h, .cpp) *)

Module EHT.
Local Open Scope Z_scope.

Section ExtendibleHashTable.
Context {K V : Type} `{EqDecision K}.

(** [std::hash<K>()(key)], a [size_t]. *)
Variable hash : K → Z.

(** *** Buckets *)

Record Bucket := mkBucket {
  size_ : Z;
  depth_ : Z;
  cell_ : list (K * V)
}.

Definition IsFull (b : Bucket) : bool := Z.of_nat (length (cell_ b)) =? size_ b.
Definition GetDepth (b : Bucket) : Z := depth_ b.
Definition GetItems (b : Bucket) : list (K * V) := cell_ b.

Definition has_key (key : K) (kv : K * V) : bool := bool_decide (kv.1 = key).

(** [Bucket::Find]: the value of the first entry with the key. *)
Definition Bucket_Find (key : K) (b : Bucket) : option V :=
  snd <$> find (has_key key) (cell_ b).

(** [Bucket::Remove]: erase the first entry with the key. *)
Fixpoint erase_first (key : K) (l : list (K * V)) : option (list (K * V)) :=
  match l with
  | [] => None
  | kv :: l' =>
      if has_key key kv then Some l'
      else cons kv <$> erase_first key l'
  end.

Definition Bucket_Remove (key : K) (b : Bucket) : bool * Bucket :=
  match erase_first key (cell_ b) with
  | Some l => (true, mkBucket (size_ b) (depth_ b) l)
  | None => (false, b)
  end.

(** [Bucket::Insert]: append unless the bucket is at capacity. *)
Definition Bucket_Insert (key : K) (value : V) (b : Bucket) : bool * Bucket :=
  if size_ b <=? Z.of_nat (length (cell_ b)) then (false, b)
  else (true, mkBucket (size_ b) (depth_ b) (cell_ b ++ [(key, value)])).

(** *** The table

    [dir_] is a vector of [shared_ptr<Bucket>]: several slots may hold the
    same pointer.  Pointers are handles into [heap_]; [make_shared] takes the
    next unused handle, and a bucket that no slot references any more is
    released. *)
Record ExtendibleHashTable := mkTable {
  global_depth_ : Z;
  bucket_size_ : Z;
  bucket_cnt_ : Z;
  dir_ : list nat;
  heap_ : gmap nat Bucket;
  next_handle_ : nat
}.

(** Constructor: one bucket of depth 0 in a directory of one slot. *)
Definition new_table (bucket_size : Z) : ExtendibleHashTable :=
  mkTable 0 bucket_size 1 [0%nat] {[ 0%nat := mkBucket bucket_size 0 [] ]} 1.

(** [IndexOf]: [hash(key) & ((1 << global_depth_) - 1)].  The shift is an
    [int] shift, defined for depths up to 30 (see [double_dir]). *)
Definition IndexOf (t : ExtendibleHashTable) (key : K) : Z :=
  Z.land (hash key) (Z.shiftl 1 (global_depth_ t) - 1).

Definition GetGlobalDepth (t : ExtendibleHashTable) : Z := global_depth_ t.
Definition GetNumBuckets (t : ExtendibleHashTable) : Z := bucket_cnt_ t.

(** [dir_[i]] followed by the dereference; [None] when the index is out of
    bounds or the handle dangles (undefined behaviour in the source). *)
Definition bucket_at (t : ExtendibleHashTable) (i : nat) : option (nat * Bucket) :=
  h ← dir_ t !! i; b ← heap_ t !! h; Some (h, b).

Definition GetLocalDepth (t : ExtendibleHashTable) (dir_index : nat) : option Z :=
  (λ hb, depth_ hb.2) <$> bucket_at t dir_index.

Definition target (t : ExtendibleHashTable) (key : K) : option (nat * Bucket) :=
  bucket_at t (Z.to_nat (IndexOf t key)).

(** [Find]: outer [None] is undefined behaviour, inner [None] is "not found". *)
Definition Find (key : K) (t : ExtendibleHashTable) : option (option V) :=
  hb ← target t key; Some (Bucket_Find key hb.2).

Definition set_bucket (h : nat) (b : Bucket) (t : ExtendibleHashTable) :
    ExtendibleHashTable :=
  mkTable (global_depth_ t) (bucket_size_ t) (bucket_cnt_ t) (dir_ t)
          (<[h := b]> (heap_ t)) (next_handle_ t).

Definition Remove (key : K) (t : ExtendibleHashTable) :
    option (bool * ExtendibleHashTable) :=
  hb ← target t key;
  let '(found, b') := Bucket_Remove key hb.2 in
  Some (found, set_bucket hb.1 b' t).

(** The directory doubling inside the loop of [Insert]:
    [++global_depth_; dir_.resize(old_sz << 1); dir_[i + old_sz] = dir_[i]].
    With a global depth of 31 the next [IndexOf], in the condition of the
    loop, shifts the [int] 1 by 31 bits and subtracts 1: the doubling from
    depth 30 on is undefined behaviour of [Insert], here [None]. *)
Definition double_dir (t : ExtendibleHashTable) : option ExtendibleHashTable :=
  if 30 <=? global_depth_ t then None
  else Some (mkTable (global_depth_ t + 1) (bucket_size_ t) (bucket_cnt_ t)
                     (dir_ t ++ dir_ t) (heap_ t) (next_handle_ t)).

(** The repartition loop: every entry of the old bucket goes to [one_bucket]
    or [zero_bucket] by the bit [split_mask] of its hash. *)
Definition repartition_step (split_mask : Z) (zo : Bucket * Bucket)
    (kv : K * V) : Bucket * Bucket :=
  if bool_decide (Z.land (hash kv.1) split_mask ≠ 0)
  then (zo.1, (Bucket_Insert kv.1 kv.2 zo.2).2)
  else ((Bucket_Insert kv.1 kv.2 zo.1).2, zo.2).

Definition repartition (split_mask : Z) (items : list (K * V))
    (zo : Bucket * Bucket) : Bucket * Bucket :=
  foldl (repartition_step split_mask) zo items.

(** The rewiring loop over the directory. *)
Definition rewire (split_mask : Z) (old zero one : nat) (dir : list nat) : list nat :=
  imap (λ i h, if bool_decide (h = old)
               then (if bool_decide (Z.land (Z.of_nat i) split_mask ≠ 0)
                     then one else zero)
               else h) dir.

(** The split of [bucket], held at handle [h]. *)
Definition split_bucket (h : nat) (bucket : Bucket) (t : ExtendibleHashTable) :
    ExtendibleHashTable :=
  let split_mask := Z.shiftl 1 (GetDepth bucket) in
  let zero := next_handle_ t in
  let one := S (next_handle_ t) in
  let fresh := mkBucket (bucket_size_ t) (GetDepth bucket + 1) [] in
  let '(zero_bucket, one_bucket) :=
    repartition split_mask (GetItems bucket) (fresh, fresh) in
  mkTable (global_depth_ t) (bucket_size_ t) (bucket_cnt_ t + 1)
          (rewire split_mask h zero one (dir_ t))
          (<[one := one_bucket]> (<[zero := zero_bucket]> (delete h (heap_ t))))
          (S (S (next_handle_ t))).

(** One iteration of the [while] loop of [Insert]. *)
Definition overflow_iteration (key : K) (t : ExtendibleHashTable) :
    option ExtendibleHashTable :=
  hb ← target t key;
  t1 ← (if GetDepth hb.2 =? global_depth_ t then double_dir t else Some t);
  Some (split_bucket hb.1 hb.2 t1).

(** The [while] loop; [fuel] bounds the number of iterations, [None] is a
    loop that has not ended within it (or undefined behaviour). *)
Fixpoint split_loop (fuel : nat) (key : K) (t : ExtendibleHashTable) :
    option ExtendibleHashTable :=
  hb ← target t key;
  if IsFull hb.2 then
    match fuel with
    | O => None
    | S n => t' ← overflow_iteration key t; split_loop n key t'
    end
  else Some t.

(** The tail of [Insert]: overwrite the first entry with the key. *)
Fixpoint overwrite (key : K) (value : V) (l : list (K * V)) : option (list (K * V)) :=
  match l with
  | [] => None
  | kv :: l' =>
      if has_key key kv then Some ((kv.1, value) :: l')
      else cons kv <$> overwrite key value l'
  end.

Definition Insert (fuel : nat) (key : K) (value : V) (t : ExtendibleHashTable) :
    option ExtendibleHashTable :=
  t1 ← split_loop fuel key t;
  hb ← target t1 key;
  match overwrite key value (GetItems hb.2) with
  | Some l => Some (set_bucket hb.1 (mkBucket (size_ hb.2) (depth_ hb.2) l) t1)
  | None => Some (set_bucket hb.1 (Bucket_Insert key value hb.2).2 t1)
  end.

(** *** Directory invariant and operation sequences *)

(** The slot indices [i] and [j] agree on their low [d] bits. *)
Definition same_low_bits (d : Z) (i j : nat) : Prop :=
  Z.of_nat i mod 2 ^ d = Z.of_nat j mod 2 ^ d.

(** The directory has [2^global_depth_] slots; every slot holds a live
    bucket whose local depth is at most the global depth, and the slots that
    share a bucket are those that agree on its low [local_depth] bits.  Live
    buckets have the capacity of the table and handles below the next unused
    one. *)
Record dir_inv (t : ExtendibleHashTable) : Prop := mk_dir_inv {
  inv_depth : 0 <= global_depth_ t;
  inv_len : Z.of_nat (length (dir_ t)) = 2 ^ global_depth_ t;
  inv_heap : ∀ h b, heap_ t !! h = Some b →
    (h < next_handle_ t)%nat ∧ size_ b = bucket_size_ t;
  inv_slot : ∀ i h, dir_ t !! i = Some h →
    (h < next_handle_ t)%nat ∧
    ∃ b, heap_ t !! h = Some b ∧ 0 <= depth_ b <= global_depth_ t ∧
         ∀ j, (j < length (dir_ t))%nat →
              (dir_ t !! j = Some h ↔ same_low_bits (depth_ b) i j)
}.

(** Every value stored in the table satisfies [P]. *)
Definition values_in (P : V → Prop) (t : ExtendibleHashTable) : Prop :=
  ∀ h b kv, heap_ t !! h = Some b → kv ∈ cell_ b → P kv.2.

(** No bucket holds a key twice. *)
Definition keys_nodup (t : ExtendibleHashTable) : Prop :=
  ∀ h b, heap_ t !! h = Some b → NoDup (cell_ b).*1.

(** No bucket holds more entries than its capacity. *)
Definition within_capacity (t : ExtendibleHashTable) : Prop :=
  ∀ h b, heap_ t !! h = Some b → Z.of_nat (length (cell_ b)) <= size_ b.

(** The target bucket of [key] is full of entries that hash like [key]. *)
Definition stuck (key : K) (t : ExtendibleHashTable) : Prop :=
  ∃ h b, target t key = Some (h, b) ∧ IsFull b = true ∧
         ∀ kv, kv ∈ cell_ b → hash kv.1 = hash key.

(** Every entry lies in the bucket that the directory gives for its key. *)
Definition placed (t : ExtendibleHashTable) : Prop :=
  ∀ h b kv, heap_ t !! h = Some b → kv ∈ cell_ b →
            dir_ t !! Z.to_nat (IndexOf t kv.1) = Some h.

(** Every live bucket is held by a slot of the directory. *)
Definition referenced (t : ExtendibleHashTable) : Prop :=
  ∀ h, is_Some (heap_ t !! h) → h ∈ dir_ t.

(** The bucket count is the number of live buckets, each held by a slot. *)
Definition counted (t : ExtendibleHashTable) : Prop :=
  bucket_cnt_ t = Z.of_nat (size (heap_ t)) ∧ referenced t.

(** The tables a fresh table reaches by operations that return. *)
Inductive reachable (bucket_size : Z) : ExtendibleHashTable → Prop :=
| reachable_new : reachable bucket_size (new_table bucket_size)
| reachable_Insert t fuel key value t' :
    reachable bucket_size t → Insert fuel key value t = Some t' →
    reachable bucket_size t'
| reachable_Remove t key found t' :
    reachable bucket_size t → Remove key t = Some (found, t') →
    reachable bucket_size t'
| reachable_Find t key res :
    reachable bucket_size t → Find key t = Some res →
    reachable bucket_size t.

End ExtendibleHashTable.

Arguments Bucket : clear implicits.
Arguments ExtendibleHashTable : clear implicits.

End EHT.


(** ** The buffer pool manager (buffer_pool_manager_instance.h, .cpp) *)

Module BPM.
Import MachineInt Replacer.
Local Open Scope Z_scope.

(** Modelled from the spec: the constants of common/config.h.
    INVALID_PAGE_ID is a reserved sentinel and a page has PAGE_SIZE bytes. *)
Definition INVALID_PAGE_ID : Z := -1.
Definition PAGE_SIZE : nat := 4096.

(** Modelled from the spec: the class [Page] of storage/page/page.h, a byte
    buffer with the resident page id, the pin count and the dirty flag. *)
Record Page := mkPage {
  data_ : list Byte.byte;
  page_id_ : Z;
  pin_count_ : Z;
  is_dirty_ : bool
}.

Definition zeroed : list Byte.byte := replicate PAGE_SIZE Byte.x00.

(** A default-constructed [Page]. *)
Definition empty_page : Page := mkPage zeroed INVALID_PAGE_ID 0 false.

(** Modelled from the spec: the disk manager, a page reader and writer keyed
    by page id.  It is carried as the log of the writes, newest first, those
    made before the pool was constructed included; a page never written
    reads as zeroes. *)
Definition DiskManager : Type := list (Z * list Byte.byte).

Definition WritePage (page_id : Z) (data : list Byte.byte) (d : DiskManager) :
    DiskManager := (page_id, data) :: d.

Definition ReadPage (page_id : Z) (d : DiskManager) : list Byte.byte :=
  default zeroed (snd <$> find (λ w : Z * list Byte.byte, w.1 =? page_id) d).

Record BufferPoolManagerInstance := mkBPM {
  pool_size_ : Z;
  next_page_id_ : Z;
  pages_ : list Page;
  disk_manager_ : DiskManager;
  page_table_ : EHT.ExtendibleHashTable Z Z;
  replacer_ : LRUKReplacer;
  free_list_ : list Z
}.

(** [bucket_size_], the bucket capacity of the page table. *)
Definition bucket_size_ : Z := 4.

(** Constructor.  The pool is handed the disk manager, whatever it holds;
    the free list holds [static_cast<int>(i)] for every [i < pool_size]. *)
Definition new_bpm (pool_size replacer_k : Z) (disk_manager : DiskManager) :
    BufferPoolManagerInstance :=
  mkBPM pool_size 0
        (replicate (Z.to_nat pool_size) empty_page)
        disk_manager
        (EHT.new_table bucket_size_)
        (new_replacer pool_size replacer_k)
        (static_cast_int <$> seqZ 0 pool_size).

(** [pages_[frame]]; [None] when the index is outside the array. *)
Definition page_at (s : BufferPoolManagerInstance) (frame : Z) : option Page :=
  if frame <? 0 then None else pages_ s !! Z.to_nat frame.

Definition set_page (frame : Z) (p : Page) (s : BufferPoolManagerInstance) :
    BufferPoolManagerInstance :=
  mkBPM (pool_size_ s) (next_page_id_ s) (<[Z.to_nat frame := p]> (pages_ s))
        (disk_manager_ s) (page_table_ s) (replacer_ s) (free_list_ s).

(** Modelled from the spec: the caller of [NewPgImp] and [FetchPgImp] is
    given the frame as a borrowed handle on its byte buffer, valid as long as
    a pin is outstanding.  [write_data] is a write of the caller through
    that handle; it is not a step of the protocol ([None]) on a frame that
    is not pinned. *)
Definition write_data (frame : Z) (data : list Byte.byte)
    (s : BufferPoolManagerInstance) : option BufferPoolManagerInstance :=
  page ← page_at s frame;
  if 0 <? pin_count_ page
  then Some (set_page frame (mkPage data (page_id_ page) (pin_count_ page)
                                    (is_dirty_ page)) s)
  else None.

Definition set_replacer (r : LRUKReplacer) (s : BufferPoolManagerInstance) :
    BufferPoolManagerInstance :=
  mkBPM (pool_size_ s) (next_page_id_ s) (pages_ s) (disk_manager_ s)
        (page_table_ s) r (free_list_ s).

Section Manager.

(** [std::hash<page_id_t>]. *)
Variable hash : Z → Z.

(** The frame selection shared by [NewPgImp] and [FetchPgImp]: the front of
    the free list, else a victim of the replacer, written back when dirty and
    unmapped.  The first component is [None] when the operation returns
    [nullptr]. *)
Definition acquire_frame (s : BufferPoolManagerInstance) :
    option (option Z * BufferPoolManagerInstance) :=
  match free_list_ s with
  | frame :: rest =>
      Some (Some frame,
            mkBPM (pool_size_ s) (next_page_id_ s) (pages_ s) (disk_manager_ s)
                  (page_table_ s) (replacer_ s) rest)
  | [] =>
      let '((ok, frame), r1) := Evict (replacer_ s) in
      if negb ok then Some (None, set_replacer r1 s)
      else
        victim ← page_at s frame;
        if bool_decide (page_id_ victim ≠ INVALID_PAGE_ID) then
          let disk1 := if is_dirty_ victim
                       then WritePage (page_id_ victim) (data_ victim) (disk_manager_ s)
                       else disk_manager_ s in
          let victim1 := mkPage (data_ victim) (page_id_ victim)
                                (pin_count_ victim) false in
          rm ← EHT.Remove hash (page_id_ victim) (page_table_ s);
          Some (Some frame,
                mkBPM (pool_size_ s) (next_page_id_ s)
                      (<[Z.to_nat frame := if is_dirty_ victim then victim1 else victim]>
                         (pages_ s))
                      disk1 rm.2 (Remove frame r1) (free_list_ s))
        else Some (Some frame, set_replacer r1 s)
  end.

(** The common tail of [NewPgImp] and [FetchPgImp]: the frame receives
    [data] and [page_id] with one pin, the mapping is installed, the access
    recorded and the frame made non-evictable. *)
Definition install (fuel : nat) (frame page_id : Z) (data : list Byte.byte)
    (next_id : Z) (s : BufferPoolManagerInstance) :
    option BufferPoolManagerInstance :=
  _ ← page_at s frame;
  pt ← EHT.Insert hash fuel page_id frame (page_table_ s);
  Some (mkBPM (pool_size_ s) next_id
              (<[Z.to_nat frame := mkPage data page_id 1 false]> (pages_ s))
              (disk_manager_ s) pt
              (SetEvictable frame false (RecordAccess frame (replacer_ s)))
              (free_list_ s)).

(** [NewPgImp]: the result is the new page id and the frame whose [Page] is
    returned, or [None] for [nullptr].  [AllocatePage] is the post-increment
    of the atomic [next_page_id_]. *)
Definition NewPgImp (fuel : nat) (s : BufferPoolManagerInstance) :
    option (option (Z * Z) * BufferPoolManagerInstance) :=
  fs ← acquire_frame s;
  match fs.1 with
  | None => Some (None, fs.2)
  | Some frame =>
      let new_id := next_page_id_ fs.2 in
      s' ← install fuel frame new_id zeroed (int_wrap (new_id + 1)) fs.2;
      Some (Some (new_id, frame), s')
  end.

(** [FetchPgImp]: the result is the frame whose [Page] is returned. *)
Definition FetchPgImp (fuel : nat) (page_id : Z) (s : BufferPoolManagerInstance) :
    option (option Z * BufferPoolManagerInstance) :=
  found ← EHT.Find hash page_id (page_table_ s);
  match found with
  | Some frame =>
      page ← page_at s frame;
      if bool_decide (pin_count_ page = INT_MAX) then None
      else
        Some (Some frame,
              mkBPM (pool_size_ s) (next_page_id_ s)
                    (<[Z.to_nat frame := mkPage (data_ page) (page_id_ page)
                                                (pin_count_ page + 1) (is_dirty_ page)]>
                       (pages_ s))
                    (disk_manager_ s) (page_table_ s)
                    (SetEvictable frame false (RecordAccess frame (replacer_ s)))
                    (free_list_ s))
  | None =>
      fs ← acquire_frame s;
      match fs.1 with
      | None => Some (None, fs.2)
      | Some victim =>
          s' ← install fuel victim page_id (ReadPage page_id (disk_manager_ fs.2))
                       (next_page_id_ fs.2) fs.2;
          Some (Some victim, s')
      end
  end.

(** [UnpinPgImp]. *)
Definition UnpinPgImp (page_id : Z) (is_dirty : bool) (s : BufferPoolManagerInstance) :
    option (bool * BufferPoolManagerInstance) :=
  found ← EHT.Find hash page_id (page_table_ s);
  match found with
  | None => Some (false, s)
  | Some frame =>
      page ← page_at s frame;
      if pin_count_ page <=? 0 then Some (false, s)
      else
        let pin := pin_count_ page - 1 in
        let page' := mkPage (data_ page) (page_id_ page) pin
                            (if is_dirty then true else is_dirty_ page) in
        Some (true,
              mkBPM (pool_size_ s) (next_page_id_ s)
                    (<[Z.to_nat frame := page']> (pages_ s))
                    (disk_manager_ s) (page_table_ s)
                    (if pin =? 0 then SetEvictable frame true (replacer_ s)
                     else replacer_ s)
                    (free_list_ s))
  end.

(** [FlushPgImp]. *)
Definition FlushPgImp (page_id : Z) (s : BufferPoolManagerInstance) :
    option (bool * BufferPoolManagerInstance) :=
  found ← EHT.Find hash page_id (page_table_ s);
  match found with
  | None => Some (false, s)
  | Some frame =>
      page ← page_at s frame;
      Some (true,
            mkBPM (pool_size_ s) (next_page_id_ s)
                  (<[Z.to_nat frame := mkPage (data_ page) (page_id_ page)
                                              (pin_count_ page) false]> (pages_ s))
                  (WritePage page_id (data_ page) (disk_manager_ s))
                  (page_table_ s) (replacer_ s) (free_list_ s))
  end.

(** [FlushAllPgsImp]: the loop over [pages_[0 .. pool_size_)], one frame at a
    time. *)
Definition flush_frame (pd : list Page * DiskManager) (page : Page) :
    list Page * DiskManager :=
  if bool_decide (page_id_ page ≠ INVALID_PAGE_ID) then
    (pd.1 ++ [mkPage (data_ page) (page_id_ page) (pin_count_ page) false],
     WritePage (page_id_ page) (data_ page) pd.2)
  else (pd.1 ++ [page], pd.2).

(** What the loop leaves in a frame. *)
Definition flushed (page : Page) : Page :=
  if bool_decide (page_id_ page ≠ INVALID_PAGE_ID)
  then mkPage (data_ page) (page_id_ page) (pin_count_ page) false
  else page.

Definition FlushAllPgsImp (s : BufferPoolManagerInstance) : BufferPoolManagerInstance :=
  let pd := foldl flush_frame ([], disk_manager_ s) (pages_ s) in
  mkBPM (pool_size_ s) (next_page_id_ s) pd.1 pd.2
        (page_table_ s) (replacer_ s) (free_list_ s).

(** [DeletePgImp]; [DeallocatePage] does nothing. *)
Definition DeletePgImp (page_id : Z) (s : BufferPoolManagerInstance) :
    option (bool * BufferPoolManagerInstance) :=
  found ← EHT.Find hash page_id (page_table_ s);
  match found with
  | None => Some (true, s)
  | Some frame =>
      page ← page_at s frame;
      if 0 <? pin_count_ page then Some (false, s)
      else
        let disk1 := if is_dirty_ page
                     then WritePage (page_id_ page) (data_ page) (disk_manager_ s)
                     else disk_manager_ s in
        rm ← EHT.Remove hash page_id (page_table_ s);
        Some (true,
              mkBPM (pool_size_ s) (next_page_id_ s)
                    (<[Z.to_nat frame := mkPage zeroed INVALID_PAGE_ID 0 false]> (pages_ s))
                    disk1 rm.2 (Remove frame (replacer_ s))
                    (free_list_ s ++ [frame]))
  end.

(** *** Operation sequences *)

(** A step of a run: one of the six operations of the manager, or the write
    of a caller into the frame that a [NewPgImp] or [FetchPgImp] gave it. *)
Inductive Op :=
| OpNewPage (fuel : nat)
| OpFetchPage (fuel : nat) (page_id : Z)
| OpUnpinPage (page_id : Z) (is_dirty : bool)
| OpFlushPage (page_id : Z)
| OpFlushAllPages
| OpDeletePage (page_id : Z)
| OpWriteData (frame : Z) (data : list Byte.byte).

Definition run_op (o : Op) (s : BufferPoolManagerInstance) :
    option BufferPoolManagerInstance :=
  match o with
  | OpNewPage fuel => snd <$> NewPgImp fuel s
  | OpFetchPage fuel p => snd <$> FetchPgImp fuel p s
  | OpUnpinPage p d => snd <$> UnpinPgImp p d s
  | OpFlushPage p => snd <$> FlushPgImp p s
  | OpFlushAllPages => Some (FlushAllPgsImp s)
  | OpDeletePage p => snd <$> DeletePgImp p s
  | OpWriteData f data => write_data f data s
  end.

(** The states that a fresh pool on the disk [disk] reaches by operations
    that return and by writes of the callers into the frames they hold. *)
Inductive reachable (pool_size replacer_k : Z) (disk : DiskManager) :
    BufferPoolManagerInstance → Prop :=
| reachable_new :
    reachable pool_size replacer_k disk (new_bpm pool_size replacer_k disk)
| reachable_step s o s' :
    reachable pool_size replacer_k disk s → run_op o s = Some s' →
    reachable pool_size replacer_k disk s'.

(** *** Invariants *)

Definition in_pool (s : BufferPoolManagerInstance) (f : Z) : Prop :=
  0 <= f < pool_size_ s.

(** The invariant of the claim on pins: a pinned frame is not evictable. *)
Definition pinned_not_evictable (s : BufferPoolManagerInstance) : Prop :=
  ∀ f page, page_at s f = Some page → 0 < pin_count_ page →
            ¬ evictable (replacer_ s) f.

(** What holds of every state of a pool whose size fits an [int]: the frame
    ids in the free list, in the page table and in the replacer index the
    frame array; the page table is a well-formed directory without duplicate
    keys in a bucket; a pinned frame is tracked by the replacer and not
    evictable. *)
Record bpm_inv (s : BufferPoolManagerInstance) : Prop := mk_bpm_inv {
  bi_pool : 0 <= pool_size_ s <= INT_MAX;
  bi_pages : Z.of_nat (length (pages_ s)) = pool_size_ s;
  bi_rsize : replacer_size_ (replacer_ s) = pool_size_ s;
  bi_free : ∀ f, f ∈ free_list_ s → in_pool s f;
  bi_table : EHT.dir_inv (page_table_ s);
  bi_keys : EHT.keys_nodup (page_table_ s);
  bi_values : EHT.values_in (in_pool s) (page_table_ s);
  bi_tracked : ∀ f, tracked (replacer_ s) f → in_pool s f;
  bi_pinned : ∀ f page, page_at s f = Some page → 0 < pin_count_ page →
                        tracked (replacer_ s) f ∧ ¬ evictable (replacer_ s) f
}.

(** The write that the loop of [FlushAllPgsImp] issues for a frame. *)
Definition flush_write (page : Page) : option (Z * list Byte.byte) :=
  if bool_decide (page_id_ page ≠ INVALID_PAGE_ID)
  then Some (page_id_ page, data_ page) else None.

(** Pin counts are within the non-negative range of [int]. *)
Definition pins_ok (s : BufferPoolManagerInstance) : Prop :=
  ∀ f page, page_at s f = Some page → 0 <= pin_count_ page <= INT_MAX.

(** *** Runs on the page ids that [AllocatePage] hands out

    [AllocatePage] returns the ids 0, 1, 2, ...  A valid operation fetches
    an id that is not negative, and is run while the page-id counter and the
    clock of the replacer (advanced at most four times by an operation) are
    away from their wrap-around. *)
Definition valid_op (s : BufferPoolManagerInstance) (o : Op) : Prop :=
  current_timestamp_ (replacer_ s) + 4 < SIZE_MOD ∧
  match o with
  | OpNewPage _ => next_page_id_ s < INT_MAX
  | OpFetchPage _ page_id => 0 <= page_id <= INT_MAX
  | _ => True
  end.

Inductive reachable_valid (pool_size replacer_k : Z) (disk : DiskManager) :
    BufferPoolManagerInstance → Prop :=
| reachable_valid_new :
    reachable_valid pool_size replacer_k disk (new_bpm pool_size replacer_k disk)
| reachable_valid_step s o s' :
    reachable_valid pool_size replacer_k disk s → valid_op s o →
    run_op o s = Some s' →
    reachable_valid pool_size replacer_k disk s'.

(** What valid runs maintain: the page table maps a page id to a frame that
    holds that page; a frame of the free list holds the empty page and is
    unknown to the replacer, and the free list has no duplicates; every
    other frame holds a page, is tracked by the replacer, and is evictable
    exactly when its pin count is 0. *)
Record consistent (s : BufferPoolManagerInstance) : Prop := mk_consistent {
  co_next : 0 <= next_page_id_ s;
  co_wf : wf (replacer_ s);
  co_mapped : ∀ pid f, EHT.Find hash pid (page_table_ s) = Some (Some f) →
      0 <= pid <= INT_MAX ∧
      ∃ page, page_at s f = Some page ∧ page_id_ page = pid;
  co_free : ∀ f, f ∈ free_list_ s →
      page_at s f = Some empty_page ∧ ¬ tracked (replacer_ s) f;
  co_nodup : NoDup (free_list_ s);
  co_used : ∀ f page, page_at s f = Some page → f ∉ free_list_ s →
      0 <= page_id_ page <= INT_MAX ∧ tracked (replacer_ s) f ∧
      (evictable (replacer_ s) f ↔ pin_count_ page = 0)
}.

End Manager.

End BPM.

(** ** Concrete states used by the examples *)

Module Examples.
Import MachineInt.
Local Open Scope Z_scope.

(** A table of bucket size 2 after [Insert(0, 100)], [Insert(1, 101)] and
    [Insert(0, 102)]. *)
Definition tbl0 : EHT.ExtendibleHashTable Z Z := EHT.new_table 2.
Definition tbl1 := default tbl0 (EHT.Insert std_hash_int 1 0 100 tbl0).
Definition tbl2 := default tbl1 (EHT.Insert std_hash_int 1 1 101 tbl1).
Definition tbl3 := default tbl2 (EHT.Insert std_hash_int 1 0 102 tbl2).

(** A table of bucket size 1 that holds key 0. *)
Definition tbl_one : EHT.ExtendibleHashTable Z Z :=
  default (EHT.new_table 1) (EHT.Insert std_hash_int 0 0 100 (EHT.new_table 1)).

(** What [GetGlobalDepth], the directory size and [GetNumBuckets] show. *)
Definition shape (t : EHT.ExtendibleHashTable Z Z) : Z * nat * Z :=
  (EHT.GetGlobalDepth t, length (EHT.dir_ t), EHT.GetNumBuckets t).

(** A pool of one frame: fresh, after a first [NewPage] that pins frame 0,
    and after a second [NewPage], which fails. *)
Definition pool1 : BPM.BufferPoolManagerInstance := BPM.new_bpm 1 2 [].
Definition pool1_full : BPM.BufferPoolManagerInstance :=
  default pool1 (BPM.run_op std_hash_int (BPM.OpNewPage 1) pool1).
Definition pool1_failed : BPM.BufferPoolManagerInstance :=
  default pool1_full (BPM.run_op std_hash_int (BPM.OpNewPage 1) pool1_full).

(** A replacer of 4 frames with K = 2 after one access of frames 0 and 1,
    two accesses of frame 2 and [SetEvictable(f, true)] for the three of them:
    frames 0 and 1 are in the history phase, frame 2 is steady. *)
Definition rep_calls : list Replacer.Call :=
  [Replacer.CallRecordAccess 0; Replacer.CallRecordAccess 1;
   Replacer.CallRecordAccess 2; Replacer.CallRecordAccess 2;
   Replacer.CallSetEvictable 0 true; Replacer.CallSetEvictable 1 true;
   Replacer.CallSetEvictable 2 true].
Definition rep : Replacer.LRUKReplacer :=
  Replacer.run_calls rep_calls (Replacer.new_replacer 4 2).

(** A pool of two frames with K = 2: page 0 is created, modified and
    unpinned; page 1 is created; the creation of page 2 then evicts page 0,
    which is written back; page 1 is unpinned, and page 0 is fetched again
    into the frame of page 1. *)
Definition pool2 : BPM.BufferPoolManagerInstance := BPM.new_bpm 2 2 [].
Definition pool2_a : BPM.BufferPoolManagerInstance :=
  default pool2 (BPM.run_op std_hash_int (BPM.OpNewPage 30) pool2).
Definition pool2_b : BPM.BufferPoolManagerInstance :=
  default pool2_a (BPM.run_op std_hash_int (BPM.OpUnpinPage 0 true) pool2_a).
Definition pool2_c : BPM.BufferPoolManagerInstance :=
  default pool2_b (BPM.run_op std_hash_int (BPM.OpNewPage 30) pool2_b).
Definition pool2_d : BPM.BufferPoolManagerInstance :=
  default pool2_c (BPM.run_op std_hash_int (BPM.OpNewPage 30) pool2_c).
Definition pool2_e : BPM.BufferPoolManagerInstance :=
  default pool2_d (BPM.run_op std_hash_int (BPM.OpUnpinPage 1 false) pool2_d).
Definition pool2_f : BPM.BufferPoolManagerInstance :=
  default pool2_e (BPM.run_op std_hash_int (BPM.OpFetchPage 30 0) pool2_e).

(** A pool of two frames with K = 2 on a disk that holds page 7.  Page 0 is
    created, the caller writes [bytes_a] into its frame and unpins it dirty;
    page 1 is created; the creation of page 2 then evicts page 0, whose bytes
    go to disk; page 1 is unpinned, and page 0 is fetched again into the
    frame of page 1. *)
Definition bytes_a : list Byte.byte := replicate BPM.PAGE_SIZE Byte.x61.
Definition bytes_7 : list Byte.byte := replicate BPM.PAGE_SIZE Byte.x37.
Definition disk3 : BPM.DiskManager := [(7, bytes_7)].

Definition pool3 : BPM.BufferPoolManagerInstance := BPM.new_bpm 2 2 disk3.
Definition pool3_a : BPM.BufferPoolManagerInstance :=
  default pool3 (BPM.run_op std_hash_int (BPM.OpNewPage 30) pool3).
Definition pool3_b : BPM.BufferPoolManagerInstance :=
  default pool3_a (BPM.run_op std_hash_int (BPM.OpWriteData 0 bytes_a) pool3_a).
Definition pool3_c : BPM.BufferPoolManagerInstance :=
  default pool3_b (BPM.run_op std_hash_int (BPM.OpUnpinPage 0 true) pool3_b).
Definition pool3_d : BPM.BufferPoolManagerInstance :=
  default pool3_c (BPM.run_op std_hash_int (BPM.OpNewPage 30) pool3_c).
Definition pool3_e : BPM.BufferPoolManagerInstance :=
  default pool3_d (BPM.run_op std_hash_int (BPM.OpNewPage 30) pool3_d).
Definition pool3_f : BPM.BufferPoolManagerInstance :=
  default pool3_e (BPM.run_op std_hash_int (BPM.OpUnpinPage 1 false) pool3_e).
Definition pool3_g : BPM.BufferPoolManagerInstance :=
  default pool3_f (BPM.run_op std_hash_int (BPM.OpFetchPage 30 0) pool3_f).

End Examples.
(** * Properties of the replacer *)

Module ReplacerFacts.
Import MachineInt Replacer.
Local Open Scope Z_scope.

Lemma static_cast_int_small x : 0 <= x <= INT_MAX -> static_cast_int x = x.
Proof.
  unfold static_cast_int, INT_MAX. intros Hx.
  rewrite Z.mod_small; lia.
Qed.

Lemma size_t_incr_small t : 0 <= t -> t + 1 < SIZE_MOD -> size_t_incr t = t + 1.
Proof. intros H0 H1. unfold size_t_incr. apply Z.mod_small. lia. Qed.


Lemma map_to_list_enumerates {A} (m : gmap Z A) : enumerates (map_to_list m) m.
Proof. intros k a. apply elem_of_map_to_list. Qed.

Section Scan.
Context {A : Type} (ts_of : A → Z) (flags : gmap Z bool).

(** The loop keeps the first strictly smaller timestamp among flagged
    entries: either nothing beat the initial bound, or the result is a
    flagged entry of minimal timestamp. *)
Lemma scan_spec (l : list (Z * A)) (f0 t0 f t : Z) :
  scan ts_of flags l (f0, t0) = (f, t) →
  (f = f0 ∧ t = t0 ∧
     ∀ k a, (k, a) ∈ l → is_Some (flags !! k) → t0 <= ts_of a)
  ∨ (∃ a, (f, a) ∈ l ∧ is_Some (flags !! f) ∧ ts_of a = t ∧ t < t0 ∧
       ∀ k b, (k, b) ∈ l → is_Some (flags !! k) → t <= ts_of b).
Proof.
  revert f0 t0. induction l as [|[k a] l IH]; intros f0 t0 Hs.
  - cbn in Hs. inversion Hs; subst. left. repeat split; try done.
    intros k a Hin. by apply elem_of_nil in Hin.
  - cbn [scan foldl] in Hs. unfold scan_step at 2 in Hs. cbn [fst snd] in Hs.
    destruct (bool_decide (is_Some (flags !! k))) eqn:Hflag;
      [apply bool_decide_eq_true in Hflag | apply bool_decide_eq_false in Hflag];
      cbn [andb] in Hs.
    + destruct (ts_of a <? t0) eqn:Hlt;
        [apply Z.ltb_lt in Hlt | apply Z.ltb_ge in Hlt].
      * destruct (IH _ _ Hs) as [(-> & -> & Hall) | (b & Hin & Hf & Hb & Hlt' & Hall)].
        -- right. exists a. split_and!; [left | done | done | done |].
           intros k' b' [Heq | Hin]%elem_of_cons Hk'.
           ++ inversion Heq; subst. lia.
           ++ eauto.
        -- right. exists b. split_and!; [by right | done | done | lia |].
           intros k' b' [Heq | Hin']%elem_of_cons Hk'.
           ++ inversion Heq; subst. lia.
           ++ eauto.
      * destruct (IH _ _ Hs) as [(-> & -> & Hall) | (b & Hin & Hf & Hb & Hlt' & Hall)].
        -- left. split_and!; try done.
           intros k' b' [Heq | Hin]%elem_of_cons Hk'.
           ++ inversion Heq; subst. lia.
           ++ eauto.
        -- right. exists b. split_and!; [by right | done | done | done |].
           intros k' b' [Heq | Hin']%elem_of_cons Hk'.
           ++ inversion Heq; subst. lia.
           ++ eauto.
    + destruct (IH _ _ Hs) as [(-> & -> & Hall) | (b & Hin & Hf & Hb & Hlt' & Hall)].
      * left. split_and!; try done.
        intros k' b' [Heq | Hin]%elem_of_cons Hk'.
        -- inversion Heq; subst. contradiction.
        -- eauto.
      * right. exists b. split_and!; [by right | done | done | done |].
        intros k' b' [Heq | Hin']%elem_of_cons Hk'.
        -- inversion Heq; subst. contradiction.
        -- eauto.
Qed.
End Scan.

(** *** Evict on well-formed states *)

Lemma tick_clock r :
  0 <= current_timestamp_ r → clock_ok r →
  current_timestamp_ (tick r) = current_timestamp_ r + 1.
Proof. intros H0 H1. cbn. by apply size_t_incr_small. Qed.

(** On a well-formed state whose clock has not wrapped, [Evict] follows the
    victim rule, whatever the iteration order of the two maps. *)
Lemma Evict_in_wf (hs : list (Z * list Z)) (ls : list (Z * Z)) r ok f r' :
  wf r → clock_ok r →
  enumerates hs (hist_map_ r) → enumerates ls (last_map_ r) →
  Evict_in hs ls r = ((ok, f), r') →
  (ok = false ↔ ∀ g, ¬ evictable r g) ∧
  (ok = false → r' = tick r) ∧
  (ok = true →
     evictable r f ∧ victim_rule r f ∧
     hist_map_ r' = delete f (hist_map_ r) ∧
     last_map_ r' = delete f (last_map_ r) ∧
     evict_flag_ r' = delete f (evict_flag_ r) ∧
     ¬ tracked r' f ∧ ¬ evictable r' f).
Proof.
  intros Hwf Hck Hhs Hls. unfold Evict_in.
  pose proof (tick_clock r (wf_clock r Hwf) Hck) as Hnow.
  set (r1 := tick r) in *.
  change (hist_map_ r1) with (hist_map_ r).
  change (last_map_ r1) with (last_map_ r).
  change (evict_flag_ r1) with (evict_flag_ r).
  destruct (bool_decide (hist_map_ r = ∅) && bool_decide (last_map_ r = ∅)) eqn:Hemp.
  { apply andb_true_iff in Hemp as [He1%bool_decide_eq_true He2%bool_decide_eq_true].
    intros [= <- <- <-]. split_and!; [|done|done].
    split; [intros _ | done]. intros g Hg.
    destruct (wf_flag r Hwf g Hg) as [[x Hx] | [x Hx]].
    - rewrite He1 in Hx. by rewrite lookup_empty in Hx.
    - rewrite He2 in Hx. by rewrite lookup_empty in Hx. }
  clear Hemp.
  destruct (scan front (evict_flag_ r) hs (-1, current_timestamp_ r1))
    as [fid lr1] eqn:Hscan1.
  apply scan_spec in Hscan1
    as [(-> & -> & Hnone) | (h & Hin & Hfl & Hts & Hlt & Hmin)].
  - (* no history-phase frame is flagged *)
    assert (Hnohist : ∀ g, evictable r g → hist_map_ r !! g = None).
    { intros g Hg. destruct (hist_map_ r !! g) as [hg|] eqn:Hhg; [|done].
      exfalso. pose proof (Hnone g hg (proj2 (Hhs g hg) Hhg) Hg).
      destruct (wf_hist_front r Hwf g hg Hhg). lia. }
    assert (Hm1 : ¬ tracked r (-1)).
    { intros Ht. apply (wf_ids r Hwf) in Ht. lia. }
    rewrite bool_decide_eq_false_2 by (intros Hx; apply Hm1; by left).
    destruct (scan id (evict_flag_ r) ls (-1, current_timestamp_ r1))
      as [fid2 lr2] eqn:Hscan2.
    apply scan_spec in Hscan2
      as [(-> & -> & Hnone2) | (t & Hin & Hfl & Hts & Hlt & Hmin)].
    + cbn [Z.eqb Pos.eqb]. intros [= <- <- <-]. split_and!; [|done|done].
      split; [intros _ | done]. intros g Hg.
      destruct (wf_flag r Hwf g Hg) as [[x Hx] | [x Hx]].
      * by rewrite (Hnohist g Hg) in Hx.
      * pose proof (Hnone2 g x (proj2 (Hls g x) Hx) Hg).
        destruct (wf_last_ts r Hwf g x Hx). unfold id in *. lia.
    + apply Hls in Hin. unfold id in Hts. subst lr2.
      assert (fid2 ≠ -1).
      { intros ->. apply Hm1. right. by eexists. }
      rewrite (proj2 (Z.eqb_neq fid2 (-1))) by done.
      intros [= <- <- <-]. cbn.
      split_and!; [split; [done | intros Hno; by destruct (Hno fid2)] | done |].
      intros _. split_and!; try done.
      * right. split; [done|]. exists t. split; [done|].
        intros g tg Hg Hgt. apply (Hmin g tg); [by apply Hls | done].
      * symmetry. apply delete_id. by apply Hnohist.
      * intros [[x Hx] | [x Hx]]; cbn in Hx.
        -- rewrite (Hnohist fid2 Hfl) in Hx. done.
        -- by rewrite lookup_delete_eq in Hx.
      * intros [x Hx]; cbn in Hx. by rewrite lookup_delete_eq in Hx.
  - (* a flagged history-phase frame was found *)
    apply Hhs in Hin.
    rewrite bool_decide_eq_true_2 by (by eexists).
    intros [= <- <- <-]. cbn.
    split_and!; [split; [done | intros Hno; by destruct (Hno fid)] | done |].
    intros _. split_and!; try done.
    + left. exists h. split; [done|]. intros g hg Hg Hgh.
      rewrite Hts. apply (Hmin g hg); [by apply Hhs | done].
    + symmetry. apply delete_id. apply (wf_phase r Hwf). by eexists.
    + intros [[x Hx] | [x Hx]]; cbn in Hx.
      * by rewrite lookup_delete_eq in Hx.
      * rewrite (wf_phase r Hwf fid) in Hx; [done | by eexists].
    + intros [x Hx]; cbn in Hx. by rewrite lookup_delete_eq in Hx.
Qed.

(** *** RecordAccess *)

(** A frame id at or above the size of the replacer is ignored: only the
    clock advances. *)
Lemma RecordAccess_above f r :
  static_cast_int (replacer_size_ r) <= f → RecordAccess f r = tick r.
Proof.
  intros Hge. unfold RecordAccess. cbn.
  by rewrite (proj2 (Z.leb_le _ _) Hge).
Qed.

(** A steady-phase frame gets the new clock value as its timestamp. *)
Lemma RecordAccess_steady f r t :
  f < static_cast_int (replacer_size_ r) → last_map_ r !! f = Some t →
  RecordAccess f r =
    mkReplacer (size_t_incr (current_timestamp_ r)) (replacer_size_ r) (k_ r)
               (hist_map_ r)
               (<[f := size_t_incr (current_timestamp_ r)]> (last_map_ r))
               (evict_flag_ r).
Proof.
  intros Hlt Hl. unfold RecordAccess. cbn.
  rewrite (proj2 (Z.leb_gt _ _) Hlt).
  rewrite bool_decide_eq_true_2; [done | by eexists].
Qed.

(** Any other frame has the new clock value appended to its history; with
    [k_] entries or more the frame becomes steady, keeps the new value only,
    and its history list is dropped. *)
Lemma RecordAccess_history f r :
  f < static_cast_int (replacer_size_ r) → last_map_ r !! f = None →
  let now := size_t_incr (current_timestamp_ r) in
  let h := default [] (hist_map_ r !! f) ++ [now] in
  RecordAccess f r =
    if k_ r <=? Z.of_nat (length h) then
      mkReplacer now (replacer_size_ r) (k_ r) (delete f (hist_map_ r))
                 (<[f := now]> (last_map_ r)) (evict_flag_ r)
    else
      mkReplacer now (replacer_size_ r) (k_ r) (<[f := h]> (hist_map_ r))
                 (last_map_ r) (evict_flag_ r).
Proof.
  intros Hlt Hl. unfold RecordAccess. cbn.
  rewrite (proj2 (Z.leb_gt _ _) Hlt).
  rewrite bool_decide_eq_false_2; [done |].
  rewrite Hl. by intros [? ?].
Qed.

(** No operation but [SetEvictable] and the removals touches the flags. *)
Lemma RecordAccess_evict_flag f r : evict_flag_ (RecordAccess f r) = evict_flag_ r.
Proof. unfold RecordAccess. cbn. repeat case_match; done. Qed.

Lemma RecordAccess_size f r : replacer_size_ (RecordAccess f r) = replacer_size_ r.
Proof. unfold RecordAccess. cbn. repeat case_match; done. Qed.

Lemma RecordAccess_tracked f r g :
  tracked (RecordAccess f r) g ↔
  tracked r g ∨ (g = f ∧ f < static_cast_int (replacer_size_ r)).
Proof.
  unfold RecordAccess, tracked. cbn.
  destruct (static_cast_int (replacer_size_ r) <=? f) eqn:Hle;
    [apply Z.leb_le in Hle | apply Z.leb_gt in Hle]; cbn.
  { split; [tauto | intros [? | [_ ?]]; [done | lia]]. }
  repeat case_match; cbn; destruct (decide (g = f)) as [-> | Hne];
    rewrite ?lookup_insert_eq, ?lookup_delete_eq, ?lookup_insert_ne,
      ?lookup_delete_ne by done;
    try (split; [tauto | intros [? | [? _]]; [done | congruence]]).
  - split; [intros _; by right | intros _; right; by eexists].
  - split; [intros _; by right | intros _; right; by eexists].
  - split; [intros _; by right | intros _; left; by eexists].
Qed.

Lemma SetEvictable_tracked f b r g : tracked (SetEvictable f b r) g ↔ tracked r g.
Proof. unfold SetEvictable, tracked. cbn. repeat case_match; done. Qed.

Lemma SetEvictable_size f b r : replacer_size_ (SetEvictable f b r) = replacer_size_ r.
Proof. unfold SetEvictable. cbn. repeat case_match; done. Qed.

Lemma SetEvictable_false_flag f r :
  evict_flag_ (SetEvictable f false r) = delete f (evict_flag_ r).
Proof. done. Qed.

Lemma SetEvictable_true_flag f r :
  evict_flag_ (SetEvictable f true r) =
    if bool_decide (tracked r f) then <[f := true]> (evict_flag_ r)
    else evict_flag_ r.
Proof.
  unfold SetEvictable, tracked. simpl.
  destruct (hist_map_ r !! f) eqn:Hh; destruct (last_map_ r !! f) eqn:Hl; done.
Qed.

Lemma Remove_tracked f r g : tracked (Remove f r) g ↔ tracked r g ∧ g ≠ f.
Proof.
  unfold Remove, tracked. cbn. destruct (decide (g = f)) as [-> | Hne].
  - rewrite !lookup_delete_eq. split; [intros [[? ?] | [? ?]]; done | tauto].
  - rewrite !lookup_delete_ne by done. tauto.
Qed.

Lemma Remove_evict_flag f r : evict_flag_ (Remove f r) = delete f (evict_flag_ r).
Proof. done. Qed.

Lemma Remove_size f r : replacer_size_ (Remove f r) = replacer_size_ r.
Proof. done. Qed.

(** *** Evict on arbitrary states *)

(** A failed [Evict] advances the clock and changes nothing else. *)
Lemma Evict_in_false hs ls r f r' :
  Evict_in hs ls r = ((false, f), r') → f = -1 ∧ r' = tick r.
Proof.
  unfold Evict_in. repeat case_match; by intros [= <- <-].
Qed.

(** A successful [Evict] returns a frame that was tracked and clears its
    flag; no frame becomes tracked and every other frame stays tracked. *)
Lemma Evict_true r f r' :
  Evict r = ((true, f), r') →
  tracked r f ∧
  replacer_size_ r' = replacer_size_ r ∧ k_ r' = k_ r ∧
  evict_flag_ r' = delete f (evict_flag_ r) ∧
  (∀ g, tracked r' g → tracked r g) ∧
  (∀ g, g ≠ f → tracked r g → tracked r' g).
Proof.
  unfold Evict, Evict_in. cbn.
  destruct (bool_decide (hist_map_ r = ∅) && bool_decide (last_map_ r = ∅)); [done|].
  destruct (scan front _ _ _) as [fid lr1] eqn:Hs1.
  destruct (bool_decide (is_Some (hist_map_ r !! fid))) eqn:Hh.
  - apply bool_decide_eq_true in Hh. intros [= <- <-]. cbn.
    unfold tracked; cbn. split_and!; try done; [by left | |].
    + intros g. destruct (decide (g = fid)) as [-> | Hne].
      * rewrite lookup_delete_eq. intros [[? ?] | Hl]; [done | by right].
      * rewrite lookup_delete_ne by done. tauto.
    + intros g Hne. rewrite lookup_delete_ne by done. tauto.
  - apply bool_decide_eq_false in Hh.
    destruct (scan id _ _ _) as [fid2 lr2] eqn:Hs2.
    destruct (fid2 =? -1) eqn:Hm1; [done|]. apply Z.eqb_neq in Hm1.
    intros [= <- <-]. cbn.
    assert (Hin : is_Some (last_map_ r !! fid2)).
    { apply scan_spec in Hs2 as [(-> & _) | (a & Hin & _)].
      - apply scan_spec in Hs1 as [(-> & _) | (a & Hin & _)]; [done|].
        apply elem_of_map_to_list in Hin. destruct Hh. by eexists.
      - apply elem_of_map_to_list in Hin. by eexists. }
    unfold tracked; cbn. split_and!; try done; [by right | |].
    + intros g. destruct (decide (g = fid2)) as [-> | Hne].
      * rewrite lookup_delete_eq. intros [Hl | [? ?]]; [by left | done].
      * rewrite lookup_delete_ne by done. tauto.
    + intros g Hne. rewrite lookup_delete_ne by done. tauto.
Qed.

(** The frame of a successful [Evict] is flagged, unless it is the initial
    value -1 of the out-parameter. *)
Lemma Evict_true_flagged r f r' :
  Evict r = ((true, f), r') → evictable r f ∨ f = -1.
Proof.
  unfold Evict, Evict_in. cbn.
  destruct (bool_decide (hist_map_ r = ∅) && bool_decide (last_map_ r = ∅)); [done|].
  destruct (scan front _ _ _) as [fid lr1] eqn:Hs1.
  apply scan_spec in Hs1 as [(-> & -> & _) | (a & _ & Hfl & _)].
  - destruct (bool_decide (is_Some (hist_map_ r !! (-1)))); [intros [= <- <-]; by right|].
    destruct (scan id _ _ _) as [fid2 lr2] eqn:Hs2.
    apply scan_spec in Hs2 as [(-> & _) | (a & _ & Hfl & _)]; [done|].
    destruct (fid2 =? -1); [done|]. intros [= <- <-]. by left.
  - destruct (bool_decide (is_Some (hist_map_ r !! fid))); [intros [= <- <-]; by left|].
    destruct (scan id _ _ _) as [fid2 lr2] eqn:Hs2.
    destruct (fid2 =? -1); [done|]. intros [= <- <-].
    apply scan_spec in Hs2 as [(-> & _) | (a' & _ & Hfl' & _)]; by left.
Qed.

Lemma Evict_false r f r' : Evict r = ((false, f), r') → f = -1 ∧ r' = tick r.
Proof. apply Evict_in_false. Qed.

(** *** The well-formedness invariant is kept *)

Lemma wf_new n k : wf (new_replacer n k).
Proof.
  split; cbn; try done.
  - intros f [x Hx]. done.
  - intros f [[x Hx] | [x Hx]]; done.
Qed.

Lemma wf_tick r : wf r → clock_ok r → wf (tick r).
Proof.
  intros Hwf Hck. pose proof (tick_clock r (wf_clock r Hwf) Hck) as Hnow.
  destruct Hwf as [H0 Hh Hl Hp Hf Hi].
  split; rewrite ?Hnow; cbn [tick hist_map_ last_map_ evict_flag_]; try done.
  - lia.
  - intros f h Hfh. destruct (Hh f h Hfh). split; [done | lia].
  - intros f t Hft. pose proof (Hl f t Hft). lia.
Qed.

Lemma front_app_ne (h : list Z) (x : Z) : h ≠ [] → front (h ++ [x]) = front h.
Proof. by destruct h. Qed.

Lemma wf_RecordAccess f r : wf r → clock_ok r → 0 <= f → wf (RecordAccess f r).
Proof.
  intros Hwf Hck Hf0.
  pose proof (tick_clock r (wf_clock r Hwf) Hck) as Hnow. cbn in Hnow.
  pose proof (wf_tick r Hwf Hck) as Hwt.
  destruct Hwf as [H0 Hh Hl Hp Hf Hi].
  unfold RecordAccess. cbn.
  destruct (static_cast_int (replacer_size_ r) <=? f); [done|].
  destruct (bool_decide (is_Some (last_map_ r !! f))) eqn:Hst;
    [apply bool_decide_eq_true in Hst | apply bool_decide_eq_false in Hst].
  - split; cbn; rewrite ?Hnow.
    + lia.
    + intros g h Hg. destruct (Hh g h Hg). split; [done | lia].
    + intros g t. destruct (decide (g = f)) as [-> | Hne].
      * rewrite lookup_insert_eq. intros [= <-]. lia.
      * rewrite lookup_insert_ne by done. intros Hg. pose proof (Hl g t Hg). lia.
    + intros g Hg. destruct (decide (g = f)) as [-> | Hne].
      * rewrite (Hp f Hg) in Hst. by destruct Hst.
      * rewrite lookup_insert_ne by done. by apply Hp.
    + intros g Hg. destruct (Hf g Hg) as [? | ?]; [by left | right].
      cbn. destruct (decide (g = f)) as [-> | Hne];
        [by rewrite lookup_insert_eq | by rewrite lookup_insert_ne].
    + intros g [Hg | Hg]; cbn in Hg.
      * apply Hi. by left.
      * destruct (decide (g = f)) as [-> | Hne]; [done|].
        rewrite lookup_insert_ne in Hg by done. apply Hi. by right.
  - assert (Hlf : last_map_ r !! f = None).
    { destruct (last_map_ r !! f) eqn:E; [destruct Hst; by eexists | done]. }
    destruct (k_ r <=? _).
    + split; cbn; rewrite ?Hnow.
      * lia.
      * intros g h. destruct (decide (g = f)) as [-> | Hne].
        -- by rewrite lookup_delete_eq.
        -- rewrite lookup_delete_ne by done. intros Hg.
           destruct (Hh g h Hg). split; [done | lia].
      * intros g t. destruct (decide (g = f)) as [-> | Hne].
        -- rewrite lookup_insert_eq. intros [= <-]. lia.
        -- rewrite lookup_insert_ne by done. intros Hg.
           pose proof (Hl g t Hg). lia.
      * intros g. destruct (decide (g = f)) as [-> | Hne].
        -- rewrite lookup_delete_eq. by intros [? ?].
        -- rewrite lookup_delete_ne, lookup_insert_ne by done. apply Hp.
      * intros g Hg. unfold tracked. cbn.
        destruct (decide (g = f)) as [-> | Hne].
        -- right. by rewrite lookup_insert_eq.
        -- rewrite lookup_delete_ne, lookup_insert_ne by done. by apply Hf.
      * intros g. unfold tracked. cbn.
        destruct (decide (g = f)) as [-> | Hne]; [done|].
        rewrite lookup_delete_ne, lookup_insert_ne by done. apply Hi.
    + split; cbn; rewrite ?Hnow.
      * lia.
      * intros g h. destruct (decide (g = f)) as [-> | Hne].
        -- rewrite lookup_insert_eq. intros [= <-].
           split; [by destruct (default [] (hist_map_ r !! f))|].
           destruct (hist_map_ r !! f) as [h0|] eqn:Hh0; cbn.
           ++ destruct (Hh f h0 Hh0) as [Hne ?].
              rewrite (front_app_ne _ _ Hne). lia.
           ++ lia.
        -- rewrite lookup_insert_ne by done. intros Hg.
           destruct (Hh g h Hg). split; [done | lia].
      * intros g t Hg. pose proof (Hl g t Hg). lia.
      * intros g. destruct (decide (g = f)) as [-> | Hne]; [done|].
        rewrite lookup_insert_ne by done. apply Hp.
      * intros g Hg. unfold tracked. cbn.
        destruct (decide (g = f)) as [-> | Hne].
        -- left. by rewrite lookup_insert_eq.
        -- rewrite lookup_insert_ne by done. by apply Hf.
      * intros g. unfold tracked. cbn.
        destruct (decide (g = f)) as [-> | Hne]; [done|].
        rewrite lookup_insert_ne by done. apply Hi.
Qed.

Lemma wf_SetEvictable f b r : wf r → clock_ok r → wf (SetEvictable f b r).
Proof.
  intros Hwf Hck. pose proof (wf_tick r Hwf Hck) as [H0 Hh Hl Hp Hf Hi].
  cbn [tick hist_map_ last_map_ evict_flag_ current_timestamp_] in *.
  unfold SetEvictable. cbn [tick hist_map_ last_map_ evict_flag_].
  destruct (hist_map_ r !! f) eqn:Ehf; destruct (last_map_ r !! f) eqn:Elf;
    destruct b; cbn -[size_t_incr];
    try (by apply wf_tick);
    (split; cbn -[size_t_incr]; try done;
     intros g; unfold evictable, tracked; cbn -[size_t_incr];
     destruct (decide (g = f)) as [-> | Hne];
     rewrite ?lookup_insert_eq, ?lookup_delete_eq, ?lookup_insert_ne,
       ?lookup_delete_ne by done;
     rewrite ?Ehf, ?Elf;
     try (by intros [? ?]); try (intros _; by (left + right)); apply Hf).
Qed.

Lemma wf_Remove f r : wf r → clock_ok r → wf (Remove f r).
Proof.
  intros Hwf Hck. pose proof (wf_tick r Hwf Hck) as [H0 Hh Hl Hp Hf Hi].
  cbn [tick hist_map_ last_map_ evict_flag_ current_timestamp_] in *.
  unfold Remove. cbn [tick hist_map_ last_map_ evict_flag_ current_timestamp_
                      replacer_size_ k_].
  split; cbn -[size_t_incr]; try done.
  - intros g h [_ Hg]%lookup_delete_Some. by apply (Hh g).
  - intros g t [_ Hg]%lookup_delete_Some. by apply (Hl g).
  - intros g [h [Hne Hg]%lookup_delete_Some].
    rewrite lookup_delete_ne by done. apply Hp. by eexists.
  - intros g [x Hx]. cbn -[size_t_incr] in Hx.
    apply lookup_delete_Some in Hx as [Hne Hg]. unfold tracked. cbn -[size_t_incr].
    rewrite !lookup_delete_ne by done. apply Hf. by eexists.
  - intros g. unfold tracked. cbn -[size_t_incr].
    destruct (decide (g = f)) as [-> | Hne].
    + rewrite !lookup_delete_eq. by intros [[? ?] | [? ?]].
    + rewrite !lookup_delete_ne by done. apply Hi.
Qed.

Lemma wf_Evict r : wf r → clock_ok r → wf (Evict r).2.
Proof.
  intros Hwf Hck. destruct (Evict r) as [[ok f] r'] eqn:HE. cbn.
  destruct (Evict_in_wf _ _ r ok f r' Hwf Hck (map_to_list_enumerates _)
              (map_to_list_enumerates _) HE) as (_ & Hfalse & Htrue).
  destruct ok; [| rewrite Hfalse by done; by apply wf_tick].
  destruct (Htrue eq_refl) as (_ & _ & Hh' & Hl' & Hf' & _).
  assert (Hck' : current_timestamp_ r' = current_timestamp_ (tick r)).
  { revert HE. unfold Evict, Evict_in. repeat case_match; intros [=]; by subst. }
  pose proof (wf_tick r Hwf Hck) as [H0 Hh Hl Hp Hf Hi].
  cbn [tick hist_map_ last_map_ evict_flag_ current_timestamp_] in *.
  split; rewrite ?Hck', ?Hh', ?Hl', ?Hf'; unfold evictable, tracked;
    rewrite ?Hh', ?Hl', ?Hf'; try done.
  - intros g h [_ Hg]%lookup_delete_Some. by apply (Hh g).
  - intros g t [_ Hg]%lookup_delete_Some. by apply (Hl g).
  - intros g [h [Hne Hg]%lookup_delete_Some].
    rewrite lookup_delete_ne by done. apply Hp. by eexists.
  - intros g [x [Hne Hg]%lookup_delete_Some].
    rewrite !lookup_delete_ne by done. apply Hf. by eexists.
  - intros g. destruct (decide (g = f)) as [-> | Hne].
    + rewrite !lookup_delete_eq. by intros [[? ?] | [? ?]].
    + rewrite !lookup_delete_ne by done. apply Hi.
Qed.

Lemma reachable_nonneg_wf n k r : reachable_nonneg n k r → wf r.
Proof.
  induction 1 as [| r c _ IH Hck Hc]; [apply wf_new|].
  destruct c; cbn.
  - by apply wf_Evict.
  - by apply wf_RecordAccess.
  - by apply wf_SetEvictable.
  - by apply wf_Remove.
Qed.

(** X26.  With frame ids that are not negative, [Evict] does what is claimed
    of it: it returns false iff no frame is evictable, and otherwise returns and
    untracks an evictable frame chosen by the victim rule. *)
Lemma Evict_after_nonneg_calls n k r ok f r' :
  reachable_nonneg n k r → clock_ok r → Evict r = ((ok, f), r') →
  (ok = false ↔ ∀ g, ¬ evictable r g) ∧
  (ok = true →
     evictable r f ∧ victim_rule r f ∧ ¬ tracked r' f ∧ ¬ evictable r' f).
Proof.
  intros Hr Hck HE. apply reachable_nonneg_wf in Hr.
  destruct (Evict_in_wf _ _ r ok f r' Hr Hck (map_to_list_enumerates _)
              (map_to_list_enumerates _) HE) as (Hiff & _ & Htrue).
  split; [done|]. intros Hok.
  destruct (Htrue Hok) as (? & ? & _ & _ & _ & ? & ?). done.
Qed.

(** *** The missing lower bound of [RecordAccess] *)

(** C6 (defect of the code).  Claim: [RecordAccess(f)] with [f] out of range
    changes no tracking state.  The guard of [RecordAccess] tests only
    [frame_id >= replacer_size_]: on a fresh replacer of 4 frames with K = 2,
    [RecordAccess(-1)] is outside [0, 4) and still creates a history list for
    frame -1. *)
Theorem RecordAccess_tracks_negative_frame :
  let r := new_replacer 4 2 in
  ¬ (0 <= -1 < replacer_size_ r) ∧
  hist_map_ r !! (-1) = None ∧
  hist_map_ (RecordAccess (-1) r) !! (-1) = Some [1].
Proof. cbn. split_and!; [lia | done | done]. Qed.

(** C1 (defect of the code).  Claim: [Evict] considers only frames whose
    evictable bit is set and returns NONE iff no evictable frame exists.
    After [RecordAccess(-1)] on a fresh replacer of 4 frames with K = 2 no
    frame has its evictable bit set, and yet [Evict] returns true with
    [*frame_id = -1], the initial value of the out-parameter, which is a key
    of [hist_map_]; the history of frame -1 is erased. *)
Theorem Evict_takes_unflagged_sentinel :
  let r := RecordAccess (-1) (new_replacer 4 2) in
  evict_flag_ r = ∅ ∧
  hist_map_ r !! (-1) = Some [1] ∧
  (Evict r).1 = (true, -1) ∧
  hist_map_ (Evict r).2 !! (-1) = None.
Proof. vm_compute. split_and!; reflexivity. Qed.

End ReplacerFacts.

(** * Properties of the extendible hash table *)

Module EHTFacts.
Import MachineInt EHT.
Local Open Scope Z_scope.

(** *** Bits of slot indices *)

Lemma shiftl_1 d : 0 <= d → Z.shiftl 1 d = 2 ^ d.
Proof. intros Hd. rewrite Z.shiftl_1_l. done. Qed.

Lemma mask_ones d : Z.shiftl 1 d - 1 = Z.ones d.
Proof. unfold Z.ones. lia. Qed.

Lemma land_bit a d :
  0 <= d → (Z.land a (Z.shiftl 1 d) ≠ 0 ↔ Z.testbit a d = true).
Proof.
  intros Hd. rewrite (shiftl_1 d Hd).
  destruct (Z.testbit a d) eqn:Hb.
  - split; [done | intros _ Hz].
    apply (f_equal (λ x, Z.testbit x d)) in Hz.
    rewrite Z.land_spec, Hb, Z.pow2_bits_true, Z.bits_0 in Hz by done. done.
  - split; [intros Hz | done]. destruct Hz.
    apply Z.bits_inj'. intros n Hn.
    rewrite Z.land_spec, Z.bits_0, Z.pow2_bits_eqb by done.
    destruct (Z.eqb_spec d n) as [-> | Hne]; [by rewrite Hb | by rewrite andb_false_r].
Qed.

Lemma mod_pow2_succ a d :
  0 <= d → a mod 2 ^ (d + 1) = a mod 2 ^ d + 2 ^ d * Z.b2z (Z.testbit a d).
Proof.
  intros Hd. rewrite Z.pow_add_r, Z.pow_1_r by lia.
  rewrite Z.rem_mul_r by lia. by rewrite Z.testbit_spec'.
Qed.

Lemma same_low_bits_succ d (i j : nat) :
  0 <= d →
  (same_low_bits (d + 1) i j ↔
   same_low_bits d i j ∧ Z.testbit (Z.of_nat i) d = Z.testbit (Z.of_nat j) d).
Proof.
  intros Hd. unfold same_low_bits. rewrite !mod_pow2_succ by done.
  pose proof (Z.mod_pos_bound (Z.of_nat i) (2 ^ d) ltac:(lia)).
  pose proof (Z.mod_pos_bound (Z.of_nat j) (2 ^ d) ltac:(lia)).
  destruct (Z.testbit (Z.of_nat i) d), (Z.testbit (Z.of_nat j) d); cbn [Z.b2z];
    split; [lia | intros [? _]; lia | lia | intros [_ ?]; done
           | lia | intros [_ ?]; done | lia | intros [? _]; lia].
Qed.

(** Agreement on [d] bits follows from agreement on more bits. *)
Lemma same_low_bits_le d d' (i j : nat) :
  0 <= d <= d' → same_low_bits d' i j → same_low_bits d i j.
Proof.
  unfold same_low_bits. intros [H0 Hle] He.
  assert (Hdiv : (2 ^ d | 2 ^ d')).
  { exists (2 ^ (d' - d)). rewrite <- Z.pow_add_r by lia. f_equal. lia. }
  rewrite <- (Z.mod_mod_divide (Z.of_nat i) _ _ Hdiv).
  rewrite <- (Z.mod_mod_divide (Z.of_nat j) _ _ Hdiv).
  by rewrite He.
Qed.

Section Facts.
Context {K V : Type} `{EqDecision K} (hash : K → Z).
Abbreviation Table := (ExtendibleHashTable K V).

(** *** The target bucket *)

Lemma IndexOf_mod (t : Table) key :
  0 <= global_depth_ t → IndexOf hash t key = hash key mod 2 ^ global_depth_ t.
Proof.
  intros Hd. unfold IndexOf. rewrite mask_ones. by apply Z.land_ones.
Qed.

Lemma IndexOf_range (t : Table) key :
  dir_inv t → (Z.to_nat (IndexOf hash t key) < length (dir_ t))%nat.
Proof.
  intros [Hd Hlen _ _]. rewrite (IndexOf_mod t key Hd).
  pose proof (Z.mod_pos_bound (hash key) (2 ^ global_depth_ t) ltac:(lia)). lia.
Qed.

(** On a table satisfying the invariant the target bucket of every key
    exists. *)
Lemma target_defined (t : Table) key :
  dir_inv t →
  ∃ h b, target hash t key = Some (h, b) ∧
         dir_ t !! Z.to_nat (IndexOf hash t key) = Some h ∧
         heap_ t !! h = Some b.
Proof.
  intros Hinv. pose proof (IndexOf_range t key Hinv) as Hr.
  apply lookup_lt_is_Some_2 in Hr as [h Hh].
  destruct (inv_slot t Hinv _ _ Hh) as (_ & b & Hb & _).
  exists h, b. unfold target, bucket_at. rewrite Hh. cbn. rewrite Hb. done.
Qed.

Lemma target_Some (t : Table) key h b :
  target hash t key = Some (h, b) →
  dir_ t !! Z.to_nat (IndexOf hash t key) = Some h ∧ heap_ t !! h = Some b.
Proof.
  unfold target, bucket_at. intros Ht.
  destruct (dir_ t !! _) as [h'|]; [|done]. cbn in Ht.
  destruct (heap_ t !! h') as [b'|] eqn:Hb; [|done]. cbn in Ht.
  by injection Ht as -> ->.
Qed.

Lemma dir_inv_new bs : dir_inv (new_table (K:=K) (V:=V) bs).
Proof.
  split; cbn; [done | done | |].
  { intros h b [<- <-]%lookup_singleton_Some. split; [lia | done]. }
  intros [|i] h Hi; [|done]. injection Hi as <-.
  split; [lia|]. eexists. split; [apply lookup_singleton_eq|]. cbn.
  split; [done|]. intros [|j] Hj; [|cbn in Hj; lia]. done.
Qed.

(** Doubling keeps the invariant: slot [i + old_len] shares the bucket of
    slot [i], whose local depth is at most the old global depth. *)
Lemma double_dir_inv (t t' : Table) :
  dir_inv t → double_dir t = Some t' → dir_inv t'.
Proof.
  intros [Hd Hlen Hheap Hslot]. unfold double_dir.
  destruct (30 <=? global_depth_ t); [done|]. intros [= <-].
  assert (Hlookup : ∀ i, (i < length (dir_ t ++ dir_ t))%nat →
    (dir_ t ++ dir_ t) !! i = dir_ t !! (i mod length (dir_ t))%nat).
  { intros i Hi. rewrite length_app in Hi.
    destruct (decide (i < length (dir_ t))%nat) as [Hlt | Hge].
    - rewrite lookup_app_l by done. by rewrite Nat.mod_small.
    - rewrite lookup_app_r by lia. f_equal.
      rewrite (Nat.Div0.mod_eq i) by lia.
      assert (i / length (dir_ t) = 1)%nat as ->; [|lia].
      symmetry. apply (Nat.div_unique i _ 1 (i - length (dir_ t))); lia. }
  assert (Hmod : ∀ (i : nat) d, 0 <= d <= global_depth_ t →
    Z.of_nat (i mod length (dir_ t)) mod 2 ^ d = Z.of_nat i mod 2 ^ d).
  { intros i d Hdd. rewrite Nat2Z.inj_mod, Hlen.
    apply Z.mod_mod_divide. exists (2 ^ (global_depth_ t - d)).
    rewrite <- Z.pow_add_r by lia. f_equal. lia. }
  assert (Hpos : (0 < length (dir_ t))%nat).
  { assert (0 < 2 ^ global_depth_ t) by lia. lia. }
  split; cbn [global_depth_ dir_ heap_ next_handle_ bucket_size_].
  - lia.
  - rewrite length_app, Nat2Z.inj_add, Hlen, Z.pow_add_r by lia. lia.
  - done.
  - intros i h Hi.
    assert (Hil : (i < length (dir_ t ++ dir_ t))%nat)
      by (apply lookup_lt_is_Some; by eexists).
    rewrite (Hlookup i Hil) in Hi.
    destruct (Hslot _ _ Hi) as (Hn & b & Hb & Hdb & Hsame).
    split; [done|]. exists b. split; [done|]. split; [lia|].
    intros j Hj. rewrite (Hlookup j Hj).
    rewrite (Hsame (j mod length (dir_ t))%nat)
      by (apply Nat.mod_upper_bound; lia).
    unfold same_low_bits. by rewrite !Hmod by done.
Qed.


(** *** The split *)

Lemma Bucket_Insert_fields key value (b : Bucket K V) :
  size_ (Bucket_Insert key value b).2 = size_ b ∧
  depth_ (Bucket_Insert key value b).2 = depth_ b.
Proof. unfold Bucket_Insert. by case_match. Qed.

Lemma Bucket_Insert_elem key value (b : Bucket K V) kv :
  kv ∈ cell_ (Bucket_Insert key value b).2 → kv ∈ cell_ b ∨ kv = (key, value).
Proof.
  unfold Bucket_Insert. case_match; cbn; [by left|].
  rewrite elem_of_app, list_elem_of_singleton. tauto.
Qed.

Lemma repartition_step_fields m (z o : Bucket K V) kv :
  let zo := repartition_step hash m (z, o) kv in
  size_ zo.1 = size_ z ∧ depth_ zo.1 = depth_ z ∧
  size_ zo.2 = size_ o ∧ depth_ zo.2 = depth_ o ∧
  (∀ x, x ∈ cell_ zo.1 → x ∈ cell_ z ∨ x = kv) ∧
  (∀ x, x ∈ cell_ zo.2 → x ∈ cell_ o ∨ x = kv).
Proof.
  unfold repartition_step. cbn. destruct kv as [k v].
  pose proof (Bucket_Insert_fields k v z) as [? ?].
  pose proof (Bucket_Insert_fields k v o) as [? ?].
  case_bool_decide; cbn; split_and!; try done;
    try (intros x Hx; by left); apply Bucket_Insert_elem.
Qed.

Lemma repartition_fields m items (z o : Bucket K V) :
  let zo := repartition hash m items (z, o) in
  size_ zo.1 = size_ z ∧ depth_ zo.1 = depth_ z ∧
  size_ zo.2 = size_ o ∧ depth_ zo.2 = depth_ o ∧
  (∀ kv, kv ∈ cell_ zo.1 → kv ∈ cell_ z ∨ kv ∈ items) ∧
  (∀ kv, kv ∈ cell_ zo.2 → kv ∈ cell_ o ∨ kv ∈ items).
Proof.
  revert z o. induction items as [|kv items IH]; intros z o; cbn.
  { split_and!; try done; intros; by left. }
  unfold repartition in IH.
  pose proof (repartition_step_fields m z o kv) as (Hs1 & Hd1 & Hs2 & Hd2 & Hz1 & Ho1).
  destruct (repartition_step hash m (z, o) kv) as [z1 o1]. cbn in *.
  destruct (IH z1 o1) as (? & ? & ? & ? & Hz & Ho).
  split_and!; try congruence.
  - intros x Hx. destruct (Hz x Hx) as [[? | ->]%Hz1 | ?];
      [by left | right; by left | right; by right].
  - intros x Hx. destruct (Ho x Hx) as [[? | ->]%Ho1 | ?];
      [by left | right; by left | right; by right].
Qed.

Lemma rewire_lookup m old zero one (dir : list nat) i :
  rewire m old zero one dir !! i =
    (λ h, if bool_decide (h = old)
          then (if bool_decide (Z.land (Z.of_nat i) m ≠ 0) then one else zero)
          else h) <$> dir !! i.
Proof. unfold rewire. by rewrite list_lookup_imap. Qed.

Lemma rewire_length m old zero one (dir : list nat) :
  length (rewire m old zero one dir) = length dir.
Proof. unfold rewire. by rewrite length_imap. Qed.

(** The fields of the table after a split. *)
Lemma split_bucket_fields h (b : Bucket K V) (t : Table) :
  let t' := split_bucket hash h b t in
  let m := Z.shiftl 1 (depth_ b) in
  let fresh := mkBucket (bucket_size_ t) (depth_ b + 1) [] in
  let zo := repartition hash m (cell_ b) (fresh, fresh) in
  global_depth_ t' = global_depth_ t ∧
  bucket_size_ t' = bucket_size_ t ∧
  bucket_cnt_ t' = bucket_cnt_ t + 1 ∧
  dir_ t' = rewire m h (next_handle_ t) (S (next_handle_ t)) (dir_ t) ∧
  heap_ t' = <[S (next_handle_ t) := zo.2]>
               (<[next_handle_ t := zo.1]> (delete h (heap_ t))) ∧
  next_handle_ t' = S (S (next_handle_ t)).
Proof.
  unfold split_bucket, GetDepth, GetItems. cbn zeta.
  destruct (repartition _ _ _ _) as [zb ob]. done.
Qed.

Lemma land_bit_decide (j : nat) d :
  0 <= d →
  bool_decide (Z.land (Z.of_nat j) (Z.shiftl 1 d) ≠ 0) = Z.testbit (Z.of_nat j) d.
Proof.
  intros Hd. destruct (Z.testbit (Z.of_nat j) d) eqn:E.
  - apply bool_decide_eq_true_2, land_bit; done.
  - apply bool_decide_eq_false_2. intros Hn%land_bit; [congruence | done].
Qed.

Lemma split_bucket_inv i0 h (b : Bucket K V) (t : Table) :
  dir_inv t → dir_ t !! i0 = Some h → heap_ t !! h = Some b →
  depth_ b < global_depth_ t →
  dir_inv (split_bucket hash h b t).
Proof.
  intros [Hd Hlen Hhp Hslot] Hi0 Hb Hlt.
  destruct (split_bucket_fields h b t) as (Hgd & Hbs & _ & Hdir & Hheap & Hnext).
  destruct (repartition_fields (Z.shiftl 1 (depth_ b)) (cell_ b)
              (mkBucket (bucket_size_ t) (depth_ b + 1) [])
              (mkBucket (bucket_size_ t) (depth_ b + 1) []))
    as (Hsz & Hdz & Hso & Hdo & _).
  set (zo := repartition _ _ _ _) in *. cbn in Hsz, Hdz, Hso, Hdo.
  set (z := next_handle_ t) in *.
  destruct (Hslot _ _ Hi0) as (Hhn & b0 & Hb0 & Hdb & Hsame0).
  rewrite Hb in Hb0. injection Hb0 as <-.
  assert (Hsame : ∀ i j, dir_ t !! i = Some h → (j < length (dir_ t))%nat →
            (dir_ t !! j = Some h ↔ same_low_bits (depth_ b) i j)).
  { intros i j Hi Hj. destruct (Hslot _ _ Hi) as (_ & b1 & Hb1 & _ & Hs).
    rewrite Hb in Hb1. injection Hb1 as <-. by apply Hs. }
  assert (Hold : ∀ j h', dir_ t !! j = Some h' → (h' < z)%nat).
  { intros j h' Hj. by destruct (Hslot _ _ Hj). }
  split; rewrite ?Hgd, ?Hbs, ?Hdir, ?Hheap, ?Hnext, ?rewire_length; try done.
  { intros g bg. rewrite !lookup_insert_Some, lookup_delete_Some.
    intros [[<- <-] | [_ [[<- <-] | (_ & _ & Hg)]]]; [split; [lia | done].. |].
    destruct (Hhp _ _ Hg). split; [unfold z; lia | done]. }
  intros i h'. rewrite rewire_lookup, land_bit_decide by lia.
  destruct (dir_ t !! i) as [h1|] eqn:Hi; [|done]. cbn.
  case_bool_decide as Hh1; [subst h1 | ].
  - (* a slot of the split bucket *)
    destruct (Z.testbit (Z.of_nat i) (depth_ b)) eqn:Hbi; intros [= <-].
    + split; [lia|]. exists zo.2. rewrite lookup_insert_eq.
      split; [done|]. rewrite Hdo. split; [lia|].
      intros j Hj. rewrite rewire_lookup, land_bit_decide by lia.
      rewrite same_low_bits_succ by lia. rewrite <- (Hsame i j Hi Hj), Hbi.
      destruct (dir_ t !! j) as [h2|] eqn:Hj2; cbn; [|split; [done | by intros [? _]]].
      pose proof (Hold _ _ Hj2).
      case_bool_decide as Hh2; [subst h2 |].
      * destruct (Z.testbit (Z.of_nat j) (depth_ b)); [done|].
        split; [intros [=]; lia | by intros [_ ?]].
      * split; [intros [= ->]; lia | intros [[= ->] _]; done].
    + split; [lia|]. exists zo.1.
      rewrite lookup_insert_ne, lookup_insert_eq by lia.
      split; [done|]. rewrite Hdz. split; [lia|].
      intros j Hj. rewrite rewire_lookup, land_bit_decide by lia.
      rewrite same_low_bits_succ by lia. rewrite <- (Hsame i j Hi Hj), Hbi.
      destruct (dir_ t !! j) as [h2|] eqn:Hj2; cbn; [|split; [done | by intros [? _]]].
      pose proof (Hold _ _ Hj2).
      case_bool_decide as Hh2; [subst h2 |].
      * destruct (Z.testbit (Z.of_nat j) (depth_ b)); [|done].
        split; [intros [=]; lia | by intros [_ ?]].
      * split; [intros [= ->]; lia | intros [[= ->] _]; done].
  - (* a slot of another bucket *)
    intros [= <-].
    destruct (Hslot _ _ Hi) as (Hn1 & b1 & Hb1 & Hdb1 & Hs1).
    split; [lia|]. exists b1.
    rewrite !lookup_insert_ne, lookup_delete_ne by (unfold z in *; lia || done).
    split; [done|]. split; [done|].
    intros j Hj. rewrite rewire_lookup. rewrite <- (Hs1 j Hj).
    destruct (dir_ t !! j) as [h2|] eqn:Hj2; cbn; [|done].
    case_bool_decide as Hh2; [subst h2 |]; [|done].
    split; [| intros [= ->]; done].
    case_bool_decide; intros [= <-]; unfold z in *; lia.
Qed.

(** *** The loop of Insert and the operations keep the invariant *)

Lemma double_dir_fields (t t' : Table) :
  double_dir t = Some t' →
  global_depth_ t < 30 ∧
  global_depth_ t' = global_depth_ t + 1 ∧
  bucket_size_ t' = bucket_size_ t ∧ bucket_cnt_ t' = bucket_cnt_ t ∧
  dir_ t' = dir_ t ++ dir_ t ∧ heap_ t' = heap_ t ∧
  next_handle_ t' = next_handle_ t.
Proof.
  unfold double_dir. destruct (30 <=? global_depth_ t) eqn:E; [done|].
  apply Z.leb_gt in E. by intros [= <-].
Qed.

Lemma overflow_iteration_inv key (t t' : Table) :
  dir_inv t → overflow_iteration hash key t = Some t' → dir_inv t'.
Proof.
  intros Hinv. unfold overflow_iteration.
  destruct (target hash t key) as [[h b]|] eqn:Ht; [|done]. cbn.
  apply target_Some in Ht as [Hdir Hb].
  destruct (inv_slot t Hinv _ _ Hdir) as (_ & b' & Hb' & Hdb & _).
  rewrite Hb in Hb'. injection Hb' as <-.
  unfold GetDepth. destruct (Z.eqb_spec (depth_ b) (global_depth_ t)) as [He | Hne].
  - destruct (double_dir t) as [t1|] eqn:Hdd; [|done]. cbn. intros [= <-].
    pose proof (double_dir_inv t t1 Hinv Hdd) as Hinv1.
    destruct (double_dir_fields t t1 Hdd) as (_ & Hgd & _ & _ & Hd1 & Hh1 & _).
    apply (split_bucket_inv (Z.to_nat (IndexOf hash t key))); [done | | | lia].
    + rewrite Hd1. by apply lookup_app_l_Some.
    + by rewrite Hh1.
  - cbn. intros [= <-].
    apply (split_bucket_inv (Z.to_nat (IndexOf hash t key))); [done.. | lia].
Qed.

Lemma split_loop_inv fuel key (t t' : Table) :
  dir_inv t → split_loop hash fuel key t = Some t' → dir_inv t'.
Proof.
  revert t. induction fuel as [|n IH]; intros t Hinv; cbn.
  - destruct (target hash t key) as [hb|]; [|done]. cbn.
    destruct (IsFull hb.2); [done | by intros [= <-]].
  - destruct (target hash t key) as [hb|]; [|done]. cbn.
    destruct (IsFull hb.2); [| by intros [= <-]].
    destruct (overflow_iteration hash key t) as [t1|] eqn:Ho; [|done]. cbn.
    apply IH. by apply (overflow_iteration_inv key t).
Qed.

Lemma set_bucket_inv h (b b' : Bucket K V) (t : Table) :
  dir_inv t → heap_ t !! h = Some b →
  size_ b' = size_ b ∧ depth_ b' = depth_ b →
  dir_inv (set_bucket h b' t).
Proof.
  intros [Hd Hlen Hhp Hslot] Hb [Hsz Hdep]. split; cbn; [done | done | |].
  { intros g bg [[<- <-] | [_ Hg]]%lookup_insert_Some; [|by apply Hhp].
    destruct (Hhp _ _ Hb). split; [done | congruence]. }
  intros i h1 Hi. destruct (Hslot _ _ Hi) as (Hn & b1 & Hb1 & Hdb1 & Hs).
  split; [done|]. destruct (decide (h1 = h)) as [-> | Hne].
  - rewrite Hb in Hb1. injection Hb1 as <-.
    exists b'. rewrite lookup_insert_eq, Hdep. done.
  - exists b1. by rewrite lookup_insert_ne.
Qed.

Lemma Insert_inv fuel key value (t t' : Table) :
  dir_inv t → Insert hash fuel key value t = Some t' → dir_inv t'.
Proof.
  intros Hinv. unfold Insert.
  destruct (split_loop hash fuel key t) as [t1|] eqn:Hl; [|done]. cbn.
  pose proof (split_loop_inv fuel key t t1 Hinv Hl) as Hinv1.
  destruct (target hash t1 key) as [[h b]|] eqn:Ht; [|done]. cbn.
  apply target_Some in Ht as [_ Hb].
  destruct (overwrite key value (GetItems b)); intros [= <-];
    apply (set_bucket_inv h b); try done.
  apply Bucket_Insert_fields.
Qed.

Lemma Bucket_Remove_fields key (b : Bucket K V) :
  size_ (Bucket_Remove key b).2 = size_ b ∧
  depth_ (Bucket_Remove key b).2 = depth_ b.
Proof. unfold Bucket_Remove. by case_match. Qed.

Lemma Remove_inv key found (t t' : Table) :
  dir_inv t → Remove hash key t = Some (found, t') → dir_inv t'.
Proof.
  intros Hinv. unfold Remove.
  destruct (target hash t key) as [[h b]|] eqn:Ht; [|done]. cbn.
  apply target_Some in Ht as [_ Hb].
  destruct (Bucket_Remove key b) as [fd b'] eqn:Hr. intros [= <- <-].
  apply (set_bucket_inv h b); [done | done |].
  pose proof (Bucket_Remove_fields key b) as Hd. by rewrite Hr in Hd.
Qed.

Lemma reachable_inv bs (t : Table) : reachable hash bs t → dir_inv t.
Proof.
  induction 1 as [| t fuel key value t' _ IH HI | t key found t' _ IH HR | ]; [| | |done].
  - apply dir_inv_new.
  - by apply (Insert_inv fuel key value t).
  - by apply (Remove_inv key found t).
Qed.

(** C3.  After any sequence of Insert, Remove and Find on a fresh table, the
    bucket of every directory slot has a local depth of at most the global
    depth, and two slots hold the same bucket iff their indices are congruent
    modulo [2^local_depth] of that bucket. *)
Theorem directory_slots_share_by_low_bits bs (t : Table) (i j hi hj : nat) :
  reachable hash bs t →
  dir_ t !! i = Some hi → dir_ t !! j = Some hj →
  ∃ bi, heap_ t !! hi = Some bi ∧
        GetLocalDepth t i = Some (depth_ bi) ∧
        depth_ bi <= GetGlobalDepth t ∧
        (hi = hj ↔ Z.of_nat i mod 2 ^ depth_ bi = Z.of_nat j mod 2 ^ depth_ bi).
Proof.
  intros Hr Hi Hj. apply reachable_inv in Hr.
  destruct (inv_slot t Hr _ _ Hi) as (_ & bi & Hbi & Hd & Hs).
  exists bi. split; [done|]. split.
  { unfold GetLocalDepth, bucket_at. rewrite Hi. cbn. by rewrite Hbi. }
  split; [unfold GetGlobalDepth; lia|].
  assert (Hjl : (j < length (dir_ t))%nat) by (apply lookup_lt_is_Some; by eexists).
  rewrite <- (Hs j Hjl). rewrite Hj. split; [by intros -> | by intros [= ->]].
Qed.

(** *** One iteration of the loop *)

Lemma repartition_cells m items (z o : Bucket K V) :
  Z.of_nat (length (cell_ z)) + Z.of_nat (length items) <= size_ z →
  Z.of_nat (length (cell_ o)) + Z.of_nat (length items) <= size_ o →
  let zo := repartition hash m items (z, o) in
  cell_ zo.1 = cell_ z ++ filter (λ kv, Z.land (hash kv.1) m = 0) items ∧
  cell_ zo.2 = cell_ o ++ filter (λ kv, Z.land (hash kv.1) m ≠ 0) items.
Proof.
  revert z o. unfold repartition.
  induction items as [|[k v] items IH]; intros z o Hz Ho; cbn [foldl].
  { by rewrite filter_nil, !app_nil_r. }
  cbn [length] in Hz, Ho. rewrite !filter_cons. cbn [fst].
  unfold repartition_step at 2 4. cbn [fst snd].
  unfold Bucket_Insert.
  destruct (decide (Z.land (hash k) m = 0)) as [He | Hne].
  - rewrite bool_decide_eq_false_2 by (by intros ?).
    rewrite decide_False by (by intros ?).
    rewrite (proj2 (Z.leb_gt _ _)) by lia. cbn [fst snd].
    destruct (IH (mkBucket (size_ z) (depth_ z) (cell_ z ++ [(k, v)])) o) as [-> ->];
      cbn [cell_ size_]; rewrite ?length_app; cbn [length]; try lia.
    by rewrite <- app_assoc.
  - rewrite bool_decide_eq_true_2 by done.
    rewrite decide_True by done.
    rewrite (proj2 (Z.leb_gt _ _)) by lia. cbn [fst snd].
    destruct (IH z (mkBucket (size_ o) (depth_ o) (cell_ o ++ [(k, v)]))) as [-> ->];
      cbn [cell_ size_]; rewrite ?length_app; cbn [length]; try lia.
    by rewrite <- app_assoc.
Qed.

(** What one iteration of the loop does to a table that satisfies the
    invariant and whose target bucket is full. *)
Lemma overflow_iteration_fields (t : Table) key h b :
  dir_inv t →
  target hash t key = Some (h, b) → IsFull b = true →
  (depth_ b = global_depth_ t → global_depth_ t < 30) →
  let m := 2 ^ depth_ b in
  let old_len := length (dir_ t) in
  let doubled := bool_decide (depth_ b = global_depth_ t) in
  let grown := if doubled then dir_ t ++ dir_ t else dir_ t in
  ∃ t' zero one zb ob,
    overflow_iteration hash key t = Some t' ∧
    global_depth_ t' = (if doubled then global_depth_ t + 1 else global_depth_ t) ∧
    length (dir_ t') = (if doubled then 2 * old_len else old_len)%nat ∧
    (doubled = true → ∀ i, (i < old_len)%nat →
       grown !! (i + old_len)%nat = dir_ t !! i ∧ grown !! i = dir_ t !! i) ∧
    bucket_cnt_ t' = bucket_cnt_ t + 1 ∧
    zero ≠ one ∧ heap_ t !! zero = None ∧ heap_ t !! one = None ∧
    heap_ t' !! h = None ∧
    heap_ t' !! zero = Some zb ∧ heap_ t' !! one = Some ob ∧
    depth_ zb = depth_ b + 1 ∧ depth_ ob = depth_ b + 1 ∧
    cell_ zb = filter (λ kv, Z.land (hash kv.1) m = 0) (cell_ b) ∧
    cell_ ob = filter (λ kv, Z.land (hash kv.1) m ≠ 0) (cell_ b) ∧
    (∀ i g, grown !! i = Some g →
       dir_ t' !! i =
         Some (if decide (g = h)
               then (if decide (Z.land (Z.of_nat i) m = 0) then zero else one)
               else g)) ∧
    (∀ g, g ≠ h → g ≠ zero → g ≠ one → heap_ t' !! g = heap_ t !! g) ∧
    bucket_size_ t' = bucket_size_ t ∧
    size_ zb = bucket_size_ t ∧ size_ ob = bucket_size_ t.
Proof.
  intros Hr Ht Hfull Hgd m old_len doubled grown.
  pose proof Hr as [Hd Hlen Hhp Hslot].
  pose proof Ht as [Hdir Hb]%target_Some.
  destruct (Hslot _ _ Hdir) as (Hhn & b' & Hb' & Hdb & _).
  rewrite Hb in Hb'. injection Hb' as <-.
  destruct (Hhp _ _ Hb) as [_ Hsz].
  apply Z.eqb_eq in Hfull.
  assert (Hm : Z.shiftl 1 (depth_ b) = m) by (apply shiftl_1; lia).
  (* the table after the optional doubling *)
  set (t1 := if doubled
             then mkTable (global_depth_ t + 1) (bucket_size_ t) (bucket_cnt_ t)
                          (dir_ t ++ dir_ t) (heap_ t) (next_handle_ t)
             else t).
  assert (Hov : overflow_iteration hash key t = Some (split_bucket hash h b t1)).
  { unfold overflow_iteration. rewrite Ht. cbn. unfold GetDepth, double_dir, t1, doubled.
    destruct (Z.eqb_spec (depth_ b) (global_depth_ t)) as [He | Hne].
    - rewrite bool_decide_eq_true_2 by done.
      by rewrite (proj2 (Z.leb_gt _ _)) by (apply Hgd, He).
    - by rewrite bool_decide_eq_false_2 by done. }
  assert (Ht1 : global_depth_ t1 = (if doubled then global_depth_ t + 1 else global_depth_ t)
                ∧ bucket_size_ t1 = bucket_size_ t ∧ bucket_cnt_ t1 = bucket_cnt_ t
                ∧ dir_ t1 = grown ∧ heap_ t1 = heap_ t
                ∧ next_handle_ t1 = next_handle_ t).
  { unfold t1, grown. by destruct doubled. }
  destruct Ht1 as (Hg1 & Hbs1 & Hc1 & Hd1 & Hh1 & Hn1).
  destruct (split_bucket_fields h b t1) as (Hgd' & Hbs' & Hcnt' & Hdir' & Hheap' & Hnext').
  rewrite Hbs1, Hn1, Hd1, Hh1 in *. rewrite Hm in *.
  destruct (repartition_fields m (cell_ b)
              (mkBucket (bucket_size_ t) (depth_ b + 1) [])
              (mkBucket (bucket_size_ t) (depth_ b + 1) []))
    as (Hsz' & Hdz & Hso' & Hdo & _).
  destruct (repartition_cells m (cell_ b)
              (mkBucket (bucket_size_ t) (depth_ b + 1) [])
              (mkBucket (bucket_size_ t) (depth_ b + 1) []))
    as [Hcz Hco]; cbn [cell_ size_ length]; [lia | lia |].
  set (zo := repartition _ _ _ _) in *. cbn in Hsz', Hso', Hdz, Hdo, Hcz, Hco.
  assert (Hfresh : ∀ g, (next_handle_ t <= g)%nat → heap_ t !! g = None).
  { intros g Hg. destruct (heap_ t !! g) as [bg|] eqn:E; [|done].
    destruct (Hhp _ _ E). lia. }
  exists (split_bucket hash h b t1), (next_handle_ t), (S (next_handle_ t)), zo.1, zo.2.
  split; [done|]. rewrite Hgd', Hbs', Hcnt', Hdir', Hheap', rewire_length.
  split_and!; try done.
  - unfold grown, old_len. destruct doubled; [|done]. rewrite length_app. lia.
  - intros Hdb' i Hi. unfold grown. rewrite Hdb'. split.
    + rewrite lookup_app_r by (unfold old_len; lia).
      f_equal. unfold old_len. lia.
    + by apply lookup_app_l.
  - lia.
  - by apply Hfresh.
  - apply Hfresh. lia.
  - rewrite !lookup_insert_ne by lia. apply lookup_delete_eq.
  - rewrite lookup_insert_ne by lia. apply lookup_insert_eq.
  - apply lookup_insert_eq.
  - intros i g Hg. rewrite rewire_lookup, Hg. cbn.
    destruct (decide (g = h)) as [-> | Hne].
    + rewrite bool_decide_eq_true_2 by done.
      destruct (decide (Z.land (Z.of_nat i) m = 0)) as [He | Hn].
      * by rewrite bool_decide_eq_false_2 by (by intros ?).
      * by rewrite bool_decide_eq_true_2 by done.
    + by rewrite bool_decide_eq_false_2 by done.
  - intros g Hgh Hgz Hgo. by rewrite !lookup_insert_ne, lookup_delete_ne by done.
Qed.

(** The loop runs the iteration as long as the target bucket is full. *)
Lemma split_loop_full fuel key (t : Table) h b :
  target hash t key = Some (h, b) → IsFull b = true →
  split_loop hash (S fuel) key t =
    overflow_iteration hash key t ≫= split_loop hash fuel key.
Proof. intros Ht Hf. cbn. rewrite Ht. cbn. by rewrite Hf. Qed.

Lemma split_loop_not_full fuel key (t : Table) h b :
  target hash t key = Some (h, b) → IsFull b = false →
  split_loop hash fuel key t = Some t.
Proof. intros Ht Hf. destruct fuel; cbn; rewrite Ht; cbn; by rewrite Hf. Qed.



(** *** Find, Remove and the stored values *)

Lemma Find_defined key (t : Table) : dir_inv t → is_Some (Find hash key t).
Proof.
  intros Hinv. destruct (target_defined t key Hinv) as (h & b & Ht & _).
  unfold Find. rewrite Ht. by eexists.
Qed.

Lemma Remove_defined key (t : Table) : dir_inv t → is_Some (Remove hash key t).
Proof.
  intros Hinv. destruct (target_defined t key Hinv) as (h & b & Ht & _).
  unfold Remove. rewrite Ht. cbn. destruct (Bucket_Remove key b). by eexists.
Qed.

Lemma Bucket_Find_elem key (b : Bucket K V) v :
  Bucket_Find key b = Some v → ∃ k, (k, v) ∈ cell_ b.
Proof.
  unfold Bucket_Find. destruct (find _ _) as [[k v']|] eqn:Hf; [|done].
  intros [= <-]. exists k. apply find_some in Hf as [Hin _].
  by apply list_elem_of_In.
Qed.

Lemma Find_values_in (P : V → Prop) key (t : Table) v :
  values_in P t → Find hash key t = Some (Some v) → P v.
Proof.
  intros HP. unfold Find.
  destruct (target hash t key) as [[h b]|] eqn:Ht; [|done]. cbn.
  apply target_Some in Ht as [_ Hb].
  intros [= Hf]. apply Bucket_Find_elem in Hf as [k Hk].
  apply (HP h b (k, v) Hb Hk).
Qed.

Lemma erase_first_elem key (l l' : list (K * V)) kv :
  erase_first key l = Some l' → kv ∈ l' → kv ∈ l.
Proof.
  revert l'. induction l as [|x l IH]; intros l'; cbn; [done|].
  destruct (has_key key x).
  - intros [= <-] ?. by right.
  - destruct (erase_first key l) as [l0|]; [|done]. cbn. intros [= <-].
    intros [-> | ?]%elem_of_cons; [by left | right; by apply (IH l0)].
Qed.

Lemma overwrite_elem key value (l l' : list (K * V)) kv :
  overwrite key value l = Some l' → kv ∈ l' → kv ∈ l ∨ kv.2 = value.
Proof.
  revert l'. induction l as [|x l IH]; intros l'; cbn; [done|].
  destruct (has_key key x).
  - intros [= <-] [-> | ?]%elem_of_cons; [by right | left; by right].
  - destruct (overwrite key value l) as [l0|]; [|done]. cbn. intros [= <-].
    intros [-> | Hin]%elem_of_cons; [left; by left |].
    destruct (IH l0 eq_refl Hin); [left; by right | by right].
Qed.

Lemma set_bucket_values_in (P : V → Prop) h (b' : Bucket K V) (t : Table) :
  values_in P t → (∀ kv, kv ∈ cell_ b' → P kv.2) →
  values_in P (set_bucket h b' t).
Proof.
  intros HP Hb' g bg kv. cbn.
  intros [[<- <-] | [_ Hg]]%lookup_insert_Some; [apply Hb' | by apply (HP g)].
Qed.

Lemma split_bucket_values_in (P : V → Prop) h (b : Bucket K V) (t : Table) :
  values_in P t → heap_ t !! h = Some b → values_in P (split_bucket hash h b t).
Proof.
  intros HP Hb g bg kv.
  destruct (split_bucket_fields h b t) as (_ & _ & _ & _ & -> & _).
  destruct (repartition_fields (Z.shiftl 1 (depth_ b)) (cell_ b)
              (mkBucket (bucket_size_ t) (depth_ b + 1) [])
              (mkBucket (bucket_size_ t) (depth_ b + 1) []))
    as (_ & _ & _ & _ & Hz & Ho).
  rewrite !lookup_insert_Some, lookup_delete_Some.
  intros [[<- <-] | [_ [[<- <-] | (_ & _ & Hg)]]] Hin.
  - destruct (Ho _ Hin) as [Hn | Hc]; [by apply elem_of_nil in Hn |].
    by apply (HP h b).
  - destruct (Hz _ Hin) as [Hn | Hc]; [by apply elem_of_nil in Hn |].
    by apply (HP h b).
  - by apply (HP g bg).
Qed.

Lemma split_loop_values_in (P : V → Prop) fuel key (t t' : Table) :
  values_in P t → split_loop hash fuel key t = Some t' → values_in P t'.
Proof.
  revert t. induction fuel as [|n IH]; intros t HP; cbn.
  - destruct (target hash t key) as [hb|]; [|done]. cbn.
    destruct (IsFull hb.2); [done | by intros [= <-]].
  - destruct (target hash t key) as [[h b]|] eqn:Ht; [|done]. cbn.
    destruct (IsFull b); [| by intros [= <-]].
    unfold overflow_iteration. rewrite Ht. cbn.
    apply target_Some in Ht as [_ Hb].
    destruct (GetDepth b =? global_depth_ t).
    + destruct (double_dir t) as [t1|] eqn:Hdd; [|done]. cbn.
      destruct (double_dir_fields t t1 Hdd) as (_ & _ & _ & _ & _ & Hh1 & _).
      apply IH. apply split_bucket_values_in; [| by rewrite Hh1].
      intros g bg kv. rewrite Hh1. apply HP.
    + cbn. apply IH. by apply split_bucket_values_in.
Qed.

Lemma Insert_values_in (P : V → Prop) fuel key value (t t' : Table) :
  values_in P t → P value → Insert hash fuel key value t = Some t' →
  values_in P t'.
Proof.
  intros HP Hv. unfold Insert.
  destruct (split_loop hash fuel key t) as [t1|] eqn:Hl; [|done]. cbn.
  pose proof (split_loop_values_in P fuel key t t1 HP Hl) as HP1.
  destruct (target hash t1 key) as [[h b]|] eqn:Ht; [|done]. cbn.
  apply target_Some in Ht as [_ Hb].
  destruct (overwrite key value (GetItems b)) as [l|] eqn:Ho; intros [= <-];
    apply set_bucket_values_in; try done.
  - cbn. intros kv Hin. destruct (overwrite_elem _ _ _ _ kv Ho Hin) as [? | ->];
      [by apply (HP1 h b) | done].
  - intros kv [Hin | ->]%Bucket_Insert_elem; [by apply (HP1 h b) | done].
Qed.

Lemma Remove_values_in (P : V → Prop) key found (t t' : Table) :
  values_in P t → Remove hash key t = Some (found, t') → values_in P t'.
Proof.
  intros HP. unfold Remove.
  destruct (target hash t key) as [[h b]|] eqn:Ht; [|done]. cbn.
  apply target_Some in Ht as [_ Hb].
  unfold Bucket_Remove. destruct (erase_first key (cell_ b)) as [l|] eqn:He;
    intros [= <- <-]; apply set_bucket_values_in; try done.
  - cbn. intros kv Hin. apply (HP h b); [done|]. by apply (erase_first_elem key _ l).
  - intros kv Hin. by apply (HP h b).
Qed.

(** *** Insert of a key that is present *)

Lemma overwrite_find key value (l : list (K * V)) :
  is_Some (find (has_key key) l) →
  ∃ l', overwrite key value l = Some l' ∧
        snd <$> find (has_key key) l' = Some value.
Proof.
  induction l as [|x l IH]; cbn; [by intros [? ?]|].
  destruct (has_key key x) eqn:Hx.
  - intros _. eexists. split; [done|]. cbn.
    unfold has_key in *. cbn. by rewrite Hx.
  - intros Hs. destruct (IH Hs) as (l' & -> & Hf). eexists. split; [done|].
    cbn. by rewrite Hx.
Qed.

(** When the target bucket is not full, Insert of a present key overwrites
    the value in place: the directory, the depths and the bucket count stay
    as they are. *)
Lemma Insert_present_not_full fuel key value (t : Table) h b :
  target hash t key = Some (h, b) → IsFull b = false →
  is_Some (Bucket_Find key b) →
  ∃ t', Insert hash fuel key value t = Some t' ∧
        Find hash key t' = Some (Some value) ∧
        dir_ t' = dir_ t ∧ global_depth_ t' = global_depth_ t ∧
        bucket_cnt_ t' = bucket_cnt_ t.
Proof.
  intros Ht Hnf Hpres. unfold Insert.
  rewrite (split_loop_not_full fuel key t h b Ht Hnf). cbn. rewrite Ht. cbn.
  assert (Hf : is_Some (find (has_key key) (cell_ b))).
  { unfold Bucket_Find in Hpres. destruct (find _ _); [by eexists | by destruct Hpres]. }
  destruct (overwrite_find key value (cell_ b) Hf) as (l' & Ho & Hfind).
  unfold GetItems. rewrite Ho. eexists. split; [done|]. split; [|done].
  unfold Find, target, bucket_at, IndexOf. cbn.
  apply target_Some in Ht as [Hd _]. unfold IndexOf in Hd. rewrite Hd. cbn.
  rewrite lookup_insert_eq. cbn. unfold Bucket_Find. cbn. by rewrite Hfind.
Qed.

(** *** No duplicate keys in a bucket *)

Lemma repartition_sublist m items (z o : Bucket K V) :
  let zo := repartition hash m items (z, o) in
  ∃ l1 l2, cell_ zo.1 = cell_ z ++ l1 ∧ cell_ zo.2 = cell_ o ++ l2 ∧
           l1 `sublist_of` items ∧ l2 `sublist_of` items.
Proof.
  revert z o. unfold repartition.
  induction items as [|[k v] items IH]; intros z o; cbn [foldl].
  { exists [], []. by rewrite !app_nil_r. }
  unfold repartition_step at 2 4. cbn [fst snd]. unfold Bucket_Insert.
  case_bool_decide.
  - destruct (size_ o <=? _); cbn [snd fst].
    + destruct (IH z o) as (l1 & l2 & -> & -> & ? & ?).
      exists l1, l2. split_and!; try done; by apply sublist_cons.
    + destruct (IH z (mkBucket (size_ o) (depth_ o) (cell_ o ++ [(k, v)])))
        as (l1 & l2 & -> & -> & ? & ?). cbn [cell_].
      exists l1, ((k, v) :: l2). rewrite <- app_assoc.
      split_and!; try done; [by apply sublist_cons | by apply sublist_skip].
  - destruct (size_ z <=? _); cbn [snd fst].
    + destruct (IH z o) as (l1 & l2 & -> & -> & ? & ?).
      exists l1, l2. split_and!; try done; by apply sublist_cons.
    + destruct (IH (mkBucket (size_ z) (depth_ z) (cell_ z ++ [(k, v)])) o)
        as (l1 & l2 & -> & -> & ? & ?). cbn [cell_].
      exists ((k, v) :: l1), l2. rewrite <- app_assoc.
      split_and!; try done; [by apply sublist_skip | by apply sublist_cons].
Qed.

Lemma set_bucket_keys_nodup h (b' : Bucket K V) (t : Table) :
  keys_nodup t → NoDup (cell_ b').*1 → keys_nodup (set_bucket h b' t).
Proof.
  intros Hk Hb' g bg. cbn.
  intros [[<- <-] | [_ Hg]]%lookup_insert_Some; [done | by apply (Hk g)].
Qed.

Lemma split_bucket_keys_nodup h (b : Bucket K V) (t : Table) :
  keys_nodup t → heap_ t !! h = Some b → keys_nodup (split_bucket hash h b t).
Proof.
  intros Hk Hb g bg.
  destruct (split_bucket_fields h b t) as (_ & _ & _ & _ & -> & _).
  destruct (repartition_sublist (Z.shiftl 1 (depth_ b)) (cell_ b)
              (mkBucket (bucket_size_ t) (depth_ b + 1) [])
              (mkBucket (bucket_size_ t) (depth_ b + 1) []))
    as (l1 & l2 & Hz & Ho & Hs1 & Hs2).
  cbn in Hz, Ho.
  rewrite !lookup_insert_Some, lookup_delete_Some.
  intros [[<- <-] | [_ [[<- <-] | (_ & _ & Hg)]]].
  - rewrite Ho. apply (sublist_NoDup _ (cell_ b).*1); [by apply (Hk h)|].
    by apply fmap_sublist.
  - rewrite Hz. apply (sublist_NoDup _ (cell_ b).*1); [by apply (Hk h)|].
    by apply fmap_sublist.
  - by apply (Hk g).
Qed.

Lemma split_loop_keys_nodup fuel key (t t' : Table) :
  keys_nodup t → split_loop hash fuel key t = Some t' → keys_nodup t'.
Proof.
  revert t. induction fuel as [|n IH]; intros t HP; cbn.
  - destruct (target hash t key) as [hb|]; [|done]. cbn.
    destruct (IsFull hb.2); [done | by intros [= <-]].
  - destruct (target hash t key) as [[h b]|] eqn:Ht; [|done]. cbn.
    destruct (IsFull b); [| by intros [= <-]].
    unfold overflow_iteration. rewrite Ht. cbn.
    apply target_Some in Ht as [_ Hb].
    destruct (GetDepth b =? global_depth_ t).
    + destruct (double_dir t) as [t1|] eqn:Hdd; [|done]. cbn.
      destruct (double_dir_fields t t1 Hdd) as (_ & _ & _ & _ & _ & Hh1 & _).
      apply IH. apply split_bucket_keys_nodup; [| by rewrite Hh1].
      intros g bg. rewrite Hh1. apply HP.
    + cbn. apply IH. by apply split_bucket_keys_nodup.
Qed.

Lemma overwrite_keys key value (l l' : list (K * V)) :
  overwrite key value l = Some l' → l'.*1 = l.*1.
Proof.
  revert l'. induction l as [|x l IH]; intros l'; cbn; [done|].
  destruct (has_key key x).
  - by intros [= <-].
  - destruct (overwrite key value l) as [l0|]; [|done]. cbn. intros [= <-].
    cbn. f_equal. by apply IH.
Qed.

Lemma overwrite_None key value (l : list (K * V)) :
  overwrite key value l = None → key ∉ l.*1.
Proof.
  induction l as [|x l IH]; cbn; [intros _; apply not_elem_of_nil|].
  unfold has_key at 1. case_bool_decide as Hx; [done|].
  destruct (overwrite key value l); [done|]. intros _.
  apply not_elem_of_cons. split; [congruence | by apply IH].
Qed.

Lemma Insert_keys_nodup fuel key value (t t' : Table) :
  keys_nodup t → Insert hash fuel key value t = Some t' → keys_nodup t'.
Proof.
  intros HP. unfold Insert.
  destruct (split_loop hash fuel key t) as [t1|] eqn:Hl; [|done]. cbn.
  pose proof (split_loop_keys_nodup fuel key t t1 HP Hl) as HP1.
  destruct (target hash t1 key) as [[h b]|] eqn:Ht; [|done]. cbn.
  apply target_Some in Ht as [_ Hb].
  destruct (overwrite key value (GetItems b)) as [l|] eqn:Ho; intros [= <-];
    apply set_bucket_keys_nodup; try done.
  - cbn. rewrite (overwrite_keys _ _ _ _ Ho). by apply (HP1 h).
  - unfold Bucket_Insert. case_match; cbn; [by apply (HP1 h)|].
    rewrite fmap_app. apply NoDup_app. split; [by apply (HP1 h)|].
    split; [|apply NoDup_singleton].
    intros x Hx Hin. cbn in Hin. apply list_elem_of_singleton in Hin as ->.
    by apply (overwrite_None _ _ _ Ho).
Qed.

Lemma erase_first_sublist key (l l' : list (K * V)) :
  erase_first key l = Some l' → l' `sublist_of` l.
Proof.
  revert l'. induction l as [|x l IH]; intros l'; cbn; [done|].
  destruct (has_key key x).
  - intros [= <-]. by apply sublist_cons.
  - destruct (erase_first key l) as [l0|]; [|done]. cbn. intros [= <-].
    apply sublist_skip. by apply IH.
Qed.

Lemma Remove_keys_nodup key found (t t' : Table) :
  keys_nodup t → Remove hash key t = Some (found, t') → keys_nodup t'.
Proof.
  intros HP. unfold Remove.
  destruct (target hash t key) as [[h b]|] eqn:Ht; [|done]. cbn.
  apply target_Some in Ht as [_ Hb].
  unfold Bucket_Remove. destruct (erase_first key (cell_ b)) as [l|] eqn:He;
    intros [= <- <-]; apply set_bucket_keys_nodup; try done; [|by apply (HP h)].
  cbn. apply (sublist_NoDup _ (cell_ b).*1); [by apply (HP h)|].
  apply fmap_sublist. by apply (erase_first_sublist key).
Qed.

(** *** Remove against Find *)

Lemma find_has_key_None key (l : list (K * V)) :
  find (has_key key) l = None ↔ key ∉ l.*1.
Proof.
  induction l as [|x l IH]; cbn.
  - split; [intros _; apply not_elem_of_nil | done].
  - unfold has_key at 1. case_bool_decide as Hx.
    + split; [done|]. intros Hn. destruct Hn. rewrite <- Hx. by left.
    + rewrite IH, not_elem_of_cons. split; [by intros ? | by intros [_ ?]].
Qed.

Lemma erase_first_None key (l : list (K * V)) :
  erase_first key l = None ↔ find (has_key key) l = None.
Proof.
  induction l as [|x l IH]; cbn; [done|].
  destruct (has_key key x); [done|].
  rewrite <- IH. destruct (erase_first key l); done.
Qed.

Lemma erase_first_gone key (l l' : list (K * V)) :
  NoDup l.*1 → erase_first key l = Some l' → key ∉ l'.*1.
Proof.
  revert l'. induction l as [|x l IH]; intros l'; cbn; [done|].
  intros [Hx Hnd]%NoDup_cons. unfold has_key at 1.
  case_bool_decide as Hk.
  - intros [= <-]. by rewrite <- Hk.
  - destruct (erase_first key l) as [l0|]; [|done]. cbn. intros [= <-].
    cbn. apply not_elem_of_cons. split; [congruence | by apply IH].
Qed.

(** Remove returns whether Find saw the key, changes the bucket of the key
    only, and leaves the key absent. *)
Lemma Remove_spec key (t : Table) res :
  keys_nodup t → Find hash key t = Some res →
  ∃ t', Remove hash key t = Some (bool_decide (is_Some res), t') ∧
        Find hash key t' = Some None ∧
        dir_ t' = dir_ t ∧ global_depth_ t' = global_depth_ t.
Proof.
  intros Hk. unfold Find, Remove.
  destruct (target hash t key) as [[h b]|] eqn:Ht; [|done]. cbn.
  intros [= <-]. pose proof Ht as [Hd Hb]%target_Some.
  assert (Hfind' : ∀ b', key ∉ (cell_ b').*1 →
     (hb ← target hash (set_bucket h b' t) key; Some (Bucket_Find key hb.2)) = Some None).
  { intros b' Hn. unfold target, bucket_at, IndexOf in *. cbn. rewrite Hd. cbn.
    rewrite lookup_insert_eq. cbn. unfold Bucket_Find.
    by rewrite (proj2 (find_has_key_None key _) Hn). }
  unfold Bucket_Remove, Bucket_Find.
  destruct (erase_first key (cell_ b)) as [l|] eqn:He.
  - assert (is_Some (find (has_key key) (cell_ b))) as [x Hx].
    { destruct (find _ _) eqn:Hf; [by eexists|].
      apply erase_first_None in Hf. congruence. }
    rewrite Hx. cbn. eexists. split; [done|]. split; [|done].
    apply Hfind'. cbn. apply (erase_first_gone key (cell_ b)); [by apply (Hk h) | done].
  - pose proof (proj1 (erase_first_None key _) He) as Hf. rewrite Hf. cbn.
    eexists. split; [done|]. split; [|done].
    apply Hfind'. by apply find_has_key_None.
Qed.

Lemma keys_nodup_new bs : keys_nodup (new_table (K:=K) (V:=V) bs).
Proof.
  intros h b Hb. cbn in Hb. apply lookup_singleton_Some in Hb as [<- <-].
  cbn. apply NoDup_nil_2.
Qed.

Lemma values_in_new (P : V → Prop) bs : values_in P (new_table (K:=K) bs).
Proof.
  intros h b kv Hb. cbn in Hb. apply lookup_singleton_Some in Hb as [<- <-].
  cbn. by intros ?%elem_of_nil.
Qed.

(** *** Fuel *)

(** The fuel only bounds the loop: more fuel gives the same table. *)
Lemma split_loop_fuel_mono fuel key (t t' : Table) :
  split_loop hash fuel key t = Some t' →
  split_loop hash (S fuel) key t = Some t'.
Proof.
  revert t. induction fuel as [|n IH]; intros t.
  - cbn. destruct (target hash t key) as [hb|]; [|done]. cbn.
    by destruct (IsFull hb.2).
  - intros Hl. cbn in Hl |- *.
    destruct (target hash t key) as [hb|]; [|done]. cbn in Hl |- *.
    destruct (IsFull hb.2); [|done].
    destruct (overflow_iteration hash key t) as [t1|]; [|done]. cbn in Hl |- *.
    by apply IH.
Qed.

Lemma Insert_fuel_mono fuel key value (t t' : Table) :
  Insert hash fuel key value t = Some t' →
  Insert hash (S fuel) key value t = Some t'.
Proof.
  unfold Insert.
  destruct (split_loop hash fuel key t) as [t1|] eqn:Hl; [|done].
  by rewrite (split_loop_fuel_mono fuel key t t1 Hl).
Qed.

(** *** The upsert law *)

Lemma split_loop_exit fuel key (t t' : Table) :
  split_loop hash fuel key t = Some t' →
  ∃ h b, target hash t' key = Some (h, b) ∧ IsFull b = false.
Proof.
  revert t. induction fuel as [|n IH]; intros t; cbn.
  - destruct (target hash t key) as [[h b]|] eqn:Ht; [|done]. cbn.
    destruct (IsFull b) eqn:Hf; [done|]. intros [= <-]. by exists h, b.
  - destruct (target hash t key) as [[h b]|] eqn:Ht; [|done]. cbn.
    destruct (IsFull b) eqn:Hf; [| intros [= <-]; by exists h, b].
    destruct (overflow_iteration hash key t) as [t1|]; [|done]. cbn. apply IH.
Qed.

Lemma repartition_length m items (z o : Bucket K V) :
  Z.of_nat (length (cell_ z)) <= size_ z →
  Z.of_nat (length (cell_ o)) <= size_ o →
  let zo := repartition hash m items (z, o) in
  Z.of_nat (length (cell_ zo.1)) <= size_ z ∧
  Z.of_nat (length (cell_ zo.2)) <= size_ o.
Proof.
  revert z o. unfold repartition.
  induction items as [|[k v] items IH]; intros z o Hz Ho; cbn [foldl]; [done|].
  unfold repartition_step at 2 4. cbn [fst snd]. unfold Bucket_Insert.
  case_bool_decide.
  - destruct (Z.leb_spec (size_ o) (Z.of_nat (length (cell_ o)))); cbn [snd fst].
    + by apply IH.
    + apply (IH z (mkBucket (size_ o) (depth_ o) (cell_ o ++ [(k, v)]))); [done|].
      cbn. rewrite length_app. cbn. lia.
  - destruct (Z.leb_spec (size_ z) (Z.of_nat (length (cell_ z)))); cbn [snd fst].
    + by apply IH.
    + apply (IH (mkBucket (size_ z) (depth_ z) (cell_ z ++ [(k, v)])) o); [|done].
      cbn. rewrite length_app. cbn. lia.
Qed.

Lemma set_bucket_within_capacity h (b' : Bucket K V) (t : Table) :
  within_capacity t → Z.of_nat (length (cell_ b')) <= size_ b' →
  within_capacity (set_bucket h b' t).
Proof.
  intros Hc Hb' g bg. cbn.
  intros [[<- <-] | [_ Hg]]%lookup_insert_Some; [done | by apply (Hc g)].
Qed.

Lemma split_bucket_within_capacity h (b : Bucket K V) (t : Table) :
  within_capacity t → heap_ t !! h = Some b → size_ b = bucket_size_ t →
  within_capacity (split_bucket hash h b t).
Proof.
  intros Hc Hb Hsz g bg.
  destruct (split_bucket_fields h b t) as (_ & _ & _ & _ & -> & _).
  pose proof (Hc h b Hb) as Hlen.
  destruct (repartition_fields (Z.shiftl 1 (depth_ b)) (cell_ b)
              (mkBucket (bucket_size_ t) (depth_ b + 1) [])
              (mkBucket (bucket_size_ t) (depth_ b + 1) []))
    as (Hs1 & _ & Hs2 & _).
  destruct (repartition_length (Z.shiftl 1 (depth_ b)) (cell_ b)
              (mkBucket (bucket_size_ t) (depth_ b + 1) [])
              (mkBucket (bucket_size_ t) (depth_ b + 1) []))
    as [Hl1 Hl2]; cbn [cell_ size_ length]; [lia | lia |].
  cbn in Hs1, Hs2, Hl1, Hl2.
  rewrite !lookup_insert_Some, lookup_delete_Some.
  intros [[<- <-] | [_ [[<- <-] | (_ & _ & Hg)]]].
  - by rewrite Hs2.
  - by rewrite Hs1.
  - by apply (Hc g).
Qed.

Lemma split_loop_within_capacity fuel key (t t' : Table) :
  dir_inv t → within_capacity t → split_loop hash fuel key t = Some t' →
  within_capacity t'.
Proof.
  revert t. induction fuel as [|n IH]; intros t Hinv Hc; cbn.
  - destruct (target hash t key) as [hb|]; [|done]. cbn.
    destruct (IsFull hb.2); [done | by intros [= <-]].
  - destruct (target hash t key) as [[h b]|] eqn:Ht; [|done]. cbn.
    destruct (IsFull b); [| by intros [= <-]].
    destruct (overflow_iteration hash key t) as [t1|] eqn:Ho; [|done]. cbn.
    apply IH; [by apply (overflow_iteration_inv key t)|].
    revert Ho. unfold overflow_iteration. rewrite Ht. cbn.
    apply target_Some in Ht as [_ Hb].
    destruct (inv_heap t Hinv h b Hb) as [_ Hsz].
    destruct (GetDepth b =? global_depth_ t).
    + destruct (double_dir t) as [t0|] eqn:Hdd; [|done]. cbn. intros [= <-].
      destruct (double_dir_fields t t0 Hdd) as (_ & _ & Hbs & _ & _ & Hh1 & _).
      apply split_bucket_within_capacity; [| by rewrite Hh1 | congruence].
      intros g bg. rewrite Hh1. apply Hc.
    + cbn. intros [= <-]. by apply split_bucket_within_capacity.
Qed.

Lemma overwrite_length key value (l l' : list (K * V)) :
  overwrite key value l = Some l' → length l' = length l.
Proof.
  intros Ho. apply overwrite_keys in Ho.
  apply (f_equal length) in Ho. by rewrite !length_fmap in Ho.
Qed.

Lemma Insert_within_capacity fuel key value (t t' : Table) :
  dir_inv t → within_capacity t → Insert hash fuel key value t = Some t' →
  within_capacity t'.
Proof.
  intros Hinv Hc. unfold Insert.
  destruct (split_loop hash fuel key t) as [t1|] eqn:Hl; [|done]. cbn.
  pose proof (split_loop_within_capacity fuel key t t1 Hinv Hc Hl) as Hc1.
  destruct (target hash t1 key) as [[h b]|] eqn:Ht; [|done]. cbn.
  apply target_Some in Ht as [_ Hb]. pose proof (Hc1 h b Hb) as Hlen.
  destruct (overwrite key value (GetItems b)) as [l|] eqn:Ho; intros [= <-];
    apply set_bucket_within_capacity; try done.
  - cbn. by rewrite (overwrite_length _ _ _ _ Ho).
  - unfold Bucket_Insert.
    destruct (Z.leb_spec (size_ b) (Z.of_nat (length (cell_ b)))); cbn; [done|].
    rewrite length_app. cbn. lia.
Qed.

Lemma Remove_within_capacity key found (t t' : Table) :
  within_capacity t → Remove hash key t = Some (found, t') → within_capacity t'.
Proof.
  intros Hc. unfold Remove.
  destruct (target hash t key) as [[h b]|] eqn:Ht; [|done]. cbn.
  apply target_Some in Ht as [_ Hb]. pose proof (Hc h b Hb) as Hlen.
  unfold Bucket_Remove. destruct (erase_first key (cell_ b)) as [l|] eqn:He;
    intros [= <- <-]; apply set_bucket_within_capacity; try done.
  cbn. apply erase_first_sublist, sublist_length in He. lia.
Qed.

Lemma reachable_within_capacity bs (t : Table) :
  0 <= bs → reachable hash bs t → within_capacity t.
Proof.
  intros Hbs.
  induction 1 as [| t fuel key value t' Hr IH HI | t key found t' _ IH HR | ]; [| | |done].
  - intros h b Hb. cbn in Hb. apply lookup_singleton_Some in Hb as [<- <-]. done.
  - apply (Insert_within_capacity fuel key value t); [|done..].
    by apply (reachable_inv bs).
  - by apply (Remove_within_capacity key found t).
Qed.

Lemma find_app_absent key value (l : list (K * V)) :
  find (has_key key) l = None →
  find (has_key key) (l ++ [(key, value)]) = Some (key, value).
Proof.
  induction l as [|x l IH]; cbn.
  - intros _. unfold has_key. cbn. by rewrite bool_decide_eq_true_2.
  - destruct (has_key key x); [done | apply IH].
Qed.

Lemma overwrite_None_find key value (l : list (K * V)) :
  overwrite key value l = None → find (has_key key) l = None.
Proof. intros Ho%overwrite_None. by apply find_has_key_None. Qed.

Lemma overwrite_Some key value (l l' : list (K * V)) :
  overwrite key value l = Some l' →
  snd <$> find (has_key key) l' = Some value.
Proof.
  revert l'. induction l as [|x l IH]; intros l'; cbn; [done|].
  destruct (has_key key x) eqn:Hx.
  - intros [= <-]. cbn. unfold has_key in *. cbn. by rewrite Hx.
  - destruct (overwrite key value l) as [l0|]; [|done]. cbn. intros [= <-].
    cbn. rewrite Hx. by apply IH.
Qed.

(** After [Insert(key, value)] has returned, [Find(key)] yields [value]:
    the upsert law, whether or not the table was restructured. *)
Lemma Insert_Find bs fuel key value (t t' : Table) :
  0 <= bs → reachable hash bs t →
  Insert hash fuel key value t = Some t' →
  Find hash key t' = Some (Some value).
Proof.
  intros Hbs Hr. pose proof (reachable_inv bs t Hr) as Hinv.
  pose proof (reachable_within_capacity bs t Hbs Hr) as Hc.
  unfold Insert.
  destruct (split_loop hash fuel key t) as [t1|] eqn:Hl; [|done]. cbn.
  pose proof (split_loop_within_capacity fuel key t t1 Hinv Hc Hl) as Hc1.
  destruct (split_loop_exit fuel key t t1 Hl) as (h & b & Ht & Hnf).
  rewrite Ht. cbn. pose proof Ht as [Hd Hb]%target_Some.
  pose proof (Hc1 h b Hb) as Hlen.
  assert (Hfind : ∀ b', snd <$> find (has_key key) (cell_ b') = Some value →
     Find hash key (set_bucket h b' t1) = Some (Some value)).
  { intros b' Hf. unfold Find, target, bucket_at, IndexOf in *. cbn. rewrite Hd. cbn.
    rewrite lookup_insert_eq. cbn. unfold Bucket_Find. by rewrite Hf. }
  unfold GetItems.
  destruct (overwrite key value (cell_ b)) as [l|] eqn:Ho; intros [= <-]; apply Hfind.
  - cbn. by apply (overwrite_Some key value (cell_ b)).
  - unfold Bucket_Insert. unfold IsFull in Hnf. apply Z.eqb_neq in Hnf.
    rewrite (proj2 (Z.leb_gt _ _)) by lia. cbn.
    by rewrite (find_app_absent key value _ (overwrite_None_find _ _ _ Ho)).
Qed.

(** *** A loop that cannot end *)

Lemma filter_all {A} (P : A → Prop) `{∀ x, Decision (P x)} (l : list A) :
  (∀ x, x ∈ l → P x) → filter P l = l.
Proof.
  induction l as [|x l IH]; intros Hall; [done|].
  rewrite filter_cons, decide_True by (apply Hall; by left).
  f_equal. apply IH. intros y Hy. apply Hall. by right.
Qed.

Lemma land_mod_pow2 a d n :
  0 <= d < n → Z.land (a mod 2 ^ n) (2 ^ d) = Z.land a (2 ^ d).
Proof.
  intros Hdn. apply Z.bits_inj'. intros i Hi.
  rewrite !Z.land_spec, !Z.pow2_bits_eqb by lia.
  destruct (Z.eqb_spec d i) as [<- | Hne]; [|by rewrite !andb_false_r].
  by rewrite Z.mod_pow2_bits_low by lia.
Qed.

(** The iteration leaves such a table as it found it: the entries all move
    to the bucket that becomes the target. *)
Lemma overflow_iteration_stuck key (t t' : Table) :
  dir_inv t → stuck hash key t → overflow_iteration hash key t = Some t' →
  stuck hash key t'.
Proof.
  intros Hinv (h & b & Ht & Hfull & Hall) Ho.
  pose proof Ht as [Hdir Hb]%target_Some.
  pose proof Hinv as [Hd Hlen Hhp Hslot].
  destruct (Hslot _ _ Hdir) as (_ & b' & Hb' & Hdb & _).
  rewrite Hb in Hb'. injection Hb' as <-.
  destruct (Hhp _ _ Hb) as [_ Hsz].
  assert (Hgd : depth_ b = global_depth_ t → global_depth_ t < 30).
  { intros He. revert Ho. unfold overflow_iteration, double_dir. rewrite Ht. cbn.
    unfold GetDepth. rewrite (proj2 (Z.eqb_eq _ _) He).
    destruct (Z.leb_spec 30 (global_depth_ t)); [done | by intros _]. }
  destruct (overflow_iteration_fields t key h b Hinv Ht Hfull Hgd)
    as (t1 & zero & one & zb & ob & Ho1 & Hgd1 & _ & Hgrow & _ & _ & _ & _ & _
        & Hz & Hone & _ & _ & Hcz & Hco & Hdir1 & _ & Hbs1 & Hsz1 & Hso1).
  rewrite Ho in Ho1. injection Ho1 as <-.
  set (m := 2 ^ depth_ b) in *.
  cbv zeta in *.
  (* the slot of [key] in the new directory still held the old bucket *)
  assert (Hidx : IndexOf hash t key = hash key mod 2 ^ global_depth_ t)
    by (by apply IndexOf_mod).
  assert (Hgd1' : 0 <= global_depth_ t') by (rewrite Hgd1; case_bool_decide; lia).
  assert (Hidx' : IndexOf hash t' key = hash key mod 2 ^ global_depth_ t')
    by (by apply IndexOf_mod).
  pose proof (Z.mod_pos_bound (hash key) (2 ^ global_depth_ t) ltac:(lia)) as Hr0.
  assert (Hlt : depth_ b < global_depth_ t').
  { rewrite Hgd1. case_bool_decide; lia. }
  assert (Hslot' : (if bool_decide (depth_ b = global_depth_ t)
                    then dir_ t ++ dir_ t else dir_ t)
                   !! Z.to_nat (IndexOf hash t' key) = Some h).
  { rewrite Hidx', Hgd1. clear Hdir1.
    destruct (bool_decide (depth_ b = global_depth_ t)) eqn:Hdb'.
    - rewrite mod_pow2_succ by done.
      rewrite Hidx in Hdir.
      destruct (Z.testbit (hash key) (global_depth_ t)); cbn [Z.b2z].
      + replace (Z.to_nat (hash key mod 2 ^ global_depth_ t + 2 ^ global_depth_ t * 1))
          with (Z.to_nat (hash key mod 2 ^ global_depth_ t) + length (dir_ t))%nat
          by lia.
        destruct (Hgrow eq_refl (Z.to_nat (hash key mod 2 ^ global_depth_ t)))
          as [Hg1 _]; [lia|].
        by rewrite Hg1.
      + rewrite Z.mul_0_r, Z.add_0_r. apply lookup_app_l_Some. done.
    - by rewrite <- Hidx. }
  pose proof (Hdir1 _ _ Hslot') as Hnew. rewrite decide_True in Hnew by done.
  assert (Hbit : Z.land (Z.of_nat (Z.to_nat (IndexOf hash t' key))) m
                 = Z.land (hash key) m).
  { rewrite Z2Nat.id by (rewrite Hidx'; apply Z.mod_pos_bound; lia).
    rewrite Hidx'. apply land_mod_pow2. lia. }
  rewrite Hbit in Hnew.
  assert (Hfull' : ∀ c : list (K * V), c = cell_ b → ∀ sz, sz = bucket_size_ t →
            (Z.of_nat (length c) =? sz) = true).
  { intros c -> sz ->. rewrite <- Hsz. exact Hfull. }
  destruct (decide (Z.land (hash key) m = 0)) as [He | Hn].
  - exists zero, zb. split_and!.
    + unfold target, bucket_at. rewrite Hnew. cbn. by rewrite Hz.
    + unfold IsFull. apply Hfull'; [|done]. rewrite Hcz. apply filter_all.
      intros kv Hkv. cbn. by rewrite (Hall kv Hkv).
    + intros kv. rewrite Hcz. intros [_ Hkv]%list_elem_of_filter. by apply Hall.
  - exists one, ob. split_and!.
    + unfold target, bucket_at. rewrite Hnew. cbn. by rewrite Hone.
    + unfold IsFull. apply Hfull'; [|done]. rewrite Hco. apply filter_all.
      intros kv Hkv. cbn. by rewrite (Hall kv Hkv).
    + intros kv. rewrite Hco. intros [_ Hkv]%list_elem_of_filter. by apply Hall.
Qed.

(** On such a table the loop of Insert has no exit: whatever the number of
    iterations allowed, it is still running, or it has doubled the directory
    beyond the depth that the [int] masks support. *)
Lemma split_loop_stuck fuel key (t : Table) :
  dir_inv t → stuck hash key t → split_loop hash fuel key t = None.
Proof.
  revert t. induction fuel as [|n IH]; intros t Hinv Hst.
  - destruct Hst as (h & b & Ht & Hfull & _). cbn. rewrite Ht. cbn. by rewrite Hfull.
  - pose proof Hst as (h & b & Ht & Hfull & _). cbn. rewrite Ht. cbn. rewrite Hfull.
    destruct (overflow_iteration hash key t) as [t1|] eqn:Ho; [|done]. cbn.
    apply IH.
    + by apply (overflow_iteration_inv key t).
    + by apply (overflow_iteration_stuck key t).
Qed.

Lemma Insert_stuck fuel key value (t : Table) :
  dir_inv t → stuck hash key t → Insert hash fuel key value t = None.
Proof.
  intros Hinv Hst. unfold Insert. by rewrite split_loop_stuck.
Qed.

Lemma split_loop_bucket_size fuel key (t t' : Table) :
  split_loop hash fuel key t = Some t' → bucket_size_ t' = bucket_size_ t.
Proof.
  revert t. induction fuel as [|n IH]; intros t; cbn.
  - destruct (target hash t key) as [hb|]; [|done]. cbn.
    destruct (IsFull hb.2); [done | by intros [= <-]].
  - destruct (target hash t key) as [[h b]|] eqn:Ht; [|done]. cbn.
    destruct (IsFull b); [| by intros [= <-]].
    unfold overflow_iteration. rewrite Ht. cbn.
    destruct (GetDepth b =? global_depth_ t).
    + destruct (double_dir t) as [t1|] eqn:Hdd; [|done]. cbn.
      destruct (double_dir_fields t t1 Hdd) as (_ & _ & Hbs & _).
      intros Hl%IH. rewrite Hl.
      destruct (split_bucket_fields h b t1) as (_ & -> & _). done.
    + cbn. intros Hl%IH. rewrite Hl.
      by destruct (split_bucket_fields h b t) as (_ & -> & _).
Qed.

Lemma reachable_bucket_size bs (t : Table) :
  reachable hash bs t → bucket_size_ t = bs.
Proof.
  induction 1 as [| t fuel key value t' _ IH HI | t key found t' _ IH HR | ];
    [done | | | done].
  - revert HI. unfold Insert.
    destruct (split_loop hash fuel key t) as [t1|] eqn:Hl; [|done]. cbn.
    apply split_loop_bucket_size in Hl.
    destruct (target hash t1 key) as [hb|]; [|done]. cbn.
    destruct (overwrite _ _ _); intros [= <-]; cbn; congruence.
  - revert HR. unfold Remove.
    destruct (target hash t key) as [hb|]; [|done]. cbn.
    destruct (Bucket_Remove key hb.2). by intros [= _ <-].
Qed.

(** With buckets of one entry, Insert of a key that is present never
    returns. *)
Lemma Insert_present_never_returns key value (t : Table) v0 :
  reachable hash 1 t → Find hash key t = Some (Some v0) →
  ∀ fuel', Insert hash fuel' key value t = None.
Proof.
  intros Hr HF fuel'. pose proof (reachable_inv 1 t Hr) as Hinv.
  pose proof (reachable_within_capacity 1 t ltac:(lia) Hr) as Hc.
  pose proof (reachable_bucket_size 1 t Hr) as Hbs.
  apply Insert_stuck; [done|].
  unfold Find in HF. destruct (target hash t key) as [[h b]|] eqn:Ht; [|done].
  cbn in HF. injection HF as HF. pose proof Ht as [_ Hb]%target_Some.
  destruct (inv_heap t Hinv h b Hb) as [_ Hsz]. pose proof (Hc h b Hb) as Hlen.
  rewrite Hsz, Hbs in Hlen.
  unfold Bucket_Find in HF.
  destruct (find (has_key key) (cell_ b)) as [x|] eqn:Hfx; [|done].
  apply find_some in Hfx as [Hin Hx]. apply bool_decide_eq_true in Hx.
  destruct (cell_ b) as [|y [|z l]] eqn:Hcell; cbn in Hin, Hlen; [done | | lia].
  destruct Hin as [-> | []].
  exists h, b. split; [done|]. split.
  - unfold IsFull. rewrite Hcell, Hsz, Hbs. done.
  - rewrite Hcell. intros kv ->%list_elem_of_singleton. by rewrite Hx.
Qed.

End Facts.

(** *** Examples *)

Section Examples.
Import Examples.

Lemma reachable_tbl2 : reachable std_hash_int 2 tbl2.
Proof.
  apply (reachable_Insert _ _ tbl1 1%nat 1 101); [|vm_compute; reflexivity].
  apply (reachable_Insert _ _ tbl0 1%nat 0 100); [|vm_compute; reflexivity].
  apply reachable_new.
Defined.

Lemma reachable_tbl3 : reachable std_hash_int 2 tbl3.
Proof.
  apply (reachable_Insert _ _ tbl2 1%nat 0 102); [|vm_compute; reflexivity].
  apply reachable_tbl2.
Defined.

(** Slots 0 and 1 of [tbl3] hold different buckets of local depth 1. *)
Lemma directory_slots_share_by_low_bits_witness :
  ∃ bi, heap_ tbl3 !! 1%nat = Some bi ∧
        GetLocalDepth tbl3 0 = Some (depth_ bi) ∧
        depth_ bi <= GetGlobalDepth tbl3 ∧
        (1%nat = 2%nat ↔ Z.of_nat 0 mod 2 ^ depth_ bi = Z.of_nat 1 mod 2 ^ depth_ bi).
Proof.
  apply (directory_slots_share_by_low_bits std_hash_int 2 tbl3 0 1 1 2).
  - apply reachable_tbl3.
  - reflexivity.
  - reflexivity.
Defined.


(** In [tbl_one] the bucket of key 0 is full: [Insert(0, 102)] does not
    return, whatever the number of iterations allowed. *)
Lemma Insert_present_never_returns_example fuel :
  Find std_hash_int 0 tbl_one = Some (Some 100) ∧
  Insert std_hash_int fuel 0 102 tbl_one = None.
Proof.
  split; [vm_compute; reflexivity|].
  apply (Insert_present_never_returns std_hash_int 0 102 tbl_one 100).
  - apply (reachable_Insert _ _ (new_table 1) 0%nat 0 100); [apply reachable_new|].
    vm_compute. reflexivity.
  - vm_compute. reflexivity.
Qed.

(** C4 (defect of the code).  Claim: Insert of a key that is present
    overwrites the value and returns without restructuring.  The loop of
    Insert tests the fullness of the target bucket before the key is looked
    up: in [tbl2] the only bucket is full and holds key 0, and
    [Insert(0, 102)] doubles the directory and splits the bucket before it
    overwrites the value. *)
Theorem Insert_present_key_splits_full_bucket :
  Find std_hash_int 0 tbl2 = Some (Some 100) ∧
  shape tbl2 = (0, 1%nat, 1) ∧
  Insert std_hash_int 1 0 102 tbl2 = Some tbl3 ∧
  Find std_hash_int 0 tbl3 = Some (Some 102) ∧
  shape tbl3 = (1, 2%nat, 2).
Proof. vm_compute. split_and!; reflexivity. Qed.

End Examples.

End EHTFacts.

(** * Properties of the buffer pool manager *)

Module BPMFacts.
Import MachineInt Replacer ReplacerFacts EHTFacts BPM.
Local Open Scope Z_scope.

Ltac simpl_bpm :=
  cbn [pool_size_ next_page_id_ pages_ disk_manager_ page_table_ replacer_
       free_list_] in *.

Section Facts.
Context (hash : Z → Z).
Abbreviation State := BufferPoolManagerInstance.

(** *** Frames of the array *)

Lemma page_at_Some (s : State) f page :
  page_at s f = Some page → 0 <= f ∧ pages_ s !! Z.to_nat f = Some page.
Proof.
  unfold page_at. destruct (Z.ltb_spec f 0); [done|]. by intros ->.
Qed.

Lemma page_at_insert pool nid (pages : list Page) disk pt r fl f g p :
  0 <= f →
  page_at (mkBPM pool nid (<[Z.to_nat f := p]> pages) disk pt r fl) g =
    if decide (g = f)
    then (if decide (Z.to_nat f < length pages)%nat then Some p else None)
    else page_at (mkBPM pool nid pages disk pt r fl) g.
Proof.
  intros Hf. unfold page_at. cbn.
  destruct (decide (g = f)) as [-> | Hne].
  - rewrite (proj2 (Z.ltb_ge _ _)) by done.
    destruct (decide (Z.to_nat f < length pages)%nat) as [Hlt | Hge].
    + by apply list_lookup_insert_eq.
    + rewrite list_insert_ge by lia. apply lookup_ge_None. lia.
  - destruct (Z.ltb_spec g 0); [done|].
    apply list_lookup_insert_ne. lia.
Qed.

(** The frames after an update at [f]: the updated frame, or an old one. *)
Lemma page_at_insert_inv pool nid (pages : list Page) disk pt r fl f g p pg :
  0 <= f →
  page_at (mkBPM pool nid (<[Z.to_nat f := p]> pages) disk pt r fl) g = Some pg →
  (g = f ∧ pg = p) ∨ (g ≠ f ∧ page_at (mkBPM pool nid pages disk pt r fl) g = Some pg).
Proof.
  intros Hf. rewrite page_at_insert by done.
  destruct (decide (g = f)) as [-> | Hne]; [|by right].
  destruct (decide _); [|done]. intros [= <-]. by left.
Qed.

(** *** A pinned frame is not evictable *)

Lemma acquire_frame_pinned (s s1 : State) fr :
  pinned_not_evictable s → acquire_frame hash s = Some (fr, s1) →
  pinned_not_evictable s1.
Proof.
  intros Hinv. unfold acquire_frame.
  destruct (free_list_ s) as [|frame rest].
  - destruct (Evict (replacer_ s)) as [[ok frame] r1] eqn:HE.
    destruct ok; cbn [negb].
    + destruct (Evict_true _ _ _ HE) as (_ & _ & _ & Hfl & _).
      destruct (page_at s frame) as [victim|] eqn:Hv; [|done]. cbn.
      apply page_at_Some in Hv as [Hf0 Hv].
      case_bool_decide.
      * destruct (EHT.Remove hash _ _) as [rm|]; [|done]. cbn. intros [= <- <-].
        intros g pg Hg Hpin. unfold evictable. cbn. rewrite Hfl.
        assert (∃ pg0, page_at s g = Some pg0 ∧ pin_count_ pg0 = pin_count_ pg)
          as (pg0 & Hg0 & Hp0).
        { apply page_at_insert_inv in Hg as [[-> ->] | [_ Hg]]; [| | done].
          - exists victim. unfold page_at. rewrite (proj2 (Z.ltb_ge _ _)) by done.
            split; [done|]. by destruct (is_dirty_ victim).
          - by exists pg. }
        intros [x Hx]. apply lookup_delete_Some in Hx as [_ Hx].
        apply lookup_delete_Some in Hx as [_ Hx].
        apply (Hinv g pg0 Hg0); [lia | by eexists].
      * intros [= <- <-]. intros g pg Hg Hpin [x Hx]. cbn in Hx.
        rewrite Hfl in Hx. apply lookup_delete_Some in Hx as [_ Hx].
        apply (Hinv g pg Hg Hpin). by eexists.
    + apply Evict_false in HE as [_ ->]. intros [= <- <-]. exact Hinv.
  - intros [= <- <-]. exact Hinv.
Qed.

Lemma install_pinned fuel frame pid data nid (s s' : State) :
  pinned_not_evictable s → install hash fuel frame pid data nid s = Some s' →
  pinned_not_evictable s'.
Proof.
  intros Hinv. unfold install.
  destruct (page_at s frame) as [p0|] eqn:Hp; [|done]. cbn.
  apply page_at_Some in Hp as [Hf0 _].
  destruct (EHT.Insert hash fuel pid frame _) as [pt|]; [|done]. cbn.
  intros [= <-]. intros g pg Hg Hpin [x Hx]. cbn in Hx.
  rewrite RecordAccess_evict_flag in Hx.
  apply lookup_delete_Some in Hx as [Hne Hx].
  apply page_at_insert_inv in Hg as [[-> _] | [_ Hg]]; [done | | done].
  apply (Hinv g pg Hg Hpin). by eexists.
Qed.

Lemma NewPgImp_pinned fuel (s s' : State) res :
  pinned_not_evictable s → NewPgImp hash fuel s = Some (res, s') →
  pinned_not_evictable s'.
Proof.
  intros Hinv. unfold NewPgImp.
  destruct (acquire_frame hash s) as [[fr s1]|] eqn:Ha; [|done]. cbn.
  pose proof (acquire_frame_pinned s s1 fr Hinv Ha) as Hinv1.
  destruct fr as [frame|]; [| by intros [= <- <-]].
  destruct (install _ _ _ _ _ _ _) as [s2|] eqn:Hi; [|done]. cbn.
  intros [= <- <-]. by apply (install_pinned _ _ _ _ _ _ _ Hinv1 Hi).
Qed.

Lemma FetchPgImp_pinned fuel pid (s s' : State) res :
  pinned_not_evictable s → FetchPgImp hash fuel pid s = Some (res, s') →
  pinned_not_evictable s'.
Proof.
  intros Hinv. unfold FetchPgImp.
  destruct (EHT.Find hash pid _) as [[frame|]|]; [| |done]; cbn.
  - destruct (page_at s frame) as [page|] eqn:Hp; [|done]. cbn.
    apply page_at_Some in Hp as [Hf0 _].
    case_bool_decide; [done|]. intros [= <- <-].
    intros g pg Hg Hpin [x Hx]. cbn in Hx.
    rewrite RecordAccess_evict_flag in Hx.
    apply lookup_delete_Some in Hx as [Hne Hx].
    destruct s. apply page_at_insert_inv in Hg as [[-> _] | [_ Hg]]; [done | | done].
    apply (Hinv g pg Hg Hpin). by eexists.
  - destruct (acquire_frame hash s) as [[fr s1]|] eqn:Ha; [|done]. cbn.
    pose proof (acquire_frame_pinned s s1 fr Hinv Ha) as Hinv1.
    destruct fr as [frame|]; [| by intros [= <- <-]].
    destruct (install _ _ _ _ _ _ _) as [s2|] eqn:Hi; [|done]. cbn.
    intros [= <- <-]. by apply (install_pinned _ _ _ _ _ _ _ Hinv1 Hi).
Qed.

Lemma UnpinPgImp_pinned pid d (s s' : State) res :
  pinned_not_evictable s → UnpinPgImp hash pid d s = Some (res, s') →
  pinned_not_evictable s'.
Proof.
  intros Hinv. unfold UnpinPgImp.
  destruct (EHT.Find hash pid _) as [[frame|]|]; [| by intros [= <- <-] | done]; cbn.
  destruct (page_at s frame) as [page|] eqn:Hp; [|done]. cbn.
  pose proof Hp as [Hf0 _]%page_at_Some.
  destruct (Z.leb_spec (pin_count_ page) 0); [by intros [= <- <-]|].
  intros [= <- <-]. intros g pg Hg Hpin Hev. cbn in Hev.
  destruct s. apply page_at_insert_inv in Hg as [[-> ->] | [Hne Hg]]; [| | done].
  - cbn in Hpin. rewrite (proj2 (Z.eqb_neq _ _)) in Hev by lia.
    apply (Hinv frame page Hp); [lia | done].
  - apply (Hinv g pg Hg Hpin). cbn.
    destruct (_ =? 0); [|done].
    destruct Hev as [x Hx]. rewrite SetEvictable_true_flag in Hx.
    case_bool_decide; [|by eexists].
    rewrite lookup_insert_ne in Hx by done. by eexists.
Qed.

Lemma FlushPgImp_pinned pid (s s' : State) res :
  pinned_not_evictable s → FlushPgImp hash pid s = Some (res, s') →
  pinned_not_evictable s'.
Proof.
  intros Hinv. unfold FlushPgImp.
  destruct (EHT.Find hash pid _) as [[frame|]|]; [| by intros [= <- <-] | done]; cbn.
  destruct (page_at s frame) as [page|] eqn:Hp; [|done]. cbn.
  pose proof Hp as [Hf0 _]%page_at_Some.
  intros [= <- <-]. intros g pg Hg Hpin Hev. cbn in Hev.
  destruct s. apply page_at_insert_inv in Hg as [[-> ->] | [Hne Hg]]; [| | done].
  - by apply (Hinv frame page Hp).
  - by apply (Hinv g pg Hg Hpin).
Qed.

(** The loop of [FlushAllPgsImp] leaves [flushed] of every frame. *)
Lemma flush_frames_pages (pages acc : list Page) (d : DiskManager) :
  (foldl flush_frame (acc, d) pages).1 = acc ++ (flushed <$> pages).
Proof.
  revert acc d. induction pages as [|p pages IH]; intros acc d; cbn.
  { by rewrite app_nil_r. }
  unfold flush_frame at 2, flushed at 1. cbn.
  case_bool_decide; rewrite IH, <- app_assoc; done.
Qed.

Lemma FlushAllPgsImp_pages (s : State) :
  pages_ (FlushAllPgsImp s) = flushed <$> pages_ s.
Proof. unfold FlushAllPgsImp. cbn. by rewrite flush_frames_pages. Qed.

Lemma flushed_pin page : pin_count_ (flushed page) = pin_count_ page.
Proof. unfold flushed. by case_bool_decide. Qed.

Lemma FlushAllPgsImp_pinned (s : State) :
  pinned_not_evictable s → pinned_not_evictable (FlushAllPgsImp s).
Proof.
  intros Hinv g pg Hg Hpin. apply page_at_Some in Hg as [Hg0 Hg].
  rewrite FlushAllPgsImp_pages, list_lookup_fmap in Hg.
  destruct (pages_ s !! Z.to_nat g) as [pg0|] eqn:Hg'; [|done].
  injection Hg as <-. rewrite flushed_pin in Hpin.
  apply (Hinv g pg0); [|done].
  unfold page_at. by rewrite (proj2 (Z.ltb_ge _ _)) by done.
Qed.

Lemma DeletePgImp_pinned pid (s s' : State) res :
  pinned_not_evictable s → DeletePgImp hash pid s = Some (res, s') →
  pinned_not_evictable s'.
Proof.
  intros Hinv. unfold DeletePgImp.
  destruct (EHT.Find hash pid _) as [[frame|]|]; [| by intros [= <- <-] | done]; cbn.
  destruct (page_at s frame) as [page|] eqn:Hp; [|done]. cbn.
  pose proof Hp as [Hf0 _]%page_at_Some.
  destruct (0 <? pin_count_ page); [by intros [= <- <-]|].
  destruct (EHT.Remove hash pid _) as [rm|]; [|done]. cbn.
  intros [= <- <-]. intros g pg Hg Hpin [x Hx]. cbn in Hx.
  apply lookup_delete_Some in Hx as [Hne Hx].
  destruct s. apply page_at_insert_inv in Hg as [[-> ->] | [_ Hg]]; [done | | done].
  apply (Hinv g pg Hg Hpin). by eexists.
Qed.

Lemma write_data_pinned f data (s s' : State) :
  pinned_not_evictable s → write_data f data s = Some s' → pinned_not_evictable s'.
Proof.
  intros Hinv. unfold write_data.
  destruct (page_at s f) as [page|] eqn:Hp; [|done]. cbn.
  pose proof Hp as [Hf0 _]%page_at_Some.
  destruct (0 <? pin_count_ page); [|done]. intros [= <-] g pg Hg Hpin. cbn.
  destruct s. apply page_at_insert_inv in Hg as [[-> ->] | [_ Hg]];
    [| by apply (Hinv g pg) | done].
  by apply (Hinv f page).
Qed.

Lemma run_op_pinned o (s s' : State) :
  pinned_not_evictable s → run_op hash o s = Some s' → pinned_not_evictable s'.
Proof.
  intros Hinv. destruct o; cbn.
  - destruct (NewPgImp hash fuel s) as [[res s1]|] eqn:E; [|done].
    intros [= <-]. by apply (NewPgImp_pinned fuel s s1 res).
  - destruct (FetchPgImp hash fuel page_id s) as [[res s1]|] eqn:E; [|done].
    intros [= <-]. by apply (FetchPgImp_pinned fuel page_id s s1 res).
  - destruct (UnpinPgImp hash page_id is_dirty s) as [[res s1]|] eqn:E; [|done].
    intros [= <-]. by apply (UnpinPgImp_pinned page_id is_dirty s s1 res).
  - destruct (FlushPgImp hash page_id s) as [[res s1]|] eqn:E; [|done].
    intros [= <-]. by apply (FlushPgImp_pinned page_id s s1 res).
  - intros [= <-]. by apply FlushAllPgsImp_pinned.
  - destruct (DeletePgImp hash page_id s) as [[res s1]|] eqn:E; [|done].
    intros [= <-]. by apply (DeletePgImp_pinned page_id s s1 res).
  - by apply write_data_pinned.
Qed.

Lemma new_bpm_pinned pool k disk : pinned_not_evictable (new_bpm pool k disk).
Proof. intros f page _ _ [x Hx]. done. Qed.

(** C2.  After any sequence of NewPage, FetchPage, UnpinPage, FlushPage,
    FlushAllPages and DeletePage on a fresh buffer pool, every frame whose
    pin count is greater than 0 is not evictable in the replacer. *)
Theorem pinned_frames_are_not_evictable pool k disk (s : State) f page :
  reachable hash pool k disk s →
  page_at s f = Some page → pin_count_ page > 0 →
  evict_flag_ (replacer_ s) !! f = None.
Proof.
  intros Hr Hp Hpin.
  assert (Hinv : pinned_not_evictable s).
  { clear Hp Hpin. induction Hr as [| s o s' _ IH Hstep]; [apply new_bpm_pinned|].
    by apply (run_op_pinned o s). }
  destruct (evict_flag_ (replacer_ s) !! f) eqn:E; [|done].
  destruct (Hinv f page Hp); [lia | by eexists].
Qed.

#[local] Arguments SetEvictable : simpl never.
#[local] Arguments RecordAccess : simpl never.
#[local] Arguments Replacer.Remove : simpl never.
#[local] Arguments Evict : simpl never.
#[local] Arguments tick : simpl never.
#[local] Arguments zeroed : simpl never.
#[local] Arguments EHT.Insert : simpl never.
#[local] Arguments EHT.Remove : simpl never.
#[local] Arguments EHT.Find : simpl never.


(** *** The invariant of the manager *)

Lemma new_bpm_inv pool k disk :
  0 <= pool <= INT_MAX → bpm_inv (new_bpm pool k disk).
Proof.
  intros Hpool. split; cbn; try done.
  - rewrite length_replicate. lia.
  - intros f (i & -> & Hi)%list_elem_of_fmap. apply elem_of_seqZ in Hi.
    unfold in_pool. cbn. rewrite static_cast_int_small by lia. lia.
  - apply dir_inv_new.
  - apply keys_nodup_new.
  - apply values_in_new.
  - intros f [[x Hx] | [x Hx]]; done.
  - intros f page [_ Hp]%page_at_Some. cbn in Hp.
    apply lookup_replicate in Hp as [-> _]. cbn. lia.
Qed.

Lemma page_at_in_pool (s : BufferPoolManagerInstance) f :
  bpm_inv s → in_pool s f → is_Some (page_at s f).
Proof.
  intros Hinv [H0 Hlt]. unfold page_at. rewrite (proj2 (Z.ltb_ge _ _)) by done.
  apply lookup_lt_is_Some. pose proof (bi_pages s Hinv). lia.
Qed.

Lemma cast_size (s : BufferPoolManagerInstance) :
  bpm_inv s → static_cast_int (replacer_size_ (replacer_ s)) = pool_size_ s.
Proof.
  intros Hinv. rewrite (bi_rsize s Hinv). apply static_cast_int_small.
  apply (bi_pool s Hinv).
Qed.

Lemma acquire_frame_inv (s s1 : BufferPoolManagerInstance) fr :
  bpm_inv s → acquire_frame hash s = Some (fr, s1) →
  bpm_inv s1 ∧ pool_size_ s1 = pool_size_ s ∧
  ∀ frame, fr = Some frame → in_pool s frame.
Proof.
  intros Hinv. pose proof Hinv as [Hpool Hpages Hrs Hfree Htab Hkeys Hvals Htr Hpin].
  unfold acquire_frame.
  destruct (free_list_ s) as [|frame rest] eqn:Hfl.
  - destruct (Evict (replacer_ s)) as [[ok frame] r1] eqn:HE.
    destruct ok; cbn [negb].
    + destruct (Evict_true _ _ _ HE) as (Htf & Hsz & _ & Hflag & Hsub & Hkeep).
      pose proof (Htr _ Htf) as Hin.
      assert (Hev : evictable (replacer_ s) frame).
      { destruct (Evict_true_flagged _ _ _ HE) as [? | ->]; [done|].
        destruct Hin. lia. }
      destruct (page_at s frame) as [victim|] eqn:Hv; [|done]. cbn.
      assert (Hvpin : pin_count_ victim <= 0).
      { destruct (Z.le_gt_cases (pin_count_ victim) 0) as [? | Hgt]; [done|].
        destruct (Hpin _ _ Hv) as [_ Hne]; [lia | done]. }
      pose proof Hv as [Hf0 Hv']%page_at_Some.
      case_bool_decide.
      * destruct (EHT.Remove hash _ _) as [[found pt]|] eqn:Hrm; [|done]. cbn.
        intros [= <- <-]. split; [|split; [done | by intros ? [= <-]]].
        split; cbn; try done.
        -- by rewrite length_insert.
        -- rewrite Remove_size. congruence.
        -- eapply Remove_inv; [exact Htab | exact Hrm].
        -- eapply Remove_keys_nodup; [exact Hkeys | exact Hrm].
        -- eapply Remove_values_in; [exact Hvals | exact Hrm].
        -- intros g [Hg _]%Remove_tracked. apply Htr. by apply Hsub.
        -- intros g pg Hg Hgp. destruct s as [ps nid pages disk tbl r fl]. cbn in *.
           apply page_at_insert_inv in Hg as [[-> ->] | [Hne Hg]]; [| | done].
           { destruct (is_dirty_ victim); cbn in Hgp; lia. }
           destruct (Hpin _ _ Hg Hgp) as [Hgt Hge]. split.
           ++ apply Remove_tracked. split; [|exact Hne]. apply Hkeep; [exact Hne | exact Hgt].
           ++ intros [x Hx]. cbn in Hx. rewrite Remove_evict_flag, Hflag in Hx.
              apply lookup_delete_Some in Hx as [_ Hx].
              apply lookup_delete_Some in Hx as [_ Hx]. apply Hge. by eexists.
      * intros [= <- <-]. split; [|split; [done | by intros ? [= <-]]].
        split; cbn; try done.
        -- congruence.
        -- intros g Hg. rewrite Hfl in Hg. by apply elem_of_nil in Hg.
        -- intros g Hg. apply Htr. by apply Hsub.
        -- intros g pg Hg Hgp. change (page_at s g = Some pg) in Hg.
           destruct (Hpin _ _ Hg Hgp) as [Hgt Hge].
           assert (g ≠ frame).
           { intros ->. rewrite Hv in Hg. injection Hg as <-. lia. }
           split; [by apply Hkeep|].
           intros [x Hx]. rewrite Hflag in Hx.
           apply lookup_delete_Some in Hx as [_ Hx]. apply Hge. by eexists.
    + apply Evict_false in HE as [_ ->]. intros [= <- <-].
      split; [|split; [done | done]].
      split; cbn; try done.
      intros g Hg. rewrite Hfl in Hg. by apply elem_of_nil in Hg.
  - intros [= <- <-]. split; [|split; [done|]].
    + split; cbn; try done. intros f Hf. apply Hfree. by right.
    + intros ? [= <-]. apply Hfree. by left.
Qed.

Lemma install_inv fuel frame pid data nid (s s' : BufferPoolManagerInstance) :
  bpm_inv s → in_pool s frame →
  install hash fuel frame pid data nid s = Some s' → bpm_inv s'.
Proof.
  intros Hinv Hin. pose proof (cast_size s Hinv) as Hcast.
  pose proof Hinv as [Hpool Hpages Hrs Hfree Htab Hkeys Hvals Htr Hpin].
  unfold install.
  destruct (page_at s frame) as [p0|] eqn:Hp; [|done]. cbn.
  pose proof Hp as [Hf0 _]%page_at_Some.
  destruct (EHT.Insert hash fuel pid frame _) as [pt|] eqn:HI; [|done]. cbn.
  intros [= <-]. split; unfold in_pool in *; simpl_bpm; try done.
  - by rewrite length_insert.
  - by rewrite SetEvictable_size, RecordAccess_size.
  - eapply Insert_inv; [exact Htab | exact HI].
  - eapply Insert_keys_nodup; [exact Hkeys | exact HI].
  - eapply (Insert_values_in hash _ fuel pid frame); [exact Hvals | exact Hin | exact HI].
  - intros g [Hg | [-> _]]%SetEvictable_tracked%RecordAccess_tracked;
      [by apply Htr | done].
  - intros g pg Hg Hgp. destruct s as [ps nid0 pages disk tbl r fl]. simpl_bpm.
    apply page_at_insert_inv in Hg as [[-> ->] | [Hne Hg]]; [| | done].
    + split.
      * apply SetEvictable_tracked, RecordAccess_tracked. right.
        split; [done|]. rewrite Hcast. apply Hin.
      * intros [x Hx]. cbn in Hx.
        by rewrite SetEvictable_false_flag, lookup_delete_eq in Hx.
    + destruct (Hpin _ _ Hg Hgp) as [Hgt Hge]. split.
      * apply SetEvictable_tracked, RecordAccess_tracked. by left.
      * intros [x Hx]. cbn in Hx.
        rewrite SetEvictable_false_flag, RecordAccess_evict_flag in Hx.
        apply lookup_delete_Some in Hx as [_ Hx]. apply Hge. by eexists.
Qed.

Lemma NewPgImp_inv fuel (s s' : BufferPoolManagerInstance) res :
  bpm_inv s → NewPgImp hash fuel s = Some (res, s') → bpm_inv s'.
Proof.
  intros Hinv. unfold NewPgImp.
  destruct (acquire_frame hash s) as [[fr s1]|] eqn:Ha; [|done]. cbn.
  destruct (acquire_frame_inv s s1 fr Hinv Ha) as (Hinv1 & Hps & Hfr).
  destruct fr as [frame|]; [| by intros [= <- <-]].
  destruct (install _ _ _ _ _ _ _) as [s2|] eqn:Hi; [|done]. cbn.
  intros [= <- <-]. eapply install_inv; [exact Hinv1 | | exact Hi].
  unfold in_pool. rewrite Hps. by apply Hfr.
Qed.

Lemma FetchPgImp_inv fuel pid (s s' : BufferPoolManagerInstance) res :
  bpm_inv s → FetchPgImp hash fuel pid s = Some (res, s') → bpm_inv s'.
Proof.
  intros Hinv. pose proof (cast_size s Hinv) as Hcast.
  pose proof Hinv as [Hpool Hpages Hrs Hfree Htab Hkeys Hvals Htr Hpin].
  unfold FetchPgImp.
  destruct (EHT.Find hash pid _) as [[frame|]|] eqn:HF; [| |done]; cbn.
  - pose proof (Find_values_in hash _ _ _ _ Hvals HF) as Hin.
    destruct (page_at s frame) as [page|] eqn:Hp; [|done]. cbn.
    pose proof Hp as [Hf0 _]%page_at_Some.
    case_bool_decide; [done|]. intros [= <- <-].
    split; unfold in_pool in *; simpl_bpm; try done.
    + by rewrite length_insert.
    + by rewrite SetEvictable_size, RecordAccess_size.
    + intros g [Hg | [-> _]]%SetEvictable_tracked%RecordAccess_tracked;
        [by apply Htr | done].
    + intros g pg Hg Hgp. destruct s as [ps nid0 pages disk tbl r fl]. simpl_bpm.
      apply page_at_insert_inv in Hg as [[-> ->] | [Hne Hg]]; [| | done].
      * split.
        -- apply SetEvictable_tracked, RecordAccess_tracked. right.
           split; [done|]. rewrite Hcast. apply Hin.
        -- intros [x Hx]. cbn in Hx.
           by rewrite SetEvictable_false_flag, lookup_delete_eq in Hx.
      * destruct (Hpin _ _ Hg Hgp) as [Hgt Hge]. split.
        -- apply SetEvictable_tracked, RecordAccess_tracked. by left.
        -- intros [x Hx]. cbn in Hx.
           rewrite SetEvictable_false_flag, RecordAccess_evict_flag in Hx.
           apply lookup_delete_Some in Hx as [_ Hx]. apply Hge. by eexists.
  - destruct (acquire_frame hash s) as [[fr s1]|] eqn:Ha; [|done]. cbn.
    destruct (acquire_frame_inv s s1 fr Hinv Ha) as (Hinv1 & Hps & Hfr).
    destruct fr as [frame|]; [| by intros [= <- <-]].
    destruct (install _ _ _ _ _ _ _) as [s2|] eqn:Hi; [|done]. cbn.
    intros [= <- <-]. eapply install_inv; [exact Hinv1 | | exact Hi].
    unfold in_pool. rewrite Hps. by apply Hfr.
Qed.

Lemma UnpinPgImp_inv pid d (s s' : BufferPoolManagerInstance) res :
  bpm_inv s → UnpinPgImp hash pid d s = Some (res, s') → bpm_inv s'.
Proof.
  intros Hinv.
  pose proof Hinv as [Hpool Hpages Hrs Hfree Htab Hkeys Hvals Htr Hpin].
  unfold UnpinPgImp.
  destruct (EHT.Find hash pid _) as [[frame|]|] eqn:HF;
    [| by intros [= <- <-] | done]; cbn.
  destruct (page_at s frame) as [page|] eqn:Hp; [|done]. cbn.
  pose proof Hp as [Hf0 _]%page_at_Some.
  destruct (Z.leb_spec (pin_count_ page) 0); [by intros [= <- <-]|].
  intros [= <- <-].
  assert (Htrk : ∀ g, tracked (if pin_count_ page - 1 =? 0
                               then SetEvictable frame true (replacer_ s)
                               else replacer_ s) g ↔ tracked (replacer_ s) g).
  { intros g. destruct (_ =? 0); [apply SetEvictable_tracked | done]. }
  split; unfold in_pool in *; simpl_bpm; try done.
  - by rewrite length_insert.
  - destruct (_ =? 0); [by rewrite SetEvictable_size | done].
  - intros g Hg%Htrk. by apply Htr.
  - intros g pg Hg Hgp. destruct s as [ps nid0 pages disk tbl r fl]. simpl_bpm.
    rewrite Htrk.
    apply page_at_insert_inv in Hg as [[-> ->] | [Hne Hg]]; [| | done].
    + cbn in Hgp. rewrite (proj2 (Z.eqb_neq _ _)) by lia.
      apply (Hpin frame page Hp). lia.
    + destruct (Hpin _ _ Hg Hgp) as [Hgt Hge]. split; [done|].
      destruct (_ =? 0); [|done].
      intros [x Hx]. rewrite SetEvictable_true_flag in Hx.
      case_bool_decide; [|by apply Hge; eexists].
      rewrite lookup_insert_ne in Hx by done. apply Hge. by eexists.
Qed.

Lemma FlushPgImp_inv pid (s s' : BufferPoolManagerInstance) res :
  bpm_inv s → FlushPgImp hash pid s = Some (res, s') → bpm_inv s'.
Proof.
  intros Hinv.
  pose proof Hinv as [Hpool Hpages Hrs Hfree Htab Hkeys Hvals Htr Hpin].
  unfold FlushPgImp.
  destruct (EHT.Find hash pid _) as [[frame|]|] eqn:HF;
    [| by intros [= <- <-] | done]; cbn.
  destruct (page_at s frame) as [page|] eqn:Hp; [|done]. cbn.
  pose proof Hp as [Hf0 _]%page_at_Some.
  intros [= <- <-].
  split; unfold in_pool in *; simpl_bpm; try done.
  - by rewrite length_insert.
  - intros g pg Hg Hgp. destruct s as [ps nid0 pages disk tbl r fl]. simpl_bpm.
    apply page_at_insert_inv in Hg as [[-> ->] | [Hne Hg]]; [| | done].
    + by apply (Hpin frame page Hp).
    + by apply (Hpin _ _ Hg Hgp).
Qed.

Lemma FlushAllPgsImp_inv (s : BufferPoolManagerInstance) :
  bpm_inv s → bpm_inv (FlushAllPgsImp s).
Proof.
  intros Hinv.
  pose proof Hinv as [Hpool Hpages Hrs Hfree Htab Hkeys Hvals Htr Hpin].
  split; try done.
  - rewrite FlushAllPgsImp_pages, length_fmap. done.
  - intros g pg Hg Hgp. apply page_at_Some in Hg as [Hg0 Hg].
    rewrite FlushAllPgsImp_pages, list_lookup_fmap in Hg.
    destruct (pages_ s !! Z.to_nat g) as [pg0|] eqn:Hg'; [|done].
    injection Hg as <-. rewrite flushed_pin in Hgp.
    apply (Hpin g pg0); [|done].
    unfold page_at. by rewrite (proj2 (Z.ltb_ge _ _)) by done.
Qed.

Lemma DeletePgImp_inv pid (s s' : BufferPoolManagerInstance) res :
  bpm_inv s → DeletePgImp hash pid s = Some (res, s') → bpm_inv s'.
Proof.
  intros Hinv.
  pose proof Hinv as [Hpool Hpages Hrs Hfree Htab Hkeys Hvals Htr Hpin].
  unfold DeletePgImp.
  destruct (EHT.Find hash pid _) as [[frame|]|] eqn:HF;
    [| by intros [= <- <-] | done]; cbn.
  pose proof (Find_values_in hash _ _ _ _ Hvals HF) as Hin.
  destruct (page_at s frame) as [page|] eqn:Hp; [|done]. cbn.
  pose proof Hp as [Hf0 _]%page_at_Some.
  destruct (0 <? pin_count_ page); [by intros [= <- <-]|].
  destruct (EHT.Remove hash pid _) as [[found pt]|] eqn:Hrm; [|done]. cbn.
  intros [= <- <-].
  split; unfold in_pool in *; simpl_bpm; try done.
  - by rewrite length_insert.
  - intros f [Hf | ->%list_elem_of_singleton]%elem_of_app; [by apply Hfree | done].
  - eapply Remove_inv; [exact Htab | exact Hrm].
  - eapply Remove_keys_nodup; [exact Hkeys | exact Hrm].
  - eapply Remove_values_in; [exact Hvals | exact Hrm].
  - intros g [Hg _]%Remove_tracked. by apply Htr.
  - intros g pg Hg Hgp. destruct s as [ps nid0 pages disk tbl r fl]. simpl_bpm.
    apply page_at_insert_inv in Hg as [[-> ->] | [Hne Hg]]; [done | | done].
    destruct (Hpin _ _ Hg Hgp) as [Hgt Hge]. split.
    + by apply Remove_tracked.
    + intros [x Hx]. rewrite Remove_evict_flag in Hx.
      apply lookup_delete_Some in Hx as [_ Hx]. apply Hge. by eexists.
Qed.

Lemma write_data_inv f data (s s' : BufferPoolManagerInstance) :
  bpm_inv s → write_data f data s = Some s' → bpm_inv s'.
Proof.
  intros Hinv. pose proof Hinv as [Hpool Hpages Hrs Hfree Htab Hkeys Hvals Htr Hpin].
  unfold write_data.
  destruct (page_at s f) as [page|] eqn:Hp; [|done]. cbn.
  pose proof Hp as [Hf0 _]%page_at_Some.
  destruct (0 <? pin_count_ page); [|done]. intros [= <-].
  split; cbn; try done.
  - by rewrite length_insert.
  - intros g pg Hg Hgp. destruct s.
    apply page_at_insert_inv in Hg as [[-> ->] | [_ Hg]];
      [| by apply (Hpin g pg) | done].
    by apply (Hpin f page).
Qed.

Lemma run_op_inv o (s s' : BufferPoolManagerInstance) :
  bpm_inv s → run_op hash o s = Some s' → bpm_inv s'.
Proof.
  intros Hinv. destruct o; cbn.
  - destruct (NewPgImp hash fuel s) as [[res s1]|] eqn:E; [|done].
    intros [= <-]. by apply (NewPgImp_inv fuel s s1 res).
  - destruct (FetchPgImp hash fuel page_id s) as [[res s1]|] eqn:E; [|done].
    intros [= <-]. by apply (FetchPgImp_inv fuel page_id s s1 res).
  - destruct (UnpinPgImp hash page_id is_dirty s) as [[res s1]|] eqn:E; [|done].
    intros [= <-]. by apply (UnpinPgImp_inv page_id is_dirty s s1 res).
  - destruct (FlushPgImp hash page_id s) as [[res s1]|] eqn:E; [|done].
    intros [= <-]. by apply (FlushPgImp_inv page_id s s1 res).
  - intros [= <-]. by apply FlushAllPgsImp_inv.
  - destruct (DeletePgImp hash page_id s) as [[res s1]|] eqn:E; [|done].
    intros [= <-]. by apply (DeletePgImp_inv page_id s s1 res).
  - by apply write_data_inv.
Qed.

Lemma reachable_bpm_inv pool k disk (s : BufferPoolManagerInstance) :
  0 <= pool <= INT_MAX → reachable hash pool k disk s → bpm_inv s.
Proof.
  intros Hpool. induction 1 as [| s o s' _ IH Hstep]; [by apply new_bpm_inv|].
  by apply (run_op_inv o s).
Qed.

(** *** The operations on reachable states *)

(** C9.  FlushPage returns false iff the page is not resident; on a resident
    page it writes the bytes of the frame to disk whatever the dirty flag,
    clears the dirty flag, returns true and leaves the pin count as it is. *)
Theorem FlushPgImp_spec pool k disk (s : BufferPoolManagerInstance) pid :
  0 <= pool <= INT_MAX → reachable hash pool k disk s →
  ∃ found, EHT.Find hash pid (page_table_ s) = Some found ∧
    match found with
    | None => FlushPgImp hash pid s = Some (false, s)
    | Some frame =>
        ∃ page s', page_at s frame = Some page ∧
          FlushPgImp hash pid s = Some (true, s') ∧
          disk_manager_ s' = WritePage pid (data_ page) (disk_manager_ s) ∧
          page_at s' frame =
            Some (mkPage (data_ page) (page_id_ page) (pin_count_ page) false) ∧
          (∀ g, g ≠ frame → page_at s' g = page_at s g) ∧
          pool_size_ s' = pool_size_ s ∧ next_page_id_ s' = next_page_id_ s ∧
          page_table_ s' = page_table_ s ∧ replacer_ s' = replacer_ s ∧
          free_list_ s' = free_list_ s
    end.
Proof.
  intros Hpool Hr. pose proof (reachable_bpm_inv pool k disk s Hpool Hr) as Hinv.
  destruct (Find_defined hash pid _ (bi_table s Hinv)) as [found HF].
  exists found. split; [done|]. unfold FlushPgImp. rewrite HF. cbn.
  destruct found as [frame|]; [|done].
  pose proof (Find_values_in hash _ _ _ _ (bi_values s Hinv) HF) as Hin.
  destruct (page_at_in_pool s frame Hinv Hin) as [page Hp].
  pose proof Hp as [Hf0 Hl]%page_at_Some.
  exists page. eexists. rewrite Hp. cbn. split_and!; try done.
  - destruct s. rewrite page_at_insert by done. rewrite decide_True by done.
    rewrite decide_True; [done|]. by apply lookup_lt_Some in Hl.
  - intros g Hg. destruct s. rewrite page_at_insert by done.
    by rewrite decide_False by done.
Qed.

(** C8.  DeletePage returns true on a page that is not resident and false on
    a resident page with a positive pin count, the state being unchanged in
    both cases; otherwise it writes the frame to disk iff it is dirty,
    removes the entry of the page table and the record of the replacer,
    resets the frame to INVALID_PAGE_ID with pin count 0 and a clear dirty
    flag, appends the frame to the free list and returns true. *)
Theorem DeletePgImp_spec pool k disk (s : BufferPoolManagerInstance) pid :
  0 <= pool <= INT_MAX → reachable hash pool k disk s →
  ∃ found, EHT.Find hash pid (page_table_ s) = Some found ∧
    match found with
    | None => DeletePgImp hash pid s = Some (true, s)
    | Some frame =>
        ∃ page, page_at s frame = Some page ∧
          if 0 <? pin_count_ page then DeletePgImp hash pid s = Some (false, s)
          else
            ∃ s', DeletePgImp hash pid s = Some (true, s') ∧
              disk_manager_ s' =
                (if is_dirty_ page
                 then WritePage (page_id_ page) (data_ page) (disk_manager_ s)
                 else disk_manager_ s) ∧
              EHT.Remove hash pid (page_table_ s) = Some (true, page_table_ s') ∧
              EHT.Find hash pid (page_table_ s') = Some None ∧
              replacer_ s' = Replacer.Remove frame (replacer_ s) ∧
              ¬ tracked (replacer_ s') frame ∧ ¬ evictable (replacer_ s') frame ∧
              page_at s' frame = Some (mkPage zeroed INVALID_PAGE_ID 0 false) ∧
              (∀ g, g ≠ frame → page_at s' g = page_at s g) ∧
              free_list_ s' = free_list_ s ++ [frame] ∧
              pool_size_ s' = pool_size_ s ∧ next_page_id_ s' = next_page_id_ s
    end.
Proof.
  intros Hpool Hr. pose proof (reachable_bpm_inv pool k disk s Hpool Hr) as Hinv.
  destruct (Find_defined hash pid _ (bi_table s Hinv)) as [found HF].
  exists found. split; [done|]. unfold DeletePgImp. rewrite HF. cbn.
  destruct found as [frame|]; [|done].
  pose proof (Find_values_in hash _ _ _ _ (bi_values s Hinv) HF) as Hin.
  destruct (page_at_in_pool s frame Hinv Hin) as [page Hp].
  pose proof Hp as [Hf0 Hl]%page_at_Some.
  exists page. rewrite Hp. cbn. split; [done|].
  destruct (0 <? pin_count_ page); [done|].
  destruct (Remove_spec hash pid _ _ (bi_keys s Hinv) HF) as (pt & Hrm & Hfind & _).
  rewrite bool_decide_eq_true_2 in Hrm by (by eexists).
  rewrite Hrm. cbn. eexists. split; [done|]. cbn. split_and!; try done.
  - intros [_ Hne]%Remove_tracked. done.
  - intros [x Hx]. by rewrite Remove_evict_flag, lookup_delete_eq in Hx.
  - destruct s. rewrite page_at_insert by done. rewrite decide_True by done.
    rewrite decide_True; [done|]. by apply lookup_lt_Some in Hl.
  - intros g Hg. destruct s. rewrite page_at_insert by done.
    by rewrite decide_False by done.
Qed.

(** C7.  UnpinPage returns false iff the page is not resident or the pin
    count of its frame is not positive, and then changes no state; otherwise
    it decrements the pin count, sets the dirty flag when [is_dirty] is true
    and keeps it when [is_dirty] is false, and the frame is evictable
    afterwards exactly when the pin count has reached zero. *)
Theorem UnpinPgImp_spec pool k disk (s : BufferPoolManagerInstance) pid is_dirty :
  0 <= pool <= INT_MAX → reachable hash pool k disk s →
  ∃ found, EHT.Find hash pid (page_table_ s) = Some found ∧
    match found with
    | None => UnpinPgImp hash pid is_dirty s = Some (false, s)
    | Some frame =>
        ∃ page, page_at s frame = Some page ∧
          if pin_count_ page <=? 0
          then UnpinPgImp hash pid is_dirty s = Some (false, s)
          else
            ∃ s', UnpinPgImp hash pid is_dirty s = Some (true, s') ∧
              page_at s' frame =
                Some (mkPage (data_ page) (page_id_ page) (pin_count_ page - 1)
                        (if is_dirty then true else is_dirty_ page)) ∧
              (∀ g, g ≠ frame → page_at s' g = page_at s g) ∧
              replacer_ s' =
                (if pin_count_ page - 1 =? 0
                 then SetEvictable frame true (replacer_ s) else replacer_ s) ∧
              (evictable (replacer_ s') frame ↔ pin_count_ page - 1 = 0) ∧
              (∀ g, g ≠ frame →
                 (evictable (replacer_ s') g ↔ evictable (replacer_ s) g)) ∧
              pool_size_ s' = pool_size_ s ∧ next_page_id_ s' = next_page_id_ s ∧
              disk_manager_ s' = disk_manager_ s ∧
              page_table_ s' = page_table_ s ∧ free_list_ s' = free_list_ s
    end.
Proof.
  intros Hpool Hr. pose proof (reachable_bpm_inv pool k disk s Hpool Hr) as Hinv.
  destruct (Find_defined hash pid _ (bi_table s Hinv)) as [found HF].
  exists found. split; [done|]. unfold UnpinPgImp. rewrite HF. cbn.
  destruct found as [frame|]; [|done].
  pose proof (Find_values_in hash _ _ _ _ (bi_values s Hinv) HF) as Hin.
  destruct (page_at_in_pool s frame Hinv Hin) as [page Hp].
  pose proof Hp as [Hf0 Hl]%page_at_Some.
  exists page. rewrite Hp. cbn. split; [done|].
  destruct (Z.leb_spec (pin_count_ page) 0) as [Hle | Hgt]; [done|].
  destruct (bi_pinned s Hinv frame page Hp Hgt) as [Htr Hne].
  eexists. split; [done|]. cbn. split_and!; try done.
  - destruct s. rewrite page_at_insert by done. rewrite decide_True by done.
    rewrite decide_True; [done|]. by apply lookup_lt_Some in Hl.
  - intros g Hg. destruct s. rewrite page_at_insert by done.
    by rewrite decide_False by done.
  - destruct (Z.eqb_spec (pin_count_ page - 1) 0) as [He | Hn].
    + split; [done | intros _]. unfold evictable.
      rewrite SetEvictable_true_flag, bool_decide_eq_true_2 by done.
      by rewrite lookup_insert_eq.
    + split; [by intros ? | done].
  - intros g Hg. destruct (_ =? 0); [|done]. unfold evictable.
    rewrite SetEvictable_true_flag, bool_decide_eq_true_2 by done.
    by rewrite lookup_insert_ne by done.
Qed.

(** *** Failure of NewPage and FetchPage *)

(** The state after a failed allocation: the failed [Evict] has advanced the
    clock of the replacer. *)
Lemma acquire_frame_None (s s1 : BufferPoolManagerInstance) :
  acquire_frame hash s = Some (None, s1) →
  free_list_ s = [] ∧ (Evict (replacer_ s)).1.1 = false ∧
  s1 = set_replacer (tick (replacer_ s)) s.
Proof.
  unfold acquire_frame. destruct (free_list_ s) as [|f rest]; [|done].
  destruct (Evict (replacer_ s)) as [[ok frame] r1] eqn:HE.
  destruct ok; cbn [negb].
  - destruct (page_at s frame) as [victim|]; [|done]. cbn.
    case_bool_decide; [|done].
    by destruct (EHT.Remove hash _ _).
  - apply Evict_false in HE as [_ ->]. by intros [= <-].
Qed.

(** C10 (amended).  Whenever NewPage or FetchPage fails, the free list is
    empty and the replacer has no victim, and the state of the manager is
    unchanged except for the logical clock of the replacer, which the failed
    Evict advances: no frame, page-table entry, free-list entry or tracking
    entry of the replacer is modified, no disk write occurs and the page-id
    counter does not advance. *)
Theorem failed_allocation_only_advances_clock fuel (s s' : BufferPoolManagerInstance) :
  (NewPgImp hash fuel s = Some (None, s') ∨
   ∃ pid, FetchPgImp hash fuel pid s = Some (None, s')) →
  free_list_ s = [] ∧ (Evict (replacer_ s)).1.1 = false ∧
  s' = set_replacer (tick (replacer_ s)) s ∧
  pages_ s' = pages_ s ∧ page_table_ s' = page_table_ s ∧
  free_list_ s' = free_list_ s ∧ disk_manager_ s' = disk_manager_ s ∧
  next_page_id_ s' = next_page_id_ s ∧
  hist_map_ (replacer_ s') = hist_map_ (replacer_ s) ∧
  last_map_ (replacer_ s') = last_map_ (replacer_ s) ∧
  evict_flag_ (replacer_ s') = evict_flag_ (replacer_ s) ∧
  current_timestamp_ (replacer_ s') = size_t_incr (current_timestamp_ (replacer_ s)).
Proof.
  intros H.
  assert (Ha : acquire_frame hash s = Some (None, s')).
  { destruct H as [H | [pid H]].
    - unfold NewPgImp in H.
      destruct (acquire_frame hash s) as [[[frame|] s1]|]; cbn in H; [| |done].
      + by destruct (install _ _ _ _ _ _ _).
      + by injection H as <-.
    - unfold FetchPgImp in H.
      destruct (EHT.Find hash pid _) as [[frame|]|]; cbn in H; [| |done].
      + destruct (page_at s frame); [|done]. cbn in H. by case_bool_decide.
      + destruct (acquire_frame hash s) as [[[frame|] s1]|]; cbn in H; [| |done].
        * by destruct (install _ _ _ _ _ _ _).
        * by injection H as <-. }
  apply acquire_frame_None in Ha as (Hfl & HE & ->). by split_and!.
Qed.

End Facts.

(** *** Examples *)

Section Examples.
Import Examples.

Lemma reachable_pool1_full : reachable std_hash_int 1 2 [] pool1_full.
Proof.
  apply (reachable_step _ _ _ _ pool1 (OpNewPage 1)); [apply reachable_new|].
  vm_compute. reflexivity.
Defined.

Lemma pool1_size : 0 <= 1 <= INT_MAX.
Proof. unfold INT_MAX. lia. Defined.

Lemma pool3_size : 0 <= 2 <= INT_MAX.
Proof. unfold INT_MAX. lia. Defined.

(** The run that leaves page 0 in frame 0 with the bytes of the caller,
    dirty and unpinned. *)
Lemma reachable_pool3_c : reachable std_hash_int 2 2 disk3 pool3_c.
Proof.
  apply (reachable_step _ _ _ _ pool3_b (OpUnpinPage 0 true));
    [| vm_compute; reflexivity].
  apply (reachable_step _ _ _ _ pool3_a (OpWriteData 0 bytes_a));
    [| vm_compute; reflexivity].
  apply (reachable_step _ _ _ _ pool3 (OpNewPage 30));
    [| vm_compute; reflexivity].
  apply reachable_new.
Defined.

(** Frame 0 of [pool1_full] is pinned once and not evictable. *)
Lemma pinned_frames_are_not_evictable_witness :
  evict_flag_ (replacer_ pool1_full) !! 0 = None.
Proof.
  apply (pinned_frames_are_not_evictable std_hash_int 1 2 [] pool1_full 0
           (mkPage zeroed 0 1 false)).
  - apply reachable_pool1_full.
  - vm_compute. reflexivity.
  - cbn. lia.
Defined.

(** [UnpinPage(0, true)] on [pool1_full]. *)
Lemma UnpinPgImp_spec_witness :
  ∃ found, EHT.Find std_hash_int 0 (page_table_ pool1_full) = Some found ∧
    match found with
    | None => UnpinPgImp std_hash_int 0 true pool1_full = Some (false, pool1_full)
    | Some frame =>
        ∃ page, page_at pool1_full frame = Some page ∧
          if pin_count_ page <=? 0
          then UnpinPgImp std_hash_int 0 true pool1_full = Some (false, pool1_full)
          else
            ∃ s',
              UnpinPgImp std_hash_int 0 true pool1_full = Some (true, s') ∧
              page_at s' frame =
                Some (mkPage (data_ page) (page_id_ page) (pin_count_ page - 1)
                        (if true then true else is_dirty_ page)) ∧
              (∀ g, g ≠ frame → page_at s' g = page_at pool1_full g) ∧
              replacer_ s' =
                (if pin_count_ page - 1 =? 0
                 then SetEvictable frame true (replacer_ pool1_full)
                 else replacer_ pool1_full) ∧
              (evictable (replacer_ s') frame ↔ pin_count_ page - 1 = 0) ∧
              (∀ g, g ≠ frame →
                 (evictable (replacer_ s') g ↔
                  evictable (replacer_ pool1_full) g)) ∧
              pool_size_ s' = pool_size_ pool1_full ∧
              next_page_id_ s' = next_page_id_ pool1_full ∧
              disk_manager_ s' = disk_manager_ pool1_full ∧
              page_table_ s' = page_table_ pool1_full ∧
              free_list_ s' = free_list_ pool1_full
    end.
Proof.
  apply (UnpinPgImp_spec std_hash_int 1 2 [] pool1_full 0 true).
  - apply pool1_size.
  - apply reachable_pool1_full.
Defined.

(** [DeletePage(0)] on [pool3_c], where page 0 is resident in frame 0,
    unpinned and dirty, with the bytes [bytes_a] of the caller: the call
    takes the last branch and writes these bytes to disk. *)
Lemma DeletePgImp_spec_witness :
  ∃ found, EHT.Find std_hash_int 0 (page_table_ pool3_c) = Some found ∧
    match found with
    | None => DeletePgImp std_hash_int 0 pool3_c = Some (true, pool3_c)
    | Some frame =>
        ∃ page, page_at pool3_c frame = Some page ∧
          if 0 <? pin_count_ page
          then DeletePgImp std_hash_int 0 pool3_c = Some (false, pool3_c)
          else
            ∃ s', DeletePgImp std_hash_int 0 pool3_c = Some (true, s') ∧
              disk_manager_ s' =
                (if is_dirty_ page
                 then WritePage (page_id_ page) (data_ page) (disk_manager_ pool3_c)
                 else disk_manager_ pool3_c) ∧
              EHT.Remove std_hash_int 0 (page_table_ pool3_c) =
                Some (true, page_table_ s') ∧
              EHT.Find std_hash_int 0 (page_table_ s') = Some None ∧
              replacer_ s' = Replacer.Remove frame (replacer_ pool3_c) ∧
              ¬ tracked (replacer_ s') frame ∧ ¬ evictable (replacer_ s') frame ∧
              page_at s' frame = Some (mkPage zeroed INVALID_PAGE_ID 0 false) ∧
              (∀ g, g ≠ frame → page_at s' g = page_at pool3_c g) ∧
              free_list_ s' = free_list_ pool3_c ++ [frame] ∧
              pool_size_ s' = pool_size_ pool3_c ∧
              next_page_id_ s' = next_page_id_ pool3_c
    end.
Proof.
  apply (DeletePgImp_spec std_hash_int 2 2 disk3 pool3_c 0).
  - apply pool3_size.
  - apply reachable_pool3_c.
Defined.

(** The frame, the branch and the write of that call. *)
Lemma DeletePgImp_writes_the_bytes_of_the_caller :
  EHT.Find std_hash_int 0 (page_table_ pool3_c) = Some (Some 0) ∧
  page_at pool3_c 0 = Some (mkPage bytes_a 0 0 true) ∧
  bytes_a ≠ zeroed ∧
  ∃ s', DeletePgImp std_hash_int 0 pool3_c = Some (true, s') ∧
        disk_manager_ s' = [(0, bytes_a); (7, bytes_7)] ∧
        ReadPage 0 (disk_manager_ s') = bytes_a ∧
        page_at s' 0 = Some (mkPage zeroed INVALID_PAGE_ID 0 false) ∧
        free_list_ s' = [1; 0].
Proof.
  split_and!; [vm_compute; reflexivity.. | |].
  - intros Heq. vm_compute in Heq. discriminate Heq.
  - eexists. split; [vm_compute; reflexivity|].
    split_and!; vm_compute; reflexivity.
Qed.

(** [FlushPage(0)] on [pool3_c], where frame 0 holds the bytes [bytes_a] of
    the caller. *)
Lemma FlushPgImp_spec_witness :
  ∃ found, EHT.Find std_hash_int 0 (page_table_ pool3_c) = Some found ∧
    match found with
    | None => FlushPgImp std_hash_int 0 pool3_c = Some (false, pool3_c)
    | Some frame =>
        ∃ page s', page_at pool3_c frame = Some page ∧
          FlushPgImp std_hash_int 0 pool3_c = Some (true, s') ∧
          disk_manager_ s' = WritePage 0 (data_ page) (disk_manager_ pool3_c) ∧
          page_at s' frame =
            Some (mkPage (data_ page) (page_id_ page) (pin_count_ page) false) ∧
          (∀ g, g ≠ frame → page_at s' g = page_at pool3_c g) ∧
          pool_size_ s' = pool_size_ pool3_c ∧
          next_page_id_ s' = next_page_id_ pool3_c ∧
          page_table_ s' = page_table_ pool3_c ∧
          replacer_ s' = replacer_ pool3_c ∧
          free_list_ s' = free_list_ pool3_c
    end.
Proof.
  apply (FlushPgImp_spec std_hash_int 2 2 disk3 pool3_c 0).
  - apply pool3_size.
  - apply reachable_pool3_c.
Defined.

(** The write of that call, and the same call on the clean page 1 of
    [pool3_d]: the frame is written whatever the dirty flag. *)
Lemma FlushPgImp_writes_the_bytes_of_the_caller :
  page_at pool3_c 0 = Some (mkPage bytes_a 0 0 true) ∧
  (∃ s', FlushPgImp std_hash_int 0 pool3_c = Some (true, s') ∧
         disk_manager_ s' = [(0, bytes_a); (7, bytes_7)] ∧
         page_at s' 0 = Some (mkPage bytes_a 0 0 false)) ∧
  page_at pool3_d 1 = Some (mkPage zeroed 1 1 false) ∧
  (∃ s', FlushPgImp std_hash_int 1 pool3_d = Some (true, s') ∧
         disk_manager_ s' = [(1, zeroed); (7, bytes_7)] ∧
         page_at s' 1 = Some (mkPage zeroed 1 1 false)).
Proof.
  split_and!; [vm_compute; reflexivity | | vm_compute; reflexivity |].
  all: eexists; split; [vm_compute; reflexivity|].
  all: split; vm_compute; reflexivity.
Qed.

(** C10 (as stated, refuted).  Claim: when NewPage fails the entire state of
    the manager is unchanged.  The second NewPage on the pool of one frame
    returns [nullptr] after the call of Evict, which has advanced the clock
    of the replacer: the state is not the one before the call. *)
Lemma failed_NewPage_changes_the_state :
  NewPgImp std_hash_int 1 pool1_full = Some (None, pool1_failed) ∧
  pool1_failed ≠ pool1_full.
Proof.
  split; [vm_compute; reflexivity|].
  intros Heq.
  apply (f_equal (λ s, current_timestamp_ (replacer_ s))) in Heq.
  vm_compute in Heq. discriminate Heq.
Qed.

Lemma failed_allocation_only_advances_clock_witness :
  free_list_ pool1_full = [] ∧ (Evict (replacer_ pool1_full)).1.1 = false ∧
  pool1_failed = set_replacer (tick (replacer_ pool1_full)) pool1_full ∧
  pages_ pool1_failed = pages_ pool1_full ∧
  page_table_ pool1_failed = page_table_ pool1_full ∧
  free_list_ pool1_failed = free_list_ pool1_full ∧
  disk_manager_ pool1_failed = disk_manager_ pool1_full ∧
  next_page_id_ pool1_failed = next_page_id_ pool1_full ∧
  hist_map_ (replacer_ pool1_failed) = hist_map_ (replacer_ pool1_full) ∧
  last_map_ (replacer_ pool1_failed) = last_map_ (replacer_ pool1_full) ∧
  evict_flag_ (replacer_ pool1_failed) = evict_flag_ (replacer_ pool1_full) ∧
  current_timestamp_ (replacer_ pool1_failed) =
    size_t_incr (current_timestamp_ (replacer_ pool1_full)).
Proof.
  apply (failed_allocation_only_advances_clock std_hash_int 1 pool1_full pool1_failed).
  left. vm_compute. reflexivity.
Defined.

End Examples.

End BPMFacts.

(** * Further properties of the replacer *)

Module ReplacerProps.
Import MachineInt Replacer ReplacerFacts.
Local Open Scope Z_scope.

(** *** Call sequences *)

Lemma run_calls_snoc cs c r :
  run_calls (cs ++ [c]) r = run_call c (run_calls cs r).
Proof. unfold run_calls. by rewrite foldl_app. Qed.

(** The three outcomes of [Evict]: no victim, a victim of the history
    phase, a victim of the steady phase. *)
Lemma Evict_in_cases hs ls r ok f r' :
  Evict_in hs ls r = ((ok, f), r') →
  current_timestamp_ r' = size_t_incr (current_timestamp_ r) ∧
  replacer_size_ r' = replacer_size_ r ∧ k_ r' = k_ r ∧
  ((ok = false ∧ r' = tick r) ∨
   (ok = true ∧ is_Some (hist_map_ r !! f) ∧
      hist_map_ r' = delete f (hist_map_ r) ∧ last_map_ r' = last_map_ r ∧
      evict_flag_ r' = delete f (evict_flag_ r)) ∨
   (ok = true ∧
      hist_map_ r' = hist_map_ r ∧ last_map_ r' = delete f (last_map_ r) ∧
      evict_flag_ r' = delete f (evict_flag_ r))).
Proof.
  unfold Evict_in. cbn.
  destruct (_ && _); [intros [= <- <- <-]; cbn; split_and!; try done; by left|].
  destruct (scan front _ _ _) as [fid lr1].
  destruct (bool_decide (is_Some (hist_map_ r !! fid))) eqn:Hh.
  - apply bool_decide_eq_true in Hh. intros [= <- <- <-]. cbn.
    split_and!; try done. right; left. done.
  - destruct (scan id _ _ _) as [fid2 lr2]. destruct (fid2 =? -1).
    + intros [= <- <- <-]. cbn. split_and!; try done. by left.
    + intros [= <- <- <-]. cbn. split_and!; try done. right; right. done.
Qed.

Lemma RecordAccess_k f r : k_ (RecordAccess f r) = k_ r.
Proof. unfold RecordAccess. cbn. repeat case_match; done. Qed.

Lemma SetEvictable_maps f b r :
  hist_map_ (SetEvictable f b r) = hist_map_ r ∧
  last_map_ (SetEvictable f b r) = last_map_ r ∧
  k_ (SetEvictable f b r) = k_ r.
Proof. unfold SetEvictable. cbn. repeat case_match; done. Qed.

Lemma run_call_params c r :
  replacer_size_ (run_call c r) = replacer_size_ r ∧ k_ (run_call c r) = k_ r.
Proof.
  destruct c as [| f | f b | f]; cbn [run_call].
  - destruct (Evict r) as [[ok f] r'] eqn:HE. cbn.
    apply Evict_in_cases in HE as (_ & ? & ? & _). done.
  - by rewrite RecordAccess_size, RecordAccess_k.
  - rewrite SetEvictable_size. by destruct (SetEvictable_maps f b r) as (_ & _ & ->).
  - done.
Qed.

Lemma run_calls_params cs n k :
  replacer_size_ (run_calls cs (new_replacer n k)) = n ∧
  k_ (run_calls cs (new_replacer n k)) = k.
Proof.
  induction cs as [|c cs IH] using rev_ind; [done|].
  rewrite run_calls_snoc. destruct (run_call_params c (run_calls cs (new_replacer n k))) as [-> ->].
  done.
Qed.

(** *** The two phases of a frame *)

Lemma phases_ok_new n k : phases_ok (new_replacer n k).
Proof.
  split; cbn.
  - intros f h Hh. by rewrite lookup_empty in Hh.
  - done.
  - intros f [x Hx]. cbn in Hx. by rewrite lookup_empty in Hx.
  - intros f [[x Hx] | [x Hx]]; cbn in Hx; by rewrite lookup_empty in Hx.
Qed.

Lemma phases_ok_RecordAccess f r : phases_ok r → phases_ok (RecordAccess f r).
Proof.
  intros [Hh Hp Hf Hb]. split.
  - rewrite RecordAccess_k. unfold RecordAccess. cbn.
    destruct (static_cast_int (replacer_size_ r) <=? f); [exact Hh|].
    destruct (bool_decide (is_Some (last_map_ r !! f))); [exact Hh|].
    destruct (k_ r <=? _) eqn:Hk; cbn.
    + intros g h [_ Hg]%lookup_delete_Some. by apply (Hh g).
    + apply Z.leb_gt in Hk. intros g h [[<- <-] | [_ Hg]]%lookup_insert_Some.
      * split; [|lia]. by destruct (default [] _).
      * by apply (Hh g).
  - unfold RecordAccess. cbn.
    destruct (static_cast_int (replacer_size_ r) <=? f); [exact Hp|].
    destruct (bool_decide (is_Some (last_map_ r !! f))) eqn:Hl; cbn.
    + apply bool_decide_eq_true in Hl. intros g Hg.
      destruct (decide (g = f)) as [-> | Hne].
      * rewrite (Hp f Hg) in Hl. by destruct Hl.
      * rewrite lookup_insert_ne by done. by apply Hp.
    + apply bool_decide_eq_false in Hl.
      destruct (k_ r <=? _); cbn; intros g Hg.
      * destruct (decide (g = f)) as [-> | Hne].
        -- rewrite lookup_delete_eq in Hg. by destruct Hg.
        -- rewrite lookup_delete_ne in Hg by done.
           rewrite lookup_insert_ne by done. by apply Hp.
      * destruct (decide (g = f)) as [-> | Hne].
        -- destruct (last_map_ r !! f) eqn:E; [|done]. destruct Hl. by eexists.
        -- rewrite lookup_insert_ne in Hg by done. by apply Hp.
  - intros g Hg. unfold evictable in Hg. rewrite RecordAccess_evict_flag in Hg.
    apply RecordAccess_tracked. left. by apply Hf.
  - intros g Hg. rewrite RecordAccess_size.
    apply RecordAccess_tracked in Hg as [Hg | [-> Hlt]]; [by apply Hb | done].
Qed.

Lemma phases_ok_SetEvictable f b r : phases_ok r → phases_ok (SetEvictable f b r).
Proof.
  intros [Hh Hp Hf Hb].
  destruct (SetEvictable_maps f b r) as (Hhm & Hlm & Hk).
  split.
  - rewrite Hhm, Hk. exact Hh.
  - rewrite Hhm, Hlm. exact Hp.
  - intros g Hg. apply SetEvictable_tracked. unfold evictable in Hg.
    destruct b.
    + rewrite SetEvictable_true_flag in Hg. case_bool_decide as Ht.
      * destruct (decide (g = f)) as [-> | Hne]; [done|].
        rewrite lookup_insert_ne in Hg by done. by apply Hf.
      * by apply Hf.
    + rewrite SetEvictable_false_flag in Hg.
      destruct Hg as [x [_ Hx]%lookup_delete_Some]. apply Hf. by eexists.
  - intros g Hg. rewrite SetEvictable_size. apply Hb. by apply SetEvictable_tracked in Hg.
Qed.

Lemma phases_ok_Remove f r : phases_ok r → phases_ok (Remove f r).
Proof.
  intros [Hh Hp Hf Hb]. split.
  - cbn. intros g h [_ Hg]%lookup_delete_Some. by apply (Hh g).
  - cbn. intros g [x [Hne Hx]%lookup_delete_Some].
    rewrite lookup_delete_ne by done. apply Hp. by eexists.
  - intros g [x Hx]. rewrite Remove_evict_flag in Hx.
    apply lookup_delete_Some in Hx as [Hne Hx].
    apply Remove_tracked. split; [|done]. apply Hf. by eexists.
  - intros g [Hg _]%Remove_tracked. rewrite Remove_size. by apply Hb.
Qed.

Lemma phases_ok_Evict r : phases_ok r → phases_ok (Evict r).2.
Proof.
  intros [Hh Hp Hf Hb]. destruct (Evict r) as [[ok f] r'] eqn:HE. cbn.
  apply Evict_in_cases in HE
    as (_ & Hsz & Hk & [[_ ->] | [(_ & _ & Hhm & Hlm & Hfl) | (_ & Hhm & Hlm & Hfl)]]).
  - by split.
  - split; unfold tracked, evictable; rewrite ?Hhm, ?Hlm, ?Hfl, ?Hsz, ?Hk.
    + intros g h [_ Hg]%lookup_delete_Some. by apply (Hh g).
    + intros g [x [_ Hx]%lookup_delete_Some]. apply Hp. by eexists.
    + intros g [x [Hne Hx]%lookup_delete_Some].
      rewrite lookup_delete_ne by done. apply Hf. by eexists.
    + intros g [[x [_ Hx]%lookup_delete_Some] | Hl]; apply Hb; [left | right]; by eauto.
  - split; unfold tracked, evictable; rewrite ?Hhm, ?Hlm, ?Hfl, ?Hsz, ?Hk.
    + exact Hh.
    + intros g Hg. destruct (decide (g = f)) as [-> | Hne].
      * apply lookup_delete_eq.
      * rewrite lookup_delete_ne by done. by apply Hp.
    + intros g [x [Hne Hx]%lookup_delete_Some].
      rewrite lookup_delete_ne by done. apply Hf. by eexists.
    + intros g [Hl | [x [_ Hx]%lookup_delete_Some]]; apply Hb; [left | right]; by eauto.
Qed.

Lemma phases_ok_run_calls cs n k : phases_ok (run_calls cs (new_replacer n k)).
Proof.
  induction cs as [|c cs IH] using rev_ind; [apply phases_ok_new|].
  rewrite run_calls_snoc. destruct c; cbn [run_call].
  - by apply phases_ok_Evict.
  - by apply phases_ok_RecordAccess.
  - by apply phases_ok_SetEvictable.
  - by apply phases_ok_Remove.
Qed.

(** X1.  Whatever calls were made, with whatever frame ids: a frame of
    [hist_map_] has a history that is not empty and holds fewer than [k_]
    timestamps, and it is not at the same time in [last_map_]. *)
Theorem history_frames_have_fewer_than_k_accesses n k cs f h :
  hist_map_ (run_calls cs (new_replacer n k)) !! f = Some h →
  h ≠ [] ∧ Z.of_nat (length h) < k ∧
  last_map_ (run_calls cs (new_replacer n k)) !! f = None.
Proof.
  intros Hf. pose proof (phases_ok_run_calls cs n k) as [Hh Hp _ _].
  destruct (Hh f h Hf) as [Hne Hlen].
  destruct (run_calls_params cs n k) as [_ Hk]. rewrite Hk in Hlen.
  split_and!; [done | done |]. apply Hp. by eexists.
Qed.

(** X2.  Whatever calls were made: a frame with the evictable flag is
    tracked (it has a history or a steady timestamp), and every tracked frame
    id is below [static_cast<int>(replacer_size_)]. *)
Theorem evictable_frames_are_tracked n k cs f :
  evictable (run_calls cs (new_replacer n k)) f →
  tracked (run_calls cs (new_replacer n k)) f ∧ f < static_cast_int n.
Proof.
  intros Hf. pose proof (phases_ok_run_calls cs n k) as [_ _ Hfl Hb].
  destruct (run_calls_params cs n k) as [Hn _].
  split; [by apply Hfl|]. rewrite <- Hn. by apply Hb, Hfl.
Qed.

(** *** Size *)

Lemma run_call_tracked c r g :
  tracked (run_call c r) g → tracked r g ∨ c = CallRecordAccess g.
Proof.
  destruct c as [| f | f b | f]; cbn [run_call].
  - destruct (Evict r) as [[ok f] r'] eqn:HE. cbn.
    apply Evict_in_cases in HE
      as (_ & _ & _ & [[_ ->] | [(_ & _ & Hhm & Hlm & _) | (_ & Hhm & Hlm & _)]]).
    + by left.
    + unfold tracked. rewrite Hhm, Hlm.
      intros [[x [_ Hx]%lookup_delete_Some] | Hl]; left; [left | right]; by eauto.
    + unfold tracked. rewrite Hhm, Hlm.
      intros [Hl | [x [_ Hx]%lookup_delete_Some]]; left; [left | right]; by eauto.
  - intros [Hg | [-> _]]%RecordAccess_tracked; [by left | by right].
  - intros Hg%SetEvictable_tracked. by left.
  - intros [Hg _]%Remove_tracked. by left.
Qed.

Lemma nonneg_calls_tracked cs n k f :
  Forall nonneg_call cs → tracked (run_calls cs (new_replacer n k)) f → 0 <= f.
Proof.
  induction cs as [|c cs IH] using rev_ind.
  - intros _ [[x Hx] | [x Hx]]; cbn in Hx; by rewrite lookup_empty in Hx.
  - intros [Hcs Hc%Forall_inv]%Forall_app. rewrite run_calls_snoc.
    intros [Hg | ->]%run_call_tracked; [by apply IH | exact Hc].
Qed.

(** X3.  When [RecordAccess] is called with frame ids that are not negative,
    [Size()] never exceeds the number of frames the replacer was built
    for. *)
Theorem Size_at_most_num_frames n k cs :
  0 <= n <= INT_MAX → Forall nonneg_call cs →
  Z.of_nat (Size (run_calls cs (new_replacer n k))) <= n.
Proof.
  intros Hn Hcs. set (r := run_calls cs (new_replacer n k)).
  assert (Hsub : dom (evict_flag_ r) ⊆ (list_to_set (seqZ 0 n) : gset Z)).
  { intros f Hf%elem_of_dom. apply elem_of_list_to_set, elem_of_seqZ.
    pose proof (phases_ok_run_calls cs n k) as [_ _ Hfl Hb].
    destruct (run_calls_params cs n k) as [Hsz _].
    pose proof (Hfl f Hf) as Ht. pose proof (Hb f Ht) as Hlt.
    rewrite Hsz, static_cast_int_small in Hlt by done.
    pose proof (nonneg_calls_tracked cs n k f Hcs Ht). lia. }
  apply subseteq_size in Hsub. rewrite size_dom in Hsub.
  rewrite size_list_to_set in Hsub by apply NoDup_seqZ.
  rewrite length_seqZ in Hsub. unfold Size. fold r. lia.
Qed.

(** X4.  How [SetEvictable] moves [Size()]: setting the flag of a tracked
    frame that is not flagged raises it by one, setting it on a flagged or an
    untracked frame changes nothing (an untracked frame is not flagged by the
    call), and clearing the flag lowers it by one iff the frame was
    flagged. *)
Theorem SetEvictable_moves_Size_by_one f r :
  (tracked r f → ¬ evictable r f → Size (SetEvictable f true r) = S (Size r)) ∧
  (evictable r f → Size (SetEvictable f true r) = Size r) ∧
  (¬ tracked r f →
     Size (SetEvictable f true r) = Size r ∧ ¬ tracked (SetEvictable f true r) f) ∧
  (evictable r f → S (Size (SetEvictable f false r)) = Size r) ∧
  (¬ evictable r f → Size (SetEvictable f false r) = Size r).
Proof.
  unfold Size, evictable. rewrite SetEvictable_true_flag, SetEvictable_false_flag.
  split_and!.
  - intros Ht Hne. rewrite bool_decide_eq_true_2 by done.
    apply map_size_insert_None. by apply eq_None_not_Some.
  - intros Hx. case_bool_decide; [|done]. by apply map_size_insert_Some.
  - intros Ht. rewrite bool_decide_eq_false_2 by done. split; [done|].
    by rewrite SetEvictable_tracked.
  - intros Hx. rewrite (map_size_delete_Some _ _ Hx).
    pose proof (map_size_ne_0_lookup_2 (evict_flag_ r) f Hx). lia.
  - intros Hne. apply map_size_delete_None. by apply eq_None_not_Some.
Qed.

(** X5.  After calls with frame ids that are not negative, a successful
    [Evict] lowers [Size()] by exactly one, removes all tracking of its
    victim and leaves every other frame as it was; a failed [Evict] changes
    the clock only. *)
Theorem Evict_lowers_Size_by_one n k r ok f r' :
  reachable_nonneg n k r → clock_ok r → Evict r = ((ok, f), r') →
  (ok = true →
     S (Size r') = Size r ∧
     hist_map_ r' = delete f (hist_map_ r) ∧
     last_map_ r' = delete f (last_map_ r) ∧
     evict_flag_ r' = delete f (evict_flag_ r)) ∧
  (ok = false → r' = tick r ∧ Size r' = Size r).
Proof.
  intros Hr Hck HE. apply reachable_nonneg_wf in Hr.
  destruct (Evict_in_wf _ _ r ok f r' Hr Hck (map_to_list_enumerates _)
              (map_to_list_enumerates _) HE) as (_ & Hfalse & Htrue).
  split.
  - intros Hok. destruct (Htrue Hok) as (Hx & _ & Hh & Hl & Hf & _).
    split_and!; try done. unfold Size. rewrite Hf.
    rewrite (map_size_delete_Some _ _ Hx).
    pose proof (map_size_ne_0_lookup_2 (evict_flag_ r) f Hx). lia.
  - intros Hok. by rewrite (Hfalse Hok).
Qed.

(** X6.  [Remove] erases every record of the frame, whether or not the frame
    is evictable, and leaves the other frames alone; the next [RecordAccess]
    of the frame starts a new history that holds the new timestamp only. *)
Theorem Remove_forgets_the_frame f r :
  hist_map_ (Remove f r) !! f = None ∧
  last_map_ (Remove f r) !! f = None ∧
  evict_flag_ (Remove f r) !! f = None ∧
  (∀ g, g ≠ f →
     hist_map_ (Remove f r) !! g = hist_map_ r !! g ∧
     last_map_ (Remove f r) !! g = last_map_ r !! g ∧
     evict_flag_ (Remove f r) !! g = evict_flag_ r !! g) ∧
  (f < static_cast_int (replacer_size_ r) → 1 < k_ r →
     hist_map_ (RecordAccess f (Remove f r)) !! f =
       Some [size_t_incr (size_t_incr (current_timestamp_ r))] ∧
     last_map_ (RecordAccess f (Remove f r)) !! f = None).
Proof.
  split_and!; cbn; rewrite ?lookup_delete_eq; try done.
  - intros g Hne. by rewrite !lookup_delete_ne by done.
  - intros Hlt Hk.
    rewrite (RecordAccess_history f (Remove f r)); cbn;
      [| done | apply lookup_delete_eq].
    rewrite lookup_delete_eq. cbn.
    rewrite (proj2 (Z.leb_gt _ _)) by lia. cbn.
    rewrite lookup_insert_eq, lookup_delete_eq. done.
Qed.

(** *** The iteration order of the maps *)

Lemma distinct_times_new n k : distinct_times (new_replacer n k).
Proof. split; intros *; cbn; by rewrite lookup_empty. Qed.

Lemma distinct_times_sub r r' :
  (∀ f h, hist_map_ r' !! f = Some h → hist_map_ r !! f = Some h) →
  (∀ f t, last_map_ r' !! f = Some t → last_map_ r !! f = Some t) →
  distinct_times r → distinct_times r'.
Proof.
  intros Hh Hl [D1 D2]. split.
  - intros f g hf hg Hf Hg. apply (D1 f g hf hg); auto.
  - intros f g t Hf Hg. apply (D2 f g t); auto.
Qed.

(** A new timestamp is above every recorded one. *)
Lemma distinct_last_insert r f :
  wf r → clock_ok r → distinct_times r →
  ∀ g1 g2 t,
    <[f := size_t_incr (current_timestamp_ r)]> (last_map_ r) !! g1 = Some t →
    <[f := size_t_incr (current_timestamp_ r)]> (last_map_ r) !! g2 = Some t →
    g1 = g2.
Proof.
  intros Hwf Hck [_ D2] g1 g2 t.
  rewrite (size_t_incr_small _ (wf_clock r Hwf) Hck).
  intros [[<- <-] | [Hn1 H1]]%lookup_insert_Some
         [[<- Ht] | [Hn2 H2]]%lookup_insert_Some; try done.
  - pose proof (wf_last_ts r Hwf _ _ H2). lia.
  - pose proof (wf_last_ts r Hwf _ _ H1). lia.
  - by apply (D2 g1 g2 t).
Qed.

Lemma distinct_times_RecordAccess f r :
  wf r → clock_ok r → distinct_times r → distinct_times (RecordAccess f r).
Proof.
  intros Hwf Hck HD. pose proof HD as [D1 D2].
  pose proof (size_t_incr_small _ (wf_clock r Hwf) Hck) as Hnow.
  destruct (Z.le_gt_cases (static_cast_int (replacer_size_ r)) f) as [Hge | Hlt].
  { rewrite RecordAccess_above by done. by split. }
  destruct (last_map_ r !! f) as [t0|] eqn:Hl.
  { rewrite (RecordAccess_steady f r t0) by done. split; cbn; [exact D1|].
    by apply distinct_last_insert. }
  rewrite RecordAccess_history by done. cbv zeta.
  destruct (k_ r <=? _); split; cbn.
  - intros g1 g2 h1 h2 [_ H1]%lookup_delete_Some [_ H2]%lookup_delete_Some.
    by apply D1.
  - by apply distinct_last_insert.
  - intros g1 g2 h1 h2 H1 H2 Hfr.
    assert (Hfront : ∀ g hg, g ≠ f → hist_map_ r !! g = Some hg →
       front (default [] (hist_map_ r !! f) ++ [size_t_incr (current_timestamp_ r)])
         = front hg → False).
    { intros g hg Hne Hg He. destruct (hist_map_ r !! f) as [old|] eqn:Hold; cbn in He.
      - destruct (wf_hist_front r Hwf _ _ Hold) as [Hnil _].
        rewrite front_app_ne in He by done.
        apply Hne. symmetry. by apply (D1 f g old hg).
      - destruct (wf_hist_front r Hwf _ _ Hg) as [_ Hb]. unfold front in He, Hb.
        cbn in He. rewrite Hnow in He. lia. }
    apply lookup_insert_Some in H1 as [[<- <-] | [Hn1 H1]];
      apply lookup_insert_Some in H2 as [[<- <-] | [Hn2 H2]]; try done.
    + exfalso. by apply (Hfront g2 h2).
    + exfalso. by apply (Hfront g1 h1).
    + by apply (D1 g1 g2 h1 h2).
  - exact D2.
Qed.

Lemma reachable_nonneg_distinct n k r : reachable_nonneg n k r → distinct_times r.
Proof.
  induction 1 as [| r c Hr IH Hck Hc]; [apply distinct_times_new|].
  pose proof (reachable_nonneg_wf n k r Hr) as Hwf.
  destruct c as [| f | f b | f]; cbn [run_call].
  - destruct (Evict r) as [[ok f] r'] eqn:HE. cbn.
    apply Evict_in_cases in HE
      as (_ & _ & _ & [[_ ->] | [(_ & _ & Hhm & Hlm & _) | (_ & Hhm & Hlm & _)]]).
    + done.
    + apply (distinct_times_sub r); [| | done]; rewrite ?Hhm, ?Hlm; try done.
      by intros g h [_ Hg]%lookup_delete_Some.
    + apply (distinct_times_sub r); [| | done]; rewrite ?Hhm, ?Hlm; try done.
      by intros g h [_ Hg]%lookup_delete_Some.
  - by apply distinct_times_RecordAccess.
  - destruct (SetEvictable_maps f b r) as (Hhm & Hlm & _).
    apply (distinct_times_sub r); [| | done]; by rewrite ?Hhm, ?Hlm.
  - apply (distinct_times_sub r); [| | done]; cbn;
      by intros g h [_ Hg]%lookup_delete_Some.
Qed.

(** With distinct timestamps the victim rule names one frame. *)
Lemma victim_rule_unique r f g :
  distinct_times r → evictable r f → evictable r g →
  victim_rule r f → victim_rule r g → f = g.
Proof.
  intros [D1 D2] Hf Hg [(hf & Hhf & Hminf) | (Hnof & tf & Htf & Hminf)]
                       [(hg & Hhg & Hming) | (Hnog & tg & Htg & Hming)].
  - apply (D1 f g hf hg); [done | done |].
    pose proof (Hminf g hg Hg Hhg). pose proof (Hming f hf Hf Hhf). lia.
  - rewrite (Hnog f Hf) in Hhf. done.
  - rewrite (Hnof g Hg) in Hhg. done.
  - pose proof (Hminf g tg Hg Htg). pose proof (Hming f tf Hf Htf).
    assert (tf = tg) as -> by lia. by apply (D2 f g tg).
Qed.

Lemma replacer_eq r r' :
  current_timestamp_ r = current_timestamp_ r' →
  replacer_size_ r = replacer_size_ r' → k_ r = k_ r' →
  hist_map_ r = hist_map_ r' → last_map_ r = last_map_ r' →
  evict_flag_ r = evict_flag_ r' → r = r'.
Proof. destruct r, r'; cbn; by intros -> -> -> -> -> ->. Qed.

(** X7.  After calls with frame ids that are not negative, the result of
    [Evict] does not depend on the order in which the two unordered maps are
    iterated: with any two enumerations of [hist_map_] and [last_map_] the
    loops select the same victim and leave the same state. *)
Theorem Evict_is_independent_of_iteration_order n k r hs ls hs' ls' :
  reachable_nonneg n k r → clock_ok r →
  enumerates hs (hist_map_ r) → enumerates ls (last_map_ r) →
  enumerates hs' (hist_map_ r) → enumerates ls' (last_map_ r) →
  Evict_in hs ls r = Evict_in hs' ls' r.
Proof.
  intros Hr Hck Hhs Hls Hhs' Hls'.
  pose proof (reachable_nonneg_distinct n k r Hr) as HD.
  apply reachable_nonneg_wf in Hr.
  destruct (Evict_in hs ls r) as [[ok f] r1] eqn:H1.
  destruct (Evict_in hs' ls' r) as [[ok' f'] r2] eqn:H2.
  destruct (Evict_in_wf hs ls r ok f r1 Hr Hck Hhs Hls H1) as (Hiff1 & Hfalse1 & Htrue1).
  destruct (Evict_in_wf hs' ls' r ok' f' r2 Hr Hck Hhs' Hls' H2)
    as (Hiff2 & Hfalse2 & Htrue2).
  assert (ok = ok') as <-.
  { destruct ok, ok'; try done.
    - destruct (Htrue1 eq_refl) as (He & _). by destruct (proj1 Hiff2 eq_refl f).
    - destruct (Htrue2 eq_refl) as (He & _). by destruct (proj1 Hiff1 eq_refl f'). }
  destruct ok.
  - destruct (Htrue1 eq_refl) as (He1 & Hv1 & Hh1 & Hl1 & Hf1 & _).
    destruct (Htrue2 eq_refl) as (He2 & Hv2 & Hh2 & Hl2 & Hf2 & _).
    assert (f = f') as <- by (by apply (victim_rule_unique r)).
    apply Evict_in_cases in H1 as (Hc1 & Hs1 & Hk1 & _).
    apply Evict_in_cases in H2 as (Hc2 & Hs2 & Hk2 & _).
    f_equal. apply replacer_eq; congruence.
  - rewrite (Hfalse1 eq_refl), (Hfalse2 eq_refl).
    apply Evict_in_false in H1 as [-> _]. apply Evict_in_false in H2 as [-> _]. done.
Qed.

(** *** The clock along a sequence of calls *)

Lemma RecordAccess_clock f r :
  current_timestamp_ (RecordAccess f r) = size_t_incr (current_timestamp_ r).
Proof. unfold RecordAccess. cbn. repeat case_match; done. Qed.

Lemma SetEvictable_clock f b r :
  current_timestamp_ (SetEvictable f b r) = size_t_incr (current_timestamp_ r).
Proof. unfold SetEvictable. cbn. repeat case_match; done. Qed.

(** A call on a well-formed state whose clock is [n + 1] ticks away from the
    wrap-around leaves a well-formed state [n] ticks away from it. *)
Lemma wf_step_RecordAccess f r n :
  wf r → 0 <= n → current_timestamp_ r + (n + 1) < SIZE_MOD → 0 <= f →
  wf (RecordAccess f r) ∧ current_timestamp_ (RecordAccess f r) + n < SIZE_MOD.
Proof.
  intros Hwf Hn Hc Hf. assert (Hck : clock_ok r) by (unfold clock_ok; lia).
  split; [by apply wf_RecordAccess|].
  rewrite RecordAccess_clock, size_t_incr_small; [lia | apply (wf_clock r Hwf) | done].
Qed.

Lemma wf_step_SetEvictable f b r n :
  wf r → 0 <= n → current_timestamp_ r + (n + 1) < SIZE_MOD →
  wf (SetEvictable f b r) ∧ current_timestamp_ (SetEvictable f b r) + n < SIZE_MOD.
Proof.
  intros Hwf Hn Hc. assert (Hck : clock_ok r) by (unfold clock_ok; lia).
  split; [by apply wf_SetEvictable|].
  rewrite SetEvictable_clock, size_t_incr_small; [lia | apply (wf_clock r Hwf) | done].
Qed.

Lemma wf_step_Remove f r n :
  wf r → 0 <= n → current_timestamp_ r + (n + 1) < SIZE_MOD →
  wf (Remove f r) ∧ current_timestamp_ (Remove f r) + n < SIZE_MOD.
Proof.
  intros Hwf Hn Hc. assert (Hck : clock_ok r) by (unfold clock_ok; lia).
  split; [by apply wf_Remove|]. cbn.
  rewrite size_t_incr_small; [lia | apply (wf_clock r Hwf) | done].
Qed.

Lemma wf_step_Evict r n res r' :
  wf r → 0 <= n → current_timestamp_ r + (n + 1) < SIZE_MOD →
  Evict r = (res, r') →
  wf r' ∧ current_timestamp_ r' + n < SIZE_MOD.
Proof.
  intros Hwf Hn Hc HE. assert (Hck : clock_ok r) by (unfold clock_ok; lia).
  split.
  - pose proof (wf_Evict r Hwf Hck) as H. by rewrite HE in H.
  - destruct res as [ok f]. apply Evict_in_cases in HE as (-> & _).
    rewrite size_t_incr_small; [lia | apply (wf_clock r Hwf) | done].
Qed.


(** *** Examples *)

Section Examples.
Import Examples.

Lemma reachable_rep : reachable_nonneg 4 2 rep.
Proof.
  unfold rep, rep_calls, run_calls. cbn [foldl].
  repeat (apply reachable_nonneg_call;
          [| vm_compute; reflexivity | cbn; try lia; exact I]).
  apply reachable_nonneg_new.
Defined.

Lemma clock_ok_rep : clock_ok rep.
Proof. vm_compute. reflexivity. Defined.

Lemma enumerates_reverse {A} (m : gmap Z A) :
  enumerates (reverse (map_to_list m)) m.
Proof. intros k a. rewrite elem_of_reverse. apply elem_of_map_to_list. Qed.

(** Frame 0 of [rep] has the history [[1]], shorter than K = 2. *)
Lemma history_frames_have_fewer_than_k_accesses_witness :
  [1] ≠ [] ∧ Z.of_nat (length [1]) < 2 ∧ last_map_ rep !! 0 = None.
Proof.
  apply (history_frames_have_fewer_than_k_accesses 4 2 rep_calls 0 [1]).
  vm_compute. reflexivity.
Defined.

(** Frame 2 of [rep] is flagged, hence tracked and below 4. *)
Lemma evictable_frames_are_tracked_witness :
  tracked rep 2 ∧ 2 < static_cast_int 4.
Proof.
  apply (evictable_frames_are_tracked 4 2 rep_calls 2).
  exists true. vm_compute. reflexivity.
Defined.

Lemma nonneg_rep_calls : Forall nonneg_call rep_calls.
Proof. unfold rep_calls. repeat constructor; cbn; lia. Defined.

Lemma Size_at_most_num_frames_witness : Z.of_nat (Size rep) <= 4.
Proof.
  apply (Size_at_most_num_frames 4 2 rep_calls).
  - unfold INT_MAX. lia.
  - apply nonneg_rep_calls.
Defined.

(** [Evict] on [rep] takes frame 0, the history-phase frame with the oldest
    first access. *)
Lemma Evict_after_nonneg_calls_witness :
  (true = false ↔ ∀ g, ¬ evictable rep g) ∧
  (true = true →
     evictable rep 0 ∧ victim_rule rep 0 ∧
     ¬ tracked (Evict rep).2 0 ∧ ¬ evictable (Evict rep).2 0).
Proof.
  apply (Evict_after_nonneg_calls 4 2 rep true 0 (Evict rep).2).
  - apply reachable_rep.
  - apply clock_ok_rep.
  - vm_compute. reflexivity.
Defined.

Lemma Evict_lowers_Size_by_one_witness :
  (true = true →
     S (Size (Evict rep).2) = Size rep ∧
     hist_map_ (Evict rep).2 = delete 0 (hist_map_ rep) ∧
     last_map_ (Evict rep).2 = delete 0 (last_map_ rep) ∧
     evict_flag_ (Evict rep).2 = delete 0 (evict_flag_ rep)) ∧
  (true = false → (Evict rep).2 = tick rep ∧ Size (Evict rep).2 = Size rep).
Proof.
  apply (Evict_lowers_Size_by_one 4 2 rep true 0 (Evict rep).2).
  - apply reachable_rep.
  - apply clock_ok_rep.
  - vm_compute. reflexivity.
Defined.

(** The two maps of [rep] iterated forwards and backwards. *)
Lemma Evict_is_independent_of_iteration_order_witness :
  Evict_in (map_to_list (hist_map_ rep)) (map_to_list (last_map_ rep)) rep =
  Evict_in (reverse (map_to_list (hist_map_ rep)))
           (reverse (map_to_list (last_map_ rep))) rep.
Proof.
  apply (Evict_is_independent_of_iteration_order 4 2 rep).
  - apply reachable_rep.
  - apply clock_ok_rep.
  - apply map_to_list_enumerates.
  - apply map_to_list_enumerates.
  - apply enumerates_reverse.
  - apply enumerates_reverse.
Defined.

End Examples.


End ReplacerProps.

(** * Further properties of the extendible hash table *)

Module EHTProps.
Import MachineInt EHT EHTFacts.
Local Open Scope Z_scope.

Section Props.
Context {K V : Type} `{EqDecision K} (hash : K → Z).
Abbreviation Table := (ExtendibleHashTable K V).

(** *** Lookups in a list of entries *)

Lemma find_filter_key key (P : K * V → Prop) `{∀ x, Decision (P x)}
    (l : list (K * V)) :
  (∀ kv, kv.1 = key → P kv) →
  find (has_key key) (filter P l) = find (has_key key) l.
Proof.
  intros HP. induction l as [|x l IH]; [done|].
  rewrite filter_cons. cbn [find]. unfold has_key at 2.
  destruct (decide (P x)) as [Hx | Hx].
  - cbn [find]. unfold has_key at 1. case_bool_decide; [done | exact IH].
  - rewrite bool_decide_eq_false_2; [exact IH|]. intros Hk. by apply Hx, HP.
Qed.

Lemma find_app_other key k value (l : list (K * V)) :
  k ≠ key →
  find (has_key k) (l ++ [(key, value)]) = find (has_key k) l.
Proof.
  intros Hne. induction l as [|x l IH]; cbn.
  - unfold has_key. cbn. by rewrite bool_decide_eq_false_2 by done.
  - by destruct (has_key k x).
Qed.

Lemma overwrite_find_other key k value (l l' : list (K * V)) :
  k ≠ key → overwrite key value l = Some l' →
  find (has_key k) l' = find (has_key k) l.
Proof.
  intros Hne. revert l'. induction l as [|x l IH]; intros l'; cbn; [done|].
  destruct (has_key key x) eqn:Hx.
  - intros [= <-]. cbn. unfold has_key in *. cbn.
    apply bool_decide_eq_true in Hx.
    by rewrite !bool_decide_eq_false_2 by congruence.
  - destruct (overwrite key value l) as [l0|]; [|done]. cbn. intros [= <-].
    cbn. destruct (has_key k x); [done | by apply IH].
Qed.

Lemma erase_first_find_other key k (l l' : list (K * V)) :
  k ≠ key → erase_first key l = Some l' →
  find (has_key k) l' = find (has_key k) l.
Proof.
  intros Hne. revert l'. induction l as [|x l IH]; intros l'; cbn; [done|].
  destruct (has_key key x) eqn:Hx.
  - intros [= <-]. unfold has_key in *. apply bool_decide_eq_true in Hx.
    by rewrite bool_decide_eq_false_2 by congruence.
  - destruct (erase_first key l) as [l0|]; [|done]. cbn. intros [= <-].
    cbn. destruct (has_key k x); [done | by apply IH].
Qed.

Lemma filter_length_lt {A} (P : A → Prop) `{∀ x, Decision (P x)} (l : list A) x :
  x ∈ l → ¬ P x → (length (filter P l) < length l)%nat.
Proof.
  intros Hin Hx. induction l as [|y l IH]; [by apply elem_of_nil in Hin|].
  rewrite filter_cons. pose proof (length_filter P l) as Hle.
  apply elem_of_cons in Hin as [<- | Hin].
  - rewrite decide_False by done. cbn. lia.
  - specialize (IH Hin). destruct (decide (P y)); cbn; lia.
Qed.

Lemma nodup_keys_unique (l : list (K * V)) k v1 v2 :
  NoDup l.*1 → (k, v1) ∈ l → (k, v2) ∈ l → v1 = v2.
Proof.
  induction l as [|x l IH]; [by intros _ ?%elem_of_nil|].
  rewrite fmap_cons. intros [Hx Hl]%NoDup_cons.
  intros [<- | H1]%elem_of_cons [Heq | H2]%elem_of_cons.
  - by injection Heq.
  - destruct Hx. by apply (list_elem_of_fmap_2 fst _ (k, v2)).
  - subst x. destruct Hx. by apply (list_elem_of_fmap_2 fst _ (k, v1)).
  - by apply IH.
Qed.

(** *** The slot of a key after one iteration of the loop *)

Lemma Find_target k (t : Table) g bg :
  target hash t k = Some (g, bg) → Find hash k t = Some (Bucket_Find k bg).
Proof. intros Ht. unfold Find. by rewrite Ht. Qed.

Lemma target_intro k (t : Table) g bg :
  dir_ t !! Z.to_nat (IndexOf hash t k) = Some g → heap_ t !! g = Some bg →
  target hash t k = Some (g, bg).
Proof. intros Hd Hb. unfold target, bucket_at. rewrite Hd. cbn. by rewrite Hb. Qed.

Lemma overflow_iteration_depth key (t t' : Table) h b :
  target hash t key = Some (h, b) → overflow_iteration hash key t = Some t' →
  depth_ b = global_depth_ t → global_depth_ t < 30.
Proof.
  intros Ht. unfold overflow_iteration. rewrite Ht. cbn. unfold GetDepth.
  intros Ho He. rewrite (proj2 (Z.eqb_eq _ _) He) in Ho.
  destruct (double_dir t) as [t1|] eqn:Hd; [|done].
  by destruct (double_dir_fields t t1 Hd).
Qed.

(** The slot of [k] in the grown and rewired directory: the slot it had, or
    the half of the split bucket that the bit [2^depth] of its hash
    selects. *)
Lemma key_slot (t t' : Table) h (b : Bucket K V) zero one k g :
  dir_inv t → 0 <= depth_ b <= global_depth_ t →
  let m := 2 ^ depth_ b in
  let doubled := bool_decide (depth_ b = global_depth_ t) in
  let grown := if doubled then dir_ t ++ dir_ t else dir_ t in
  global_depth_ t' = (if doubled then global_depth_ t + 1 else global_depth_ t) →
  (∀ i g, grown !! i = Some g →
     dir_ t' !! i =
       Some (if decide (g = h)
             then (if decide (Z.land (Z.of_nat i) m = 0) then zero else one)
             else g)) →
  dir_ t !! Z.to_nat (IndexOf hash t k) = Some g →
  dir_ t' !! Z.to_nat (IndexOf hash t' k) =
    Some (if decide (g = h)
          then (if decide (Z.land (hash k) m = 0) then zero else one)
          else g).
Proof.
  intros Hinv Hd m doubled grown Hgd Hwire Hg.
  pose proof Hinv as [Hd0 Hlen _ _].
  pose proof (IndexOf_range hash t k Hinv) as Hr.
  rewrite (IndexOf_mod hash t k Hd0) in Hg, Hr.
  assert (Hgd0 : 0 <= global_depth_ t') by (rewrite Hgd; destruct doubled; lia).
  rewrite (IndexOf_mod hash t' k Hgd0).
  pose proof (Z.mod_pos_bound (hash k) (2 ^ global_depth_ t) ltac:(lia)) as Hb0.
  pose proof (Z.mod_pos_bound (hash k) (2 ^ global_depth_ t') ltac:(lia)) as Hb1.
  assert (Hlt : depth_ b < global_depth_ t').
  { rewrite Hgd. unfold doubled. case_bool_decide; lia. }
  assert (Hgrown : grown !! Z.to_nat (hash k mod 2 ^ global_depth_ t') = Some g).
  { unfold grown, doubled in *. case_bool_decide as Hdb.
    - rewrite Hgd. rewrite mod_pow2_succ by done.
      destruct (Z.testbit (hash k) (global_depth_ t)); cbn [Z.b2z].
      + rewrite lookup_app_r by lia.
        rewrite <- Hg. f_equal. lia.
      + rewrite Z.mul_0_r, Z.add_0_r. by apply lookup_app_l_Some.
    - by rewrite Hgd. }
  rewrite (Hwire _ _ Hgrown). do 2 f_equal.
  rewrite Z2Nat.id by lia. unfold m.
  by rewrite land_mod_pow2 by lia.
Qed.

(** One iteration leaves the result of every lookup as it was. *)
Lemma overflow_iteration_Find key (t t' : Table) h b k :
  dir_inv t → target hash t key = Some (h, b) → IsFull b = true →
  overflow_iteration hash key t = Some t' →
  Find hash k t' = Find hash k t.
Proof.
  intros Hinv Ht Hfull Ho.
  pose proof (overflow_iteration_depth key t t' h b Ht Ho) as Hgd.
  destruct (overflow_iteration_fields hash t key h b Hinv Ht Hfull Hgd)
    as (t'' & zero & one & zb & ob & Ho' & Hgd' & _ & _ & _ & Hzo & Hz & Hon & _
        & Hzb & Hob & _ & _ & Hcz & Hco & Hwire & Hother & _).
  rewrite Ho in Ho'. injection Ho' as <-.
  pose proof Ht as [Hdir Hb]%target_Some.
  destruct (inv_slot t Hinv _ _ Hdir) as (_ & b' & Hb' & Hdb & _).
  rewrite Hb in Hb'. injection Hb' as <-.
  destruct (target_defined hash t k Hinv) as (g & bg & Htk & Hgk & Hbg).
  pose proof (key_slot t t' h b zero one k g Hinv Hdb Hgd' Hwire Hgk) as Hslot.
  rewrite (Find_target k t g bg Htk).
  destruct (decide (g = h)) as [-> | Hne].
  - rewrite Hb in Hbg. injection Hbg as <-.
    destruct (decide (Z.land (hash k) (2 ^ depth_ b) = 0)) as [Hbit | Hbit].
    + rewrite (Find_target k t' zero zb (target_intro k t' zero zb Hslot Hzb)).
      unfold Bucket_Find. rewrite Hcz. rewrite find_filter_key; [done|].
      by intros kv ->.
    + rewrite (Find_target k t' one ob (target_intro k t' one ob Hslot Hob)).
      unfold Bucket_Find. rewrite Hco. rewrite find_filter_key; [done|].
      by intros kv ->.
  - assert (Hg' : heap_ t' !! g = Some bg).
    { rewrite Hother; [done | done | |]; intros ->; congruence. }
    by rewrite (Find_target k t' g bg (target_intro k t' g bg Hslot Hg')).
Qed.

(** One iteration keeps every entry in the bucket of its key. *)
Lemma overflow_iteration_placed key (t t' : Table) h b :
  dir_inv t → placed hash t → target hash t key = Some (h, b) → IsFull b = true →
  overflow_iteration hash key t = Some t' → placed hash t'.
Proof.
  intros Hinv Hpl Ht Hfull Ho.
  pose proof (overflow_iteration_depth key t t' h b Ht Ho) as Hgd.
  destruct (overflow_iteration_fields hash t key h b Hinv Ht Hfull Hgd)
    as (t'' & zero & one & zb & ob & Ho' & Hgd' & _ & _ & _ & Hzo & Hz & Hon & Hh'
        & Hzb & Hob & _ & _ & Hcz & Hco & Hwire & Hother & _).
  rewrite Ho in Ho'. injection Ho' as <-.
  pose proof Ht as [Hdir Hb]%target_Some.
  destruct (inv_slot t Hinv _ _ Hdir) as (_ & b' & Hb' & Hdb & _).
  rewrite Hb in Hb'. injection Hb' as <-.
  intros g bg kv Hg Hkv.
  destruct (decide (g = zero)) as [-> | Hnz]; [|destruct (decide (g = one)) as [-> | Hno]].
  - rewrite Hzb in Hg. injection Hg as <-. rewrite Hcz in Hkv.
    apply list_elem_of_filter in Hkv as [Hbit Hkv].
    pose proof (Hpl h b kv Hb Hkv) as Hs.
    rewrite (key_slot t t' h b zero one kv.1 h Hinv Hdb Hgd' Hwire Hs).
    by rewrite !decide_True by done.
  - rewrite Hob in Hg. injection Hg as <-. rewrite Hco in Hkv.
    apply list_elem_of_filter in Hkv as [Hbit Hkv].
    pose proof (Hpl h b kv Hb Hkv) as Hs.
    rewrite (key_slot t t' h b zero one kv.1 h Hinv Hdb Hgd' Hwire Hs).
    rewrite decide_True by done. by rewrite decide_False by done.
  - assert (g ≠ h) by (intros ->; congruence).
    rewrite Hother in Hg by done.
    pose proof (Hpl g bg kv Hg Hkv) as Hs.
    rewrite (key_slot t t' h b zero one kv.1 g Hinv Hdb Hgd' Hwire Hs).
    by rewrite decide_False by done.
Qed.

Lemma split_loop_Find fuel key (t t' : Table) k :
  dir_inv t → split_loop hash fuel key t = Some t' →
  Find hash k t' = Find hash k t.
Proof.
  revert t. induction fuel as [|n IH]; intros t Hinv; cbn.
  - destruct (target hash t key) as [[h b]|]; [|done]. cbn.
    destruct (IsFull b); [done | by intros [= <-]].
  - destruct (target hash t key) as [[h b]|] eqn:Ht; [|done]. cbn.
    destruct (IsFull b) eqn:Hf; [| by intros [= <-]].
    destruct (overflow_iteration hash key t) as [t1|] eqn:Ho; [|done]. cbn.
    intros Hl. rewrite (IH t1 (overflow_iteration_inv hash key t t1 Hinv Ho) Hl).
    by apply (overflow_iteration_Find key t t1 h b).
Qed.

Lemma split_loop_placed fuel key (t t' : Table) :
  dir_inv t → placed hash t → split_loop hash fuel key t = Some t' →
  placed hash t'.
Proof.
  revert t. induction fuel as [|n IH]; intros t Hinv Hpl; cbn.
  - destruct (target hash t key) as [[h b]|]; [|done]. cbn.
    destruct (IsFull b); [done | by intros [= <-]].
  - destruct (target hash t key) as [[h b]|] eqn:Ht; [|done]. cbn.
    destruct (IsFull b) eqn:Hf; [| by intros [= <-]].
    destruct (overflow_iteration hash key t) as [t1|] eqn:Ho; [|done]. cbn.
    apply IH; [by apply (overflow_iteration_inv hash key t) |].
    by apply (overflow_iteration_placed key t t1 h b).
Qed.

(** *** Insert and Remove as updates of one key *)

Lemma set_bucket_Find_other h (b b' : Bucket K V) (t : Table) k :
  heap_ t !! h = Some b →
  find (has_key k) (cell_ b') = find (has_key k) (cell_ b) →
  Find hash k (set_bucket h b' t) = Find hash k t.
Proof.
  intros Hb Hf. unfold Find, target, bucket_at, IndexOf. cbn.
  destruct (dir_ t !! _) as [g|]; [|done]. cbn.
  destruct (decide (g = h)) as [-> | Hne].
  - rewrite lookup_insert_eq, Hb. cbn. unfold Bucket_Find. by rewrite Hf.
  - by rewrite lookup_insert_ne by done.
Qed.

Lemma set_bucket_placed h (b b' : Bucket K V) (t : Table) :
  placed hash t → heap_ t !! h = Some b →
  (∀ kv, kv ∈ cell_ b' →
     dir_ t !! Z.to_nat (IndexOf hash t kv.1) = Some h) →
  placed hash (set_bucket h b' t).
Proof.
  intros Hpl Hb Hnew g bg kv. cbn.
  intros [[<- <-] | [_ Hg]]%lookup_insert_Some Hkv.
  - by apply Hnew.
  - by apply (Hpl g bg).
Qed.

Lemma Insert_Find_other fuel key value (t t' : Table) k :
  dir_inv t → k ≠ key → Insert hash fuel key value t = Some t' →
  Find hash k t' = Find hash k t.
Proof.
  intros Hinv Hne. unfold Insert.
  destruct (split_loop hash fuel key t) as [t1|] eqn:Hl; [|done]. cbn.
  rewrite <- (split_loop_Find fuel key t t1 k Hinv Hl).
  destruct (target hash t1 key) as [[h b]|] eqn:Ht; [|done]. cbn.
  apply target_Some in Ht as [_ Hb]. unfold GetItems.
  destruct (overwrite key value (cell_ b)) as [l|] eqn:Ho; intros [= <-];
    apply (set_bucket_Find_other h b); try done.
  - cbn. by apply (overwrite_find_other key k value (cell_ b)).
  - unfold Bucket_Insert. case_match; [done|]. cbn. by apply find_app_other.
Qed.

Lemma Insert_placed fuel key value (t t' : Table) :
  dir_inv t → placed hash t → Insert hash fuel key value t = Some t' →
  placed hash t'.
Proof.
  intros Hinv Hpl. unfold Insert.
  destruct (split_loop hash fuel key t) as [t1|] eqn:Hl; [|done]. cbn.
  pose proof (split_loop_placed fuel key t t1 Hinv Hpl Hl) as Hpl1.
  destruct (target hash t1 key) as [[h b]|] eqn:Ht; [|done]. cbn.
  apply target_Some in Ht as [Hd Hb]. unfold GetItems.
  destruct (overwrite key value (cell_ b)) as [l|] eqn:Ho; intros [= <-];
    apply (set_bucket_placed h b); try done.
  - cbn. intros kv Hkv.
    assert (Hk : kv.1 ∈ (cell_ b).*1).
    { rewrite <- (overwrite_keys key value _ _ Ho). by apply list_elem_of_fmap_2. }
    apply list_elem_of_fmap in Hk as (kv0 & -> & Hkv0). by apply (Hpl1 h b).
  - intros kv Hkv. apply (Bucket_Insert_elem hash) in Hkv as [Hkv | ->];
      [by apply (Hpl1 h b) | done].
Qed.

Lemma Remove_Find_other key found (t t' : Table) k :
  k ≠ key → Remove hash key t = Some (found, t') →
  Find hash k t' = Find hash k t.
Proof.
  intros Hne. unfold Remove.
  destruct (target hash t key) as [[h b]|] eqn:Ht; [|done]. cbn.
  apply target_Some in Ht as [_ Hb]. unfold Bucket_Remove.
  destruct (erase_first key (cell_ b)) as [l|] eqn:He; intros [= <- <-];
    apply (set_bucket_Find_other h b); try done.
  cbn. by apply (erase_first_find_other key k (cell_ b)).
Qed.

Lemma Remove_placed key found (t t' : Table) :
  placed hash t → Remove hash key t = Some (found, t') → placed hash t'.
Proof.
  intros Hpl. unfold Remove.
  destruct (target hash t key) as [[h b]|] eqn:Ht; [|done]. cbn.
  apply target_Some in Ht as [_ Hb]. unfold Bucket_Remove.
  destruct (erase_first key (cell_ b)) as [l|] eqn:He; intros [= <- <-];
    apply (set_bucket_placed h b); try done.
  - cbn. intros kv Hkv. apply (Hpl h b); [done|].
    by apply (erase_first_elem key (cell_ b) l).
  - intros kv Hkv. by apply (Hpl h b).
Qed.

Lemma placed_new bs : placed hash (new_table (K:=K) (V:=V) bs).
Proof.
  intros h b kv Hb. cbn in Hb. apply lookup_singleton_Some in Hb as [<- <-].
  cbn. by intros ?%elem_of_nil.
Qed.

Lemma reachable_placed bs (t : Table) : reachable hash bs t → placed hash t.
Proof.
  induction 1 as [| t fuel key value t' Hr IH HI | t key found t' _ IH HR | ];
    [apply placed_new | | | done].
  - apply (Insert_placed fuel key value t); [|done..]. by apply (reachable_inv hash bs).
  - by apply (Remove_placed key found t).
Qed.

Lemma reachable_keys_nodup bs (t : Table) : reachable hash bs t → keys_nodup t.
Proof.
  induction 1 as [| t fuel key value t' Hr IH HI | t key found t' _ IH HR | ];
    [apply keys_nodup_new | | | done].
  - by apply (Insert_keys_nodup hash fuel key value t).
  - by apply (Remove_keys_nodup hash key found t).
Qed.

(** X8.  [Insert(key, value)] that returns updates the table at [key] and
    nowhere else: afterwards [Find(key)] yields [value], and [Find] of every
    other key yields what it yielded before, however many buckets were split
    on the way. *)
Theorem Insert_updates_one_key bs fuel key value (t t' : Table) k :
  0 <= bs → reachable hash bs t →
  Insert hash fuel key value t = Some t' →
  Find hash k t' = if decide (k = key) then Some (Some value) else Find hash k t.
Proof.
  intros Hbs Hr HI. destruct (decide (k = key)) as [-> | Hne].
  - by apply (Insert_Find hash bs fuel key value t).
  - apply (Insert_Find_other fuel key value t); [|done..].
    by apply (reachable_inv hash bs).
Qed.

(** X9.  [Remove(key)] returns whether the key was present, leaves it absent
    and leaves every other key as it was; the directory, the global depth and
    the bucket count do not change (buckets are never merged, the directory
    never shrinks). *)
Theorem Remove_deletes_one_key bs key (t : Table) :
  reachable hash bs t →
  ∃ res t',
    Find hash key t = Some res ∧
    Remove hash key t = Some (bool_decide (is_Some res), t') ∧
    (∀ k, Find hash k t' = if decide (k = key) then Some None else Find hash k t) ∧
    dir_ t' = dir_ t ∧ GetGlobalDepth t' = GetGlobalDepth t ∧
    GetNumBuckets t' = GetNumBuckets t.
Proof.
  intros Hr. pose proof (reachable_inv hash bs t Hr) as Hinv.
  destruct (Find_defined hash key t Hinv) as [res HF].
  destruct (Remove_spec hash key t res (reachable_keys_nodup bs t Hr) HF)
    as (t' & HR & HF' & Hd & Hg).
  exists res, t'. split_and!; try done.
  - intros k. destruct (decide (k = key)) as [-> | Hne]; [done|].
    by apply (Remove_Find_other key (bool_decide (is_Some res)) t).
  - unfold Remove in HR. destruct (target hash t key) as [[h b]|]; [|done].
    cbn in HR. destruct (Bucket_Remove key b). by injection HR as _ <-.
Qed.

Lemma found_entry_stored (t : Table) key value :
  Find hash key t = Some (Some value) →
  ∃ h b, heap_ t !! h = Some b ∧ (key, value) ∈ cell_ b.
Proof.
  unfold Find. destruct (target hash t key) as [[h b]|] eqn:Ht; [|done]. cbn.
  apply target_Some in Ht as [_ Hb]. intros [= Hf]. exists h, b. split; [done|].
  unfold Bucket_Find in Hf. destruct (find _ _) as [[k v]|] eqn:Hfind; [|done].
  injection Hf as ->. apply find_some in Hfind as [Hin Hk].
  unfold has_key in Hk. apply bool_decide_eq_true in Hk. cbn in Hk. subst k.
  by apply list_elem_of_In.
Qed.

Lemma stored_entry_found bs (t : Table) h b key value :
  reachable hash bs t → heap_ t !! h = Some b → (key, value) ∈ cell_ b →
  Find hash key t = Some (Some value).
Proof.
  intros Hr Hb Hin.
  pose proof (reachable_placed bs t Hr) as Hpl.
  pose proof (reachable_keys_nodup bs t Hr) as Hnd.
  pose proof (Hpl h b _ Hb Hin) as Hs. cbn in Hs.
  rewrite (Find_target key t h b (target_intro key t h b Hs Hb)).
  f_equal. unfold Bucket_Find.
  destruct (find (has_key key) (cell_ b)) as [[k v]|] eqn:Hfind.
  - apply find_some in Hfind as [Hin' Hk].
    unfold has_key in Hk. apply bool_decide_eq_true in Hk. cbn in Hk. subst k.
    apply list_elem_of_In in Hin'. cbn. f_equal.
    pose proof (Hnd h b Hb) as HN.
    by apply (nodup_keys_unique (cell_ b) key).
  - apply find_has_key_None in Hfind. destruct Hfind.
    by apply (list_elem_of_fmap_2 fst _ (key, value)).
Qed.

(** X10.  [Find(key)] yields [value] exactly when some bucket of the table
    holds the entry [(key, value)]: every entry is found, whatever bucket it
    is in, and no key is stored with two values. *)
Theorem Find_finds_exactly_the_entries bs (t : Table) key value :
  reachable hash bs t →
  (Find hash key t = Some (Some value) ↔
   ∃ h b, heap_ t !! h = Some b ∧ (key, value) ∈ cell_ b).
Proof.
  intros Hr. split.
  - apply found_entry_stored.
  - intros (h & b & Hb & Hin). by apply (stored_entry_found bs t h b).
Qed.

(** *** The number of buckets *)

Lemma size_list_to_set_le (l : list nat) :
  (size (list_to_set l : gset nat) <= length l)%nat.
Proof.
  induction l as [|x l IH]; [done|]. cbn [list_to_set length].
  destruct (decide (x ∈ (list_to_set l : gset nat))) as [Hin | Hout].
  - rewrite (subseteq_union_1_L {[x]} (list_to_set l)); [lia|].
    by apply singleton_subseteq_l.
  - rewrite size_union by (by apply disjoint_singleton_l).
    rewrite size_singleton. lia.
Qed.

Lemma small_bit_clear c d : 0 <= d → 0 <= c < 2 ^ d → Z.land c (2 ^ d) = 0.
Proof.
  intros Hd Hc. destruct (decide (Z.land c (2 ^ d) = 0)) as [|Hne]; [done|].
  rewrite <- (shiftl_1 d Hd) in Hne. apply land_bit in Hne; [|done].
  pose proof (mod_pow2_succ c d Hd) as Hm. rewrite Hne in Hm. cbn [Z.b2z] in Hm.
  rewrite (Z.mod_small c (2 ^ d)) in Hm by lia.
  assert (0 <= c < 2 ^ (d + 1)) by (rewrite Z.pow_add_r by lia; lia).
  rewrite Z.mod_small in Hm by done. lia.
Qed.

Lemma high_bit_set c d : 0 <= d → 0 <= c < 2 ^ d → Z.land (c + 2 ^ d) (2 ^ d) ≠ 0.
Proof.
  intros Hd Hc.
  assert (Hb : Z.testbit (c + 2 ^ d) d = true).
  { pose proof (mod_pow2_succ (c + 2 ^ d) d Hd) as Hm.
    assert (0 <= c + 2 ^ d < 2 ^ (d + 1)) by (rewrite Z.pow_add_r by lia; lia).
    rewrite Z.mod_small in Hm by done.
    replace ((c + 2 ^ d) mod 2 ^ d) with c in Hm.
    2:{ rewrite <- (Z.mul_1_l (2 ^ d)) at 1. rewrite Z.mod_add by lia.
        by rewrite Z.mod_small. }
    destruct (Z.testbit (c + 2 ^ d) d); [done|]. cbn [Z.b2z] in Hm. lia. }
  pose proof (proj2 (land_bit (c + 2 ^ d) d Hd) Hb) as Hn.
  by rewrite shiftl_1 in Hn.
Qed.

Lemma counted_new bs : counted (new_table (K:=K) (V:=V) bs).
Proof.
  split.
  - cbn [new_table bucket_cnt_ heap_]. by rewrite map_size_singleton.
  - intros h [b Hb]. cbn in Hb. apply lookup_singleton_Some in Hb as [<- _].
    apply list_elem_of_here.
Qed.

Lemma set_bucket_counted h (b b' : Bucket K V) (t : Table) :
  counted t → heap_ t !! h = Some b → counted (set_bucket h b' t).
Proof.
  intros [Hc Hr] Hb. split; cbn.
  - rewrite map_size_insert_Some by (by eexists). done.
  - intros g [x Hx]. cbn in Hx.
    apply lookup_insert_Some in Hx as [[<- _] | [_ Hx]]; apply Hr; by eexists.
Qed.

Lemma overflow_iteration_counted key (t t' : Table) h b :
  dir_inv t → counted t → target hash t key = Some (h, b) → IsFull b = true →
  overflow_iteration hash key t = Some t' → counted t'.
Proof.
  intros Hinv [Hcnt Href] Ht Hfull Ho.
  pose proof (overflow_iteration_depth key t t' h b Ht Ho) as Hgd.
  destruct (overflow_iteration_fields hash t key h b Hinv Ht Hfull Hgd)
    as (t'' & zero & one & zb & ob & Ho' & Hgd' & Hlen' & Hgrow & Hcnt' & Hzo & Hz & Hon
        & Hh' & Hzb & Hob & _ & _ & _ & _ & Hwire & Hother & _).
  rewrite Ho in Ho'. injection Ho' as <-.
  pose proof Ht as [Hdir Hb]%target_Some.
  pose proof Hinv as [Hd0 Hlen _ Hslot].
  destruct (Hslot _ _ Hdir) as (_ & b' & Hb' & Hdb & Hshare).
  rewrite Hb in Hb'. injection Hb' as <-.
  set (d := depth_ b) in *. set (i0 := Z.to_nat (IndexOf hash t key)) in *.
  set (doubled := bool_decide (d = global_depth_ t)) in *.
  set (grown := if doubled then dir_ t ++ dir_ t else dir_ t) in *.
  assert (Hgrown_l : ∀ i g, dir_ t !! i = Some g → grown !! i = Some g).
  { intros i g Hi. unfold grown. destruct doubled; [|done]. by apply lookup_app_l_Some. }
  (* the heap after the split *)
  assert (Hheap : ∀ g, heap_ t' !! g =
            if decide (g = zero) then Some zb
            else if decide (g = one) then Some ob
            else if decide (g = h) then None else heap_ t !! g).
  { intros g. repeat case_decide; subst; try done. by apply Hother. }
  assert (Hhz : h ≠ zero) by (intros ->; congruence).
  assert (Hho : h ≠ one) by (intros ->; congruence).
  assert (Hmap : heap_ t' = <[one := ob]> (<[zero := zb]> (delete h (heap_ t)))).
  { apply map_eq. intros g. rewrite Hheap.
    destruct (decide (g = zero)) as [-> | Hnz].
    { rewrite lookup_insert_ne by congruence. by rewrite lookup_insert_eq. }
    destruct (decide (g = one)) as [-> | Hno]; [by rewrite lookup_insert_eq|].
    rewrite !lookup_insert_ne by congruence.
    destruct (decide (g = h)) as [-> | Hnh]; [by rewrite lookup_delete_eq|].
    by rewrite lookup_delete_ne by congruence. }
  (* the low bits of the slots of the split bucket *)
  set (c := Z.of_nat i0 mod 2 ^ d).
  pose proof (Z.mod_pos_bound (Z.of_nat i0) (2 ^ d) ltac:(lia)) as Hc. fold c in Hc.
  assert (Hpow : 2 ^ d <= 2 ^ global_depth_ t) by (apply Z.pow_le_mono_r; lia).
  assert (Hcz : dir_ t !! Z.to_nat c = Some h).
  { apply Hshare; [lia|]. unfold same_low_bits. rewrite Z2Nat.id by lia.
    unfold c. by rewrite Z.mod_mod by lia. }
  split.
  - rewrite Hcnt', Hcnt, Hmap.
    rewrite map_size_insert_None
      by (rewrite lookup_insert_ne by done; by rewrite lookup_delete_ne).
    rewrite map_size_insert_None by (by rewrite lookup_delete_ne).
    rewrite map_size_delete_Some by (by eexists).
    pose proof (map_size_ne_0_lookup_2 (heap_ t) h ltac:(by eexists)). lia.
  - intros g [bg Hg]. rewrite Hheap in Hg.
    destruct (decide (g = zero)) as [-> | Hnz];
      [| destruct (decide (g = one)) as [-> | Hno];
         [| destruct (decide (g = h)) as [-> | Hnh]; [done|]]].
    + apply (list_elem_of_lookup_2 _ (Z.to_nat c)).
      rewrite (Hwire _ h (Hgrown_l _ _ Hcz)). rewrite decide_True by done.
      rewrite Z2Nat.id by lia. by rewrite decide_True by (apply small_bit_clear; lia).
    + assert (Hone : grown !! Z.to_nat (c + 2 ^ d) = Some h).
      { unfold grown, doubled. case_bool_decide as Hdd.
        - rewrite Hdd. rewrite lookup_app_r by lia.
          rewrite <- Hcz. f_equal. lia.
        - apply Hshare.
          + assert (2 ^ (d + 1) <= 2 ^ global_depth_ t) by (apply Z.pow_le_mono_r; lia).
            rewrite Z.pow_add_r in * by lia. lia.
          + unfold same_low_bits. rewrite Z2Nat.id by lia.
            rewrite <- (Z.mul_1_l (2 ^ d)) at 2. rewrite Z.mod_add by lia.
            unfold c. by rewrite Z.mod_mod by lia. }
      apply (list_elem_of_lookup_2 _ (Z.to_nat (c + 2 ^ d))).
      rewrite (Hwire _ h Hone). rewrite decide_True by done.
      rewrite Z2Nat.id by lia. by rewrite decide_False by (apply high_bit_set; lia).
    + destruct (list_elem_of_lookup_1 _ g (Href g ltac:(by eexists))) as [i Hi].
      apply (list_elem_of_lookup_2 _ i).
      rewrite (Hwire _ g (Hgrown_l _ _ Hi)). by rewrite decide_False by done.
Qed.

Lemma split_loop_counted fuel key (t t' : Table) :
  dir_inv t → counted t → split_loop hash fuel key t = Some t' → counted t'.
Proof.
  revert t. induction fuel as [|n IH]; intros t Hinv Hc; cbn.
  - destruct (target hash t key) as [[h b]|]; [|done]. cbn.
    destruct (IsFull b); [done | by intros [= <-]].
  - destruct (target hash t key) as [[h b]|] eqn:Ht; [|done]. cbn.
    destruct (IsFull b) eqn:Hf; [| by intros [= <-]].
    destruct (overflow_iteration hash key t) as [t1|] eqn:Ho; [|done]. cbn.
    apply IH; [by apply (overflow_iteration_inv hash key t) |].
    by apply (overflow_iteration_counted key t t1 h b).
Qed.

Lemma reachable_counted bs (t : Table) : reachable hash bs t → counted t.
Proof.
  induction 1 as [| t fuel key value t' Hr IH HI | t key found t' _ IH HR | ];
    [apply counted_new | | | done].
  - pose proof (reachable_inv hash bs t Hr) as Hinv. unfold Insert in HI.
    destruct (split_loop hash fuel key t) as [t1|] eqn:Hl; [|done]. cbn in HI.
    pose proof (split_loop_counted fuel key t t1 Hinv IH Hl) as Hc1.
    destruct (target hash t1 key) as [[h b]|] eqn:Ht; [|done]. cbn in HI.
    apply target_Some in Ht as [_ Hb].
    destruct (overwrite key value (GetItems b)); injection HI as <-;
      by apply (set_bucket_counted h b).
  - unfold Remove in HR.
    destruct (target hash t key) as [[h b]|] eqn:Ht; [|done]. cbn in HR.
    apply target_Some in Ht as [_ Hb].
    destruct (Bucket_Remove key b). injection HR as _ <-.
    by apply (set_bucket_counted h b).
Qed.

(** X11.  [GetNumBuckets()] is the number of distinct buckets that the slots
    of the directory point to; it is at least 1 and at most
    [2^GetGlobalDepth()], the number of slots. *)
Theorem GetNumBuckets_counts_distinct_buckets bs (t : Table) :
  reachable hash bs t →
  GetNumBuckets t = Z.of_nat (size (list_to_set (dir_ t) : gset nat)) ∧
  Z.of_nat (length (dir_ t)) = 2 ^ GetGlobalDepth t ∧
  1 <= GetNumBuckets t <= 2 ^ GetGlobalDepth t.
Proof.
  intros Hr. pose proof (reachable_inv hash bs t Hr) as Hinv.
  destruct (reachable_counted bs t Hr) as [Hcnt Href].
  pose proof Hinv as [Hd0 Hlen _ Hslot].
  assert (Hdom : dom (heap_ t) = (list_to_set (dir_ t) : gset nat)).
  { apply set_eq. intros g. rewrite elem_of_dom, elem_of_list_to_set. split.
    - apply Href.
    - intros [i Hi]%list_elem_of_lookup_1.
      destruct (Hslot _ _ Hi) as (_ & b & Hb & _). by eexists. }
  unfold GetNumBuckets, GetGlobalDepth. rewrite Hcnt, <- Hdom, size_dom.
  split; [done|]. split; [done|].
  pose proof (size_list_to_set_le (dir_ t)) as Hle.
  rewrite <- Hdom, size_dom in Hle.
  assert (H0 : (0 < length (dir_ t))%nat).
  { pose proof (Z.pow_pos_nonneg 2 (global_depth_ t) ltac:(lia) Hd0). lia. }
  apply lookup_lt_is_Some_2 in H0 as [h0 Hh0].
  destruct (Hslot _ _ Hh0) as (_ & b & Hb & _).
  pose proof (map_size_ne_0_lookup_2 (heap_ t) h0 ltac:(by eexists)). lia.
Qed.


(** *** When the loop of Insert ends *)

(** The entries of the target bucket of a key agree with the key on the low
    [local depth] bits of their hash. *)
Lemma bucket_entries_agree key (t : Table) h b kv :
  dir_inv t → placed hash t → target hash t key = Some (h, b) → kv ∈ cell_ b →
  hash kv.1 mod 2 ^ depth_ b = hash key mod 2 ^ depth_ b.
Proof.
  intros Hinv Hpl Ht Hkv. pose proof Ht as [Hdir Hb]%target_Some.
  pose proof Hinv as [Hd0 Hlen _ Hslot].
  destruct (Hslot _ _ Hdir) as (_ & b' & Hb' & Hdb & Hshare).
  rewrite Hb in Hb'. injection Hb' as <-.
  pose proof (Hpl h b kv Hb Hkv) as Hs.
  apply Hshare in Hs; [|by apply IndexOf_range].
  unfold same_low_bits in Hs.
  pose proof (IndexOf_range hash t key Hinv). pose proof (IndexOf_range hash t kv.1 Hinv).
  rewrite !(IndexOf_mod hash t _ Hd0) in *.
  pose proof (Z.mod_pos_bound (hash key) (2 ^ global_depth_ t) ltac:(lia)).
  pose proof (Z.mod_pos_bound (hash kv.1) (2 ^ global_depth_ t) ltac:(lia)).
  rewrite !Z2Nat.id in Hs by lia.
  assert (Hdiv : (2 ^ depth_ b | 2 ^ global_depth_ t)).
  { exists (2 ^ (global_depth_ t - depth_ b)). rewrite <- Z.pow_add_r by lia.
    f_equal. lia. }
  by rewrite !(Z.mod_mod_divide _ _ _ Hdiv) in Hs.
Qed.

Lemma agree_mod_le a c d d' :
  0 <= d <= d' → a mod 2 ^ d' = c mod 2 ^ d' → a mod 2 ^ d = c mod 2 ^ d.
Proof.
  intros [H0 Hle] He.
  assert (Hdiv : (2 ^ d | 2 ^ d')).
  { exists (2 ^ (d' - d)). rewrite <- Z.pow_add_r by lia. f_equal. lia. }
  rewrite <- (Z.mod_mod_divide a _ _ Hdiv), <- (Z.mod_mod_divide c _ _ Hdiv).
  by rewrite He.
Qed.

(** The loop ends within [30 - local depth] iterations when the target
    bucket is not full or holds an entry that differs from the key in the
    low 30 bits of the hash. *)
Lemma split_loop_returns n key : ∀ (t : Table) h b,
  dir_inv t → placed hash t → target hash t key = Some (h, b) →
  30 - depth_ b <= Z.of_nat n →
  (IsFull b = false ∨
   ∃ kv, kv ∈ cell_ b ∧ hash kv.1 mod 2 ^ 30 ≠ hash key mod 2 ^ 30) →
  ∃ t', split_loop hash n key t = Some t'.
Proof.
  induction n as [|n IH]; intros t h b Hinv Hpl Ht Hn Hcond.
  all: destruct (IsFull b) eqn:Hfull;
    [| exists t; by apply (split_loop_not_full hash _ key t h b)].
  all: destruct Hcond as [? | (kv & Hkv & Hdiff)]; [done|].
  all: pose proof Ht as [Hdir Hb]%target_Some.
  all: pose proof Hinv as [Hd0 Hlen Hhp Hslot].
  all: destruct (Hslot _ _ Hdir) as (_ & b' & Hb' & Hdb & _).
  all: rewrite Hb in Hb'; injection Hb' as <-.
  all: pose proof (bucket_entries_agree key t h b kv Hinv Hpl Ht Hkv) as Hagree.
  all: assert (Hd30 : depth_ b < 30)
    by (destruct (Z.lt_ge_cases (depth_ b) 30) as [|Hge]; [done|];
        destruct Hdiff; apply (agree_mod_le _ _ 30 (depth_ b)); [lia | done]).
  { lia. }
  destruct (overflow_iteration_fields hash t key h b Hinv Ht Hfull ltac:(lia))
    as (t1 & zero & one & zb & ob & Ho & Hgd' & _ & _ & _ & Hzo & Hz & Hon & _
        & Hzb & Hob & Hdz & Hdo & Hcz & Hco & Hwire & _ & _ & Hsz & Hso).
  rewrite (split_loop_full hash n key t h b Ht Hfull), Ho. cbn.
  pose proof (overflow_iteration_inv hash key t t1 Hinv Ho) as Hinv1.
  pose proof (overflow_iteration_placed key t t1 h b Hinv Hpl Ht Hfull Ho) as Hpl1.
  pose proof (key_slot t t1 h b zero one key h Hinv Hdb Hgd' Hwire Hdir) as Hslot1.
  rewrite decide_True in Hslot1 by done.
  destruct (Hhp _ _ Hb) as [_ Hsb]. apply Z.eqb_eq in Hfull.
  destruct (decide (Z.land (hash key) (2 ^ depth_ b) = 0)) as [Hbit | Hbit].
  - apply (IH t1 zero zb Hinv1 Hpl1 (target_intro key t1 zero zb Hslot1 Hzb));
      [lia|].
    destruct (decide (Z.land (hash kv.1) (2 ^ depth_ b) = 0)) as [Hk | Hk].
    + right. exists kv. split; [|done]. rewrite Hcz.
      by apply list_elem_of_filter.
    + left. unfold IsFull. apply Z.eqb_neq. rewrite Hcz, Hsz.
      pose proof (filter_length_lt
        (λ kv : K * V, Z.land (hash kv.1) (2 ^ depth_ b) = 0) (cell_ b) kv Hkv Hk).
      lia.
  - apply (IH t1 one ob Hinv1 Hpl1 (target_intro key t1 one ob Hslot1 Hob));
      [lia|].
    destruct (decide (Z.land (hash kv.1) (2 ^ depth_ b) = 0)) as [Hk | Hk].
    + left. unfold IsFull. apply Z.eqb_neq. rewrite Hco, Hso.
      pose proof (filter_length_lt
        (λ kv : K * V, Z.land (hash kv.1) (2 ^ depth_ b) ≠ 0) (cell_ b) kv Hkv
        ltac:(by intros ?)).
      lia.
    + right. exists kv. split; [|done]. rewrite Hco.
      by apply list_elem_of_filter.
Qed.

Lemma Insert_fuel_le fuel fuel' key value (t t' : Table) :
  (fuel <= fuel')%nat → Insert hash fuel key value t = Some t' →
  Insert hash fuel' key value t = Some t'.
Proof.
  induction 1 as [|m _ IH]; [done|].
  intros HI. by apply Insert_fuel_mono, IH.
Qed.

Lemma Insert_returns fuel key value (t : Table) h b :
  dir_inv t → placed hash t → target hash t key = Some (h, b) →
  (IsFull b = false ∨
   ∃ kv, kv ∈ cell_ b ∧ hash kv.1 mod 2 ^ 30 ≠ hash key mod 2 ^ 30) →
  (30 <= fuel)%nat →
  ∃ t', Insert hash fuel key value t = Some t'.
Proof.
  intros Hinv Hpl Ht Hcond Hfuel.
  pose proof Ht as [Hdir Hb]%target_Some.
  destruct (inv_slot t Hinv _ _ Hdir) as (_ & b' & Hb' & Hdb & _).
  rewrite Hb in Hb'. injection Hb' as <-.
  destruct (split_loop_returns 30 key t h b Hinv Hpl Ht ltac:(lia) Hcond) as [t1 Hl].
  pose proof (split_loop_inv hash 30 key t t1 Hinv Hl) as Hinv1.
  destruct (target_defined hash t1 key Hinv1) as (h1 & b1 & Ht1 & _).
  assert (HI : is_Some (Insert hash 30 key value t)).
  { unfold Insert. rewrite Hl. cbn. rewrite Ht1. cbn. by case_match. }
  destruct HI as [t' HI]. exists t'.
  by apply (Insert_fuel_le 30 fuel).
Qed.

(** X12.  [Insert] returns when the target bucket of the key has room, and
    also when it is full but holds an entry whose hash differs from the hash
    of the key in one of the low 30 bits: at most 30 iterations of the loop
    are needed, however many splits the key forces. *)
Theorem Insert_returns_unless_the_hashes_collide bs fuel key value (t : Table) h b :
  reachable hash bs t → target hash t key = Some (h, b) →
  (IsFull b = false ∨
   ∃ kv, kv ∈ cell_ b ∧ hash kv.1 mod 2 ^ 30 ≠ hash key mod 2 ^ 30) →
  (30 <= fuel)%nat →
  ∃ t', Insert hash fuel key value t = Some t'.
Proof.
  intros Hr Ht Hcond Hfuel.
  apply (Insert_returns fuel key value t h b); try done.
  - by apply (reachable_inv hash bs).
  - by apply (reachable_placed bs).
Qed.

(** X13.  When the target bucket of the key is full of entries whose hash
    equals the hash of the key, no split ever makes room: every iteration of
    the loop of [Insert] finds the target bucket full again, and [Insert] has
    not returned after any number of iterations. *)
Theorem Insert_never_returns_on_full_collision bs key value (t : Table) h b :
  reachable hash bs t → target hash t key = Some (h, b) → IsFull b = true →
  (∀ kv, kv ∈ cell_ b → hash kv.1 = hash key) →
  ∀ fuel, Insert hash fuel key value t = None.
Proof.
  intros Hr Ht Hfull Hsame fuel.
  apply Insert_stuck; [by apply (reachable_inv hash bs) |].
  by exists h, b.
Qed.

(** X14.  Every bucket of the table has the capacity given to the
    constructor, never holds more entries than that, and never holds a key
    twice. *)
Theorem buckets_stay_within_capacity bs (t : Table) h b :
  0 <= bs → reachable hash bs t → heap_ t !! h = Some b →
  size_ b = bs ∧ Z.of_nat (length (cell_ b)) <= bs ∧ NoDup (cell_ b).*1.
Proof.
  intros Hbs Hr Hb.
  pose proof (reachable_inv hash bs t Hr) as Hinv.
  destruct (inv_heap t Hinv h b Hb) as [_ Hsz].
  rewrite (reachable_bucket_size hash bs t Hr) in Hsz.
  pose proof (reachable_within_capacity hash bs t Hbs Hr h b Hb) as Hcap.
  split_and!; [done | lia |]. by apply (reachable_keys_nodup bs t Hr h).
Qed.


End Props.

(** *** Examples *)

Section Examples.
Import Examples.

Lemma Insert_tbl2 : Insert std_hash_int 1 0 102 tbl2 = Some tbl3.
Proof. vm_compute. reflexivity. Defined.

Lemma reachable_tbl_one : reachable std_hash_int 1 tbl_one.
Proof.
  apply (reachable_Insert _ _ (new_table 1) 0 0 100); [apply reachable_new|].
  vm_compute. reflexivity.
Defined.

(** The third Insert of the example splits the bucket of keys 0 and 1; key 1
    is found as before. *)
Lemma Insert_updates_one_key_witness :
  Find std_hash_int 1 tbl3 =
    if decide (1 = 0) then Some (Some 102) else Find std_hash_int 1 tbl2.
Proof.
  apply (Insert_updates_one_key std_hash_int 2 1 0 102 tbl2 tbl3 1).
  - lia.
  - apply reachable_tbl2.
  - apply Insert_tbl2.
Defined.

Lemma Remove_deletes_one_key_witness :
  ∃ res t',
    Find std_hash_int 0 tbl3 = Some res ∧
    Remove std_hash_int 0 tbl3 = Some (bool_decide (is_Some res), t') ∧
    (∀ k, Find std_hash_int k t' =
          if decide (k = 0) then Some None else Find std_hash_int k tbl3) ∧
    dir_ t' = dir_ tbl3 ∧ GetGlobalDepth t' = GetGlobalDepth tbl3 ∧
    GetNumBuckets t' = GetNumBuckets tbl3.
Proof.
  apply (Remove_deletes_one_key std_hash_int 2 0 tbl3).
  apply reachable_tbl3.
Defined.

Lemma Find_finds_exactly_the_entries_witness :
  Find std_hash_int 1 tbl3 = Some (Some 101) ↔
  ∃ h b, heap_ tbl3 !! h = Some b ∧ (1, 101) ∈ cell_ b.
Proof.
  apply (Find_finds_exactly_the_entries std_hash_int 2 tbl3 1 101).
  apply reachable_tbl3.
Defined.

Lemma GetNumBuckets_counts_distinct_buckets_witness :
  GetNumBuckets tbl3 = Z.of_nat (size (list_to_set (dir_ tbl3) : gset nat)) ∧
  Z.of_nat (length (dir_ tbl3)) = 2 ^ GetGlobalDepth tbl3 ∧
  1 <= GetNumBuckets tbl3 <= 2 ^ GetGlobalDepth tbl3.
Proof.
  apply (GetNumBuckets_counts_distinct_buckets std_hash_int 2 tbl3).
  apply reachable_tbl3.
Defined.

(** [Insert(2, 103)] into [tbl2], whose only bucket is full of the keys 0
    and 1: key 1 differs from key 2 in bit 0. *)
Lemma Insert_returns_unless_the_hashes_collide_witness :
  ∃ t', Insert std_hash_int 30 2 103 tbl2 = Some t'.
Proof.
  apply (Insert_returns_unless_the_hashes_collide std_hash_int 2 30 2 103 tbl2
           0%nat (mkBucket 2 0 [(0, 100); (1, 101)])).
  - apply reachable_tbl2.
  - vm_compute. reflexivity.
  - right. exists (1, 101). split.
    + cbn. apply list_elem_of_further, list_elem_of_here.
    + intros Heq. vm_compute in Heq. discriminate Heq.
  - lia.
Defined.

(** [Insert(0, 102)] into the table of bucket size 1 that holds key 0. *)
Lemma Insert_never_returns_on_full_collision_witness :
  Insert std_hash_int 100 0 102 tbl_one = None.
Proof.
  apply (Insert_never_returns_on_full_collision std_hash_int 1 0 102 tbl_one
           0%nat (mkBucket 1 0 [(0, 100)])).
  - apply reachable_tbl_one.
  - vm_compute. reflexivity.
  - vm_compute. reflexivity.
  - intros kv Hkv. cbn in Hkv. apply list_elem_of_singleton in Hkv. by subst kv.
Defined.

Lemma buckets_stay_within_capacity_witness :
  size_ (mkBucket 2 1 [(0, 102)]) = 2 ∧
  Z.of_nat (length (cell_ (mkBucket 2 1 [(0, 102)]))) <= 2 ∧
  NoDup (cell_ (mkBucket 2 1 [(0, 102)])).*1.
Proof.
  apply (buckets_stay_within_capacity std_hash_int 2 tbl3 1%nat).
  - lia.
  - apply reachable_tbl3.
  - vm_compute. reflexivity.
Defined.

End Examples.


End EHTProps.

(** * Further properties of the buffer pool manager *)

Module BPMProps.
Import MachineInt Replacer ReplacerFacts ReplacerProps EHTFacts EHTProps BPM BPMFacts.
Local Open Scope Z_scope.

#[local] Arguments SetEvictable : simpl never.
#[local] Arguments RecordAccess : simpl never.
#[local] Arguments Replacer.Remove : simpl never.
#[local] Arguments Evict : simpl never.
#[local] Arguments tick : simpl never.
#[local] Arguments zeroed : simpl never.
#[local] Arguments EHT.Insert : simpl never.
#[local] Arguments EHT.Remove : simpl never.
#[local] Arguments EHT.Find : simpl never.

Section Props.
Context (hash : Z → Z).

(** *** The page table of a reachable pool *)

Lemma acquire_frame_table (s s1 : BufferPoolManagerInstance) fr :
  EHT.reachable hash bucket_size_ (page_table_ s) →
  acquire_frame hash s = Some (fr, s1) →
  EHT.reachable hash bucket_size_ (page_table_ s1).
Proof.
  intros Hr. unfold acquire_frame.
  destruct (free_list_ s) as [|frame rest]; [|by intros [= <- <-]].
  destruct (Evict (replacer_ s)) as [[ok frame] r1].
  destruct ok; cbn [negb]; [|by intros [= <- <-]].
  destruct (page_at s frame) as [victim|]; [|done]. cbn.
  case_bool_decide; [|by intros [= <- <-]].
  destruct (EHT.Remove hash _ _) as [[found pt]|] eqn:Hrm; [|done]. cbn.
  intros [= <- <-]. cbn. eapply EHT.reachable_Remove; [exact Hr | exact Hrm].
Qed.

Lemma install_table fuel frame pid data nid (s s' : BufferPoolManagerInstance) :
  EHT.reachable hash bucket_size_ (page_table_ s) →
  install hash fuel frame pid data nid s = Some s' →
  EHT.reachable hash bucket_size_ (page_table_ s').
Proof.
  intros Hr. unfold install.
  destruct (page_at s frame); [|done]. cbn.
  destruct (EHT.Insert hash fuel pid frame _) as [pt|] eqn:HI; [|done]. cbn.
  intros [= <-]. cbn. eapply EHT.reachable_Insert; [exact Hr | exact HI].
Qed.

Lemma run_op_table o (s s' : BufferPoolManagerInstance) :
  EHT.reachable hash bucket_size_ (page_table_ s) →
  run_op hash o s = Some s' →
  EHT.reachable hash bucket_size_ (page_table_ s').
Proof.
  intros Hr. destruct o as [fuel | fuel pid | pid d | pid | | pid | wf wdata]; cbn.
  - unfold NewPgImp.
    destruct (acquire_frame hash s) as [[fr s1]|] eqn:Ha; [|done]. cbn.
    pose proof (acquire_frame_table s s1 fr Hr Ha) as Hr1.
    destruct fr as [frame|]; [| by intros [= <-]].
    destruct (install _ _ _ _ _ _ _) as [s2|] eqn:Hi; [|done]. cbn.
    intros [= <-]. by apply (install_table _ _ _ _ _ _ _ Hr1 Hi).
  - unfold FetchPgImp.
    destruct (EHT.Find hash pid _) as [[frame|]|]; [| |done]; cbn.
    + destruct (page_at s frame) as [page|]; [|done]. cbn.
      case_bool_decide; [done|]. by intros [= <-].
    + destruct (acquire_frame hash s) as [[fr s1]|] eqn:Ha; [|done]. cbn.
      pose proof (acquire_frame_table s s1 fr Hr Ha) as Hr1.
      destruct fr as [frame|]; [| by intros [= <-]].
      destruct (install _ _ _ _ _ _ _) as [s2|] eqn:Hi; [|done]. cbn.
      intros [= <-]. by apply (install_table _ _ _ _ _ _ _ Hr1 Hi).
  - unfold UnpinPgImp.
    destruct (EHT.Find hash pid _) as [[frame|]|]; [| by intros [= <-] | done]; cbn.
    destruct (page_at s frame) as [page|]; [|done]. cbn.
    destruct (pin_count_ page <=? 0); by intros [= <-].
  - unfold FlushPgImp.
    destruct (EHT.Find hash pid _) as [[frame|]|]; [| by intros [= <-] | done]; cbn.
    destruct (page_at s frame) as [page|]; [|done]. cbn. by intros [= <-].
  - by intros [= <-].
  - unfold DeletePgImp.
    destruct (EHT.Find hash pid _) as [[frame|]|]; [| by intros [= <-] | done]; cbn.
    destruct (page_at s frame) as [page|]; [|done]. cbn.
    destruct (0 <? pin_count_ page); [by intros [= <-]|].
    destruct (EHT.Remove hash pid _) as [[found pt]|] eqn:Hrm; [|done]. cbn.
    intros [= <-]. cbn. eapply EHT.reachable_Remove; [exact Hr | exact Hrm].
  - unfold write_data. destruct (page_at s wf) as [page|]; [|done]. cbn.
    destruct (0 <? pin_count_ page); [|done]. by intros [= <-].
Qed.

(** The page table of a pool is a table reached by [Insert], [Remove] and
    [Find] from a fresh table of bucket size 4. *)
Lemma page_table_reachable pool k disk (s : BufferPoolManagerInstance) :
  reachable hash pool k disk s → EHT.reachable hash bucket_size_ (page_table_ s).
Proof.
  induction 1 as [| s o s' _ IH Hstep]; [apply EHT.reachable_new|].
  by apply (run_op_table o s).
Qed.

(** *** Pin counts *)

Lemma int_max_pos : 1 <= INT_MAX.
Proof. unfold INT_MAX. lia. Qed.

Lemma acquire_frame_pins (s s1 : BufferPoolManagerInstance) fr :
  pins_ok s → acquire_frame hash s = Some (fr, s1) → pins_ok s1.
Proof.
  intros Hinv. unfold acquire_frame.
  destruct (free_list_ s) as [|frame rest]; [|by intros [= <- <-]].
  destruct (Evict (replacer_ s)) as [[ok frame] r1].
  destruct ok; cbn [negb]; [|by intros [= <- <-]].
  destruct (page_at s frame) as [victim|] eqn:Hv; [|done]. cbn.
  pose proof Hv as [Hf0 _]%page_at_Some.
  case_bool_decide; [|by intros [= <- <-]].
  destruct (EHT.Remove hash _ _) as [[found pt]|]; [|done]. cbn.
  intros [= <- <-]. intros g pg Hg. destruct s. simpl_bpm.
  apply page_at_insert_inv in Hg as [[-> ->] | [_ Hg]]; [| | done].
  - pose proof (Hinv frame victim Hv). by destruct (is_dirty_ victim).
  - by apply (Hinv g pg).
Qed.

Lemma install_pins fuel frame pid data nid (s s' : BufferPoolManagerInstance) :
  pins_ok s → install hash fuel frame pid data nid s = Some s' → pins_ok s'.
Proof.
  intros Hinv. unfold install.
  destruct (page_at s frame) as [p0|] eqn:Hp; [|done]. cbn.
  apply page_at_Some in Hp as [Hf0 _].
  destruct (EHT.Insert hash fuel pid frame _) as [pt|]; [|done]. cbn.
  intros [= <-]. intros g pg Hg. destruct s. simpl_bpm.
  apply page_at_insert_inv in Hg as [[-> ->] | [_ Hg]]; [| | done].
  - cbn. pose proof int_max_pos. lia.
  - by apply (Hinv g pg).
Qed.

Lemma run_op_pins o (s s' : BufferPoolManagerInstance) :
  pins_ok s → run_op hash o s = Some s' → pins_ok s'.
Proof.
  intros Hinv. destruct o as [fuel | fuel pid | pid d | pid | | pid | wf wdata]; cbn.
  - unfold NewPgImp.
    destruct (acquire_frame hash s) as [[fr s1]|] eqn:Ha; [|done]. cbn.
    pose proof (acquire_frame_pins s s1 fr Hinv Ha) as Hinv1.
    destruct fr as [frame|]; [| by intros [= <-]].
    destruct (install _ _ _ _ _ _ _) as [s2|] eqn:Hi; [|done]. cbn.
    intros [= <-]. by apply (install_pins _ _ _ _ _ _ _ Hinv1 Hi).
  - unfold FetchPgImp.
    destruct (EHT.Find hash pid _) as [[frame|]|]; [| |done]; cbn.
    + destruct (page_at s frame) as [page|] eqn:Hp; [|done]. cbn.
      pose proof Hp as [Hf0 _]%page_at_Some.
      case_bool_decide as Hmax; [done|]. intros [= <-].
      intros g pg Hg. destruct s. simpl_bpm.
      apply page_at_insert_inv in Hg as [[-> ->] | [_ Hg]]; [| | done].
      * pose proof (Hinv frame page Hp). cbn. lia.
      * by apply (Hinv g pg).
    + destruct (acquire_frame hash s) as [[fr s1]|] eqn:Ha; [|done]. cbn.
      pose proof (acquire_frame_pins s s1 fr Hinv Ha) as Hinv1.
      destruct fr as [frame|]; [| by intros [= <-]].
      destruct (install _ _ _ _ _ _ _) as [s2|] eqn:Hi; [|done]. cbn.
      intros [= <-]. by apply (install_pins _ _ _ _ _ _ _ Hinv1 Hi).
  - unfold UnpinPgImp.
    destruct (EHT.Find hash pid _) as [[frame|]|]; [| by intros [= <-] | done]; cbn.
    destruct (page_at s frame) as [page|] eqn:Hp; [|done]. cbn.
    pose proof Hp as [Hf0 _]%page_at_Some.
    destruct (Z.leb_spec (pin_count_ page) 0); [by intros [= <-]|].
    intros [= <-]. intros g pg Hg. destruct s. simpl_bpm.
    apply page_at_insert_inv in Hg as [[-> ->] | [_ Hg]]; [| | done].
    + pose proof (Hinv frame page Hp). cbn. lia.
    + by apply (Hinv g pg).
  - unfold FlushPgImp.
    destruct (EHT.Find hash pid _) as [[frame|]|]; [| by intros [= <-] | done]; cbn.
    destruct (page_at s frame) as [page|] eqn:Hp; [|done]. cbn.
    pose proof Hp as [Hf0 _]%page_at_Some.
    intros [= <-]. intros g pg Hg. destruct s. simpl_bpm.
    apply page_at_insert_inv in Hg as [[-> ->] | [_ Hg]]; [| | done].
    + by apply (Hinv frame page Hp).
    + by apply (Hinv g pg).
  - intros [= <-]. intros g pg Hg. apply page_at_Some in Hg as [Hg0 Hg].
    rewrite FlushAllPgsImp_pages, list_lookup_fmap in Hg.
    destruct (pages_ s !! Z.to_nat g) as [pg0|] eqn:Hg'; [|done].
    injection Hg as <-. rewrite flushed_pin.
    apply (Hinv g pg0). unfold page_at. by rewrite (proj2 (Z.ltb_ge _ _)) by done.
  - unfold DeletePgImp.
    destruct (EHT.Find hash pid _) as [[frame|]|]; [| by intros [= <-] | done]; cbn.
    destruct (page_at s frame) as [page|] eqn:Hp; [|done]. cbn.
    pose proof Hp as [Hf0 _]%page_at_Some.
    destruct (0 <? pin_count_ page); [by intros [= <-]|].
    destruct (EHT.Remove hash pid _) as [[found pt]|]; [|done]. cbn.
    intros [= <-]. intros g pg Hg. destruct s. simpl_bpm.
    apply page_at_insert_inv in Hg as [[-> ->] | [_ Hg]]; [| | done].
    + cbn. pose proof int_max_pos. lia.
    + by apply (Hinv g pg).
  - unfold write_data. destruct (page_at s wf) as [page|] eqn:Hp; [|done]. cbn.
    pose proof Hp as [Hf0 _]%page_at_Some.
    destruct (0 <? pin_count_ page); [|done].
    intros [= <-]. intros g pg Hg. destruct s. unfold set_page in Hg. simpl_bpm.
    apply page_at_insert_inv in Hg as [[-> ->] | [_ Hg]]; [| | done].
    + by apply (Hinv wf page Hp).
    + by apply (Hinv g pg).
Qed.

Lemma new_bpm_pins pool k disk : pins_ok (new_bpm pool k disk).
Proof.
  intros f page [_ Hp]%page_at_Some. cbn in Hp.
  apply lookup_replicate in Hp as [-> _]. cbn. pose proof int_max_pos. lia.
Qed.

Lemma reachable_pins pool k disk (s : BufferPoolManagerInstance) :
  reachable hash pool k disk s → pins_ok s.
Proof.
  induction 1 as [| s o s' _ IH Hstep]; [apply new_bpm_pins|].
  by apply (run_op_pins o s).
Qed.

(** X15.  On every run in which [pin_count_] does not overflow, no pin
    count is negative: [NewPgImp] and [FetchPgImp] leave a count of at least
    1, [UnpinPgImp] decrements a positive count only and [DeletePgImp] resets
    the count to 0.  (The [FetchPgImp] of a resident page whose count is
    INT_MAX overflows the [int]: that step is undefined and no run takes
    it.) *)
Theorem pin_counts_are_never_negative pool k disk
    (s : BufferPoolManagerInstance) f page :
  reachable hash pool k disk s → page_at s f = Some page →
  0 <= pin_count_ page.
Proof.
  intros Hr Hp. by destruct (reachable_pins pool k disk s Hr f page Hp).
Qed.


(** *** Frame ids *)

Lemma acquire_frame_pool_size (s s1 : BufferPoolManagerInstance) fr :
  acquire_frame hash s = Some (fr, s1) →
  pool_size_ s1 = pool_size_ s ∧ next_page_id_ s1 = next_page_id_ s.
Proof.
  unfold acquire_frame.
  destruct (free_list_ s) as [|frame rest]; [|by intros [= <- <-]].
  destruct (Evict (replacer_ s)) as [[ok frame] r1].
  destruct ok; cbn [negb]; [|by intros [= <- <-]].
  destruct (page_at s frame) as [victim|]; [|done]. cbn.
  case_bool_decide; [|by intros [= <- <-]].
  destruct (EHT.Remove hash _ _) as [[found pt]|]; [|done]. cbn.
  by intros [= <- <-].
Qed.

Lemma install_pool_size fuel frame pid data nid (s s' : BufferPoolManagerInstance) :
  install hash fuel frame pid data nid s = Some s' → pool_size_ s' = pool_size_ s.
Proof.
  unfold install. destruct (page_at s frame); [|done]. cbn.
  destruct (EHT.Insert hash fuel pid frame _); [|done]. cbn. by intros [= <-].
Qed.

Lemma run_op_pool_size o (s s' : BufferPoolManagerInstance) :
  run_op hash o s = Some s' → pool_size_ s' = pool_size_ s.
Proof.
  destruct o as [fuel | fuel pid | pid d | pid | | pid | wf wdata]; cbn.
  - unfold NewPgImp.
    destruct (acquire_frame hash s) as [[fr s1]|] eqn:Ha; [|done]. cbn.
    destruct (acquire_frame_pool_size s s1 fr Ha) as [Hps _].
    destruct fr as [frame|]; [| by intros [= <-]].
    destruct (install _ _ _ _ _ _ _) as [s2|] eqn:Hi; [|done]. cbn.
    intros [= <-]. by rewrite (install_pool_size _ _ _ _ _ _ _ Hi).
  - unfold FetchPgImp.
    destruct (EHT.Find hash pid _) as [[frame|]|]; [| |done]; cbn.
    + destruct (page_at s frame) as [page|]; [|done]. cbn.
      case_bool_decide; [done|]. by intros [= <-].
    + destruct (acquire_frame hash s) as [[fr s1]|] eqn:Ha; [|done]. cbn.
      destruct (acquire_frame_pool_size s s1 fr Ha) as [Hps _].
      destruct fr as [frame|]; [| by intros [= <-]].
      destruct (install _ _ _ _ _ _ _) as [s2|] eqn:Hi; [|done]. cbn.
      intros [= <-]. by rewrite (install_pool_size _ _ _ _ _ _ _ Hi).
  - unfold UnpinPgImp.
    destruct (EHT.Find hash pid _) as [[frame|]|]; [| by intros [= <-] | done]; cbn.
    destruct (page_at s frame) as [page|]; [|done]. cbn.
    destruct (pin_count_ page <=? 0); by intros [= <-].
  - unfold FlushPgImp.
    destruct (EHT.Find hash pid _) as [[frame|]|]; [| by intros [= <-] | done]; cbn.
    destruct (page_at s frame) as [page|]; [|done]. cbn. by intros [= <-].
  - by intros [= <-].
  - unfold DeletePgImp.
    destruct (EHT.Find hash pid _) as [[frame|]|]; [| by intros [= <-] | done]; cbn.
    destruct (page_at s frame) as [page|]; [|done]. cbn.
    destruct (0 <? pin_count_ page); [by intros [= <-]|].
    destruct (EHT.Remove hash pid _) as [[found pt]|]; [|done]. cbn.
    by intros [= <-].
  - unfold write_data. destruct (page_at s wf) as [page|]; [|done]. cbn.
    destruct (0 <? pin_count_ page); [|done]. by intros [= <-].
Qed.

Lemma reachable_pool_size pool k disk (s : BufferPoolManagerInstance) :
  reachable hash pool k disk s → pool_size_ s = pool.
Proof.
  induction 1 as [| s o s' _ IH Hstep]; [done|].
  by rewrite (run_op_pool_size o s s' Hstep).
Qed.

(** X16.  In a pool whose size fits an [int], every frame id that the
    manager keeps is an index of the frame array: the ids in the free list,
    the ids stored in the page table and the ids tracked by the replacer all
    lie in [0, pool_size), and the array has [pool_size] frames. *)
Theorem frame_ids_stay_in_bounds pool k disk (s : BufferPoolManagerInstance) :
  0 <= pool <= INT_MAX → reachable hash pool k disk s →
  pool_size_ s = pool ∧ Z.of_nat (length (pages_ s)) = pool ∧
  (∀ f, f ∈ free_list_ s → 0 <= f < pool ∧ is_Some (page_at s f)) ∧
  (∀ pid f, EHT.Find hash pid (page_table_ s) = Some (Some f) →
            0 <= f < pool ∧ is_Some (page_at s f)) ∧
  (∀ f, tracked (replacer_ s) f → 0 <= f < pool ∧ is_Some (page_at s f)).
Proof.
  intros Hpool Hr. pose proof (reachable_bpm_inv hash pool k disk s Hpool Hr) as Hinv.
  pose proof (reachable_pool_size pool k disk s Hr) as Hps.
  pose proof Hinv as [_ Hpages _ Hfree _ _ Hvals Htr _].
  unfold in_pool in *. rewrite Hps in *.
  assert (Hin : ∀ f, 0 <= f < pool → 0 <= f < pool ∧ is_Some (page_at s f)).
  { intros f Hf. split; [done|]. apply (page_at_in_pool s f Hinv).
    unfold in_pool. by rewrite Hps. }
  split_and!; [done | done | | |].
  - intros f Hf. by apply Hin, Hfree.
  - intros pid f HF. apply Hin.
    apply (Find_values_in hash _ _ _ _ Hvals HF).
  - intros f Hf. by apply Hin, Htr.
Qed.

(** *** FlushAllPages *)

Lemma flush_frames_disk (pages acc : list Page) (d : DiskManager) :
  (foldl flush_frame (acc, d) pages).2 = reverse (omap flush_write pages) ++ d.
Proof.
  revert acc d. induction pages as [|p pages IH]; intros acc d; [done|].
  cbn [foldl].
  destruct (flush_frame (acc, d) p) as [acc' d'] eqn:E. rewrite IH.
  change (omap flush_write (p :: pages)) with
    (match flush_write p with
     | Some w => w :: omap flush_write pages
     | None => omap flush_write pages
     end).
  unfold flush_frame in E. cbn [fst snd] in E.
  assert (Hw : flush_write p =
                 if bool_decide (page_id_ p ≠ INVALID_PAGE_ID)
                 then Some (page_id_ p, data_ p) else None) by done.
  rewrite Hw.
  destruct (bool_decide (page_id_ p ≠ INVALID_PAGE_ID)); injection E as <- <-.
  - rewrite reverse_cons, <- app_assoc. done.
  - done.
Qed.

(** X17.  [FlushAllPgsImp] writes every frame that holds a page, in the
    order of the frame array and whatever its dirty flag, and clears the
    dirty flag of these frames; frames that hold no page are skipped, and
    pin counts, page ids, the page table, the replacer and the free list are
    left as they are. *)
Theorem FlushAllPgsImp_spec (s : BufferPoolManagerInstance) :
  pages_ (FlushAllPgsImp s) = flushed <$> pages_ s ∧
  disk_manager_ (FlushAllPgsImp s) =
    reverse (omap flush_write (pages_ s)) ++ disk_manager_ s ∧
  (∀ f page, page_at s f = Some page →
     page_at (FlushAllPgsImp s) f =
       Some (if bool_decide (page_id_ page ≠ INVALID_PAGE_ID)
             then mkPage (data_ page) (page_id_ page) (pin_count_ page) false
             else page)) ∧
  page_table_ (FlushAllPgsImp s) = page_table_ s ∧
  replacer_ (FlushAllPgsImp s) = replacer_ s ∧
  free_list_ (FlushAllPgsImp s) = free_list_ s ∧
  next_page_id_ (FlushAllPgsImp s) = next_page_id_ s ∧
  pool_size_ (FlushAllPgsImp s) = pool_size_ s.
Proof.
  split_and!; try done.
  - apply FlushAllPgsImp_pages.
  - unfold FlushAllPgsImp. cbn. apply flush_frames_disk.
  - intros f page [Hf0 Hp]%page_at_Some. unfold page_at.
    rewrite (proj2 (Z.ltb_ge _ _)) by done.
    rewrite FlushAllPgsImp_pages, list_lookup_fmap, Hp. done.
Qed.


(** *** Allocation of a frame *)

Lemma page_eta (p : Page) :
  p = mkPage (data_ p) (page_id_ p) (pin_count_ p) (is_dirty_ p).
Proof. by destruct p. Qed.

(** The frame selection on a reachable state: the front of the free list,
    or an evictable frame of pin count 0, written back when it is dirty and
    unmapped when it holds a page. *)
Lemma acquire_frame_Some pool k disk (s s1 : BufferPoolManagerInstance) f :
  0 <= pool <= INT_MAX → reachable hash pool k disk s →
  acquire_frame hash s = Some (Some f, s1) →
  (∃ rest, free_list_ s = f :: rest ∧ free_list_ s1 = rest ∧
     pages_ s1 = pages_ s ∧ disk_manager_ s1 = disk_manager_ s ∧
     page_table_ s1 = page_table_ s ∧ replacer_ s1 = replacer_ s)
  ∨ (free_list_ s = [] ∧ free_list_ s1 = [] ∧
     ∃ victim r1,
       Evict (replacer_ s) = ((true, f), r1) ∧ evictable (replacer_ s) f ∧
       page_at s f = Some victim ∧ pin_count_ victim = 0 ∧
       let resident := bool_decide (page_id_ victim ≠ INVALID_PAGE_ID) in
       disk_manager_ s1 =
         (if resident && is_dirty_ victim
          then WritePage (page_id_ victim) (data_ victim) (disk_manager_ s)
          else disk_manager_ s) ∧
       page_at s1 f =
         Some (mkPage (data_ victim) (page_id_ victim) (pin_count_ victim)
                      (if resident then false else is_dirty_ victim)) ∧
       (∀ g, g ≠ f → page_at s1 g = page_at s g) ∧
       (∀ key, EHT.Find hash key (page_table_ s1) =
               if resident && bool_decide (key = page_id_ victim)
               then Some None else EHT.Find hash key (page_table_ s)) ∧
       replacer_ s1 = (if resident then Replacer.Remove f r1 else r1)).
Proof.
  intros Hpool Hr.
  pose proof (reachable_bpm_inv hash pool k disk s Hpool Hr) as Hinv.
  pose proof (reachable_pins pool k disk s Hr) as Hpins.
  pose proof Hinv as [_ Hpages _ _ Htab Hkeys _ Htr Hpin].
  unfold acquire_frame.
  destruct (free_list_ s) as [|frame rest] eqn:Hfl.
  2:{ intros [= <- <-]. left. by exists rest. }
  destruct (Evict (replacer_ s)) as [[ok frame] r1] eqn:HE.
  destruct ok; cbn [negb]; [|done].
  destruct (Evict_true _ _ _ HE) as (Htf & _).
  pose proof (Htr _ Htf) as Hin.
  assert (Hev : evictable (replacer_ s) frame).
  { destruct (Evict_true_flagged _ _ _ HE) as [? | ->]; [done|]. destruct Hin. lia. }
  destruct (page_at s frame) as [victim|] eqn:Hv; [|done]. cbn.
  pose proof Hv as [Hf0 Hv']%page_at_Some.
  assert (Hvpin : pin_count_ victim = 0).
  { pose proof (Hpins _ _ Hv) as [H0 _].
    destruct (Z.le_gt_cases (pin_count_ victim) 0) as [? | Hgt]; [lia|].
    destruct (Hpin _ _ Hv) as [_ Hne]; [lia | done]. }
  case_bool_decide as Hres.
  - destruct (EHT.Remove hash _ _) as [[found pt]|] eqn:Hrm; [|done]. cbn.
    intros [= <- <-]. right. split; [done|]. split; [done|].
    exists victim, r1. cbv zeta. rewrite !(bool_decide_eq_true_2 _ Hres).
    cbn. split_and!; try done.
    + destruct s. simpl_bpm. rewrite page_at_insert by done.
      rewrite decide_True by done.
      rewrite decide_True by (by apply lookup_lt_Some in Hv').
      destruct (is_dirty_ victim) eqn:Hd; [done|].
      f_equal. rewrite <- Hd. apply page_eta.
    + intros g Hg. destruct s. simpl_bpm. rewrite page_at_insert by done.
      by rewrite decide_False by done.
    + intros key. case_bool_decide as Hk; cbn.
      * subst key.
        destruct (Find_defined hash (page_id_ victim) _ Htab) as [res HF].
        destruct (Remove_spec hash _ _ res Hkeys HF) as (pt' & Hrm' & HF' & _).
        rewrite Hrm in Hrm'. by injection Hrm' as _ <-.
      * by apply (Remove_Find_other hash (page_id_ victim) found).
  - intros [= <- <-]. right. split; [done|]. split; [done|].
    exists victim, r1. cbv zeta. rewrite !bool_decide_eq_false_2 by (intros Hn; by apply Hn).
    cbn. split_and!; try done.
    change (page_at s frame = Some (mkPage (data_ victim) (page_id_ victim)
                                       (pin_count_ victim) (is_dirty_ victim))).
    rewrite Hv. f_equal. apply page_eta.
Qed.

(** The common tail of the two allocating operations. *)
Lemma install_Some fuel f pid data nid (s1 s' : BufferPoolManagerInstance) :
  bpm_inv s1 → EHT.reachable hash bucket_size_ (page_table_ s1) → in_pool s1 f →
  install hash fuel f pid data nid s1 = Some s' →
  page_at s' f = Some (mkPage data pid 1 false) ∧
  (∀ g, g ≠ f → page_at s' g = page_at s1 g) ∧
  EHT.Find hash pid (page_table_ s') = Some (Some f) ∧
  (∀ key, key ≠ pid →
     EHT.Find hash key (page_table_ s') = EHT.Find hash key (page_table_ s1)) ∧
  replacer_ s' = SetEvictable f false (RecordAccess f (replacer_ s1)) ∧
  tracked (replacer_ s') f ∧ ¬ evictable (replacer_ s') f ∧
  disk_manager_ s' = disk_manager_ s1 ∧ free_list_ s' = free_list_ s1 ∧
  next_page_id_ s' = nid ∧ pool_size_ s' = pool_size_ s1.
Proof.
  intros Hinv Hrt Hin. pose proof (cast_size s1 Hinv) as Hcast.
  unfold install.
  destruct (page_at s1 f) as [p0|] eqn:Hp; [|done]. cbn.
  pose proof Hp as [Hf0 Hp']%page_at_Some.
  destruct (EHT.Insert hash fuel pid f _) as [pt|] eqn:HI; [|done]. cbn.
  intros [= <-]. simpl_bpm. split_and!; try done.
  - destruct s1. simpl_bpm. rewrite page_at_insert by done.
    rewrite decide_True by done.
    by rewrite decide_True by (by apply lookup_lt_Some in Hp').
  - intros g Hg. destruct s1. simpl_bpm. rewrite page_at_insert by done.
    by rewrite decide_False by done.
  - apply (Insert_Find hash bucket_size_ fuel pid f (page_table_ s1)); try done.
  - intros key Hk.
    apply (Insert_Find_other hash fuel pid f (page_table_ s1)); try done.
    by apply (reachable_inv hash bucket_size_).
  - apply SetEvictable_tracked, RecordAccess_tracked. right.
    split; [done|]. rewrite Hcast. apply Hin.
  - intros [x Hx]. by rewrite SetEvictable_false_flag, lookup_delete_eq in Hx.
Qed.


Lemma allocation_spec pool k disk fuel f pid data nid
    (s s1 s' : BufferPoolManagerInstance) :
  0 <= pool <= INT_MAX → reachable hash pool k disk s →
  acquire_frame hash s = Some (Some f, s1) →
  install hash fuel f pid data nid s1 = Some s' →
  disk_manager_ s' = disk_manager_ s1 ∧ next_page_id_ s1 = next_page_id_ s ∧
  0 <= f < pool ∧
  page_at s' f = Some (mkPage data pid 1 false) ∧
  (∀ g, g ≠ f → page_at s' g = page_at s g) ∧
  EHT.Find hash pid (page_table_ s') = Some (Some f) ∧
  tracked (replacer_ s') f ∧ ¬ evictable (replacer_ s') f ∧
  next_page_id_ s' = nid ∧
  ((∃ rest, free_list_ s = f :: rest ∧ free_list_ s' = rest ∧
      disk_manager_ s' = disk_manager_ s ∧
      (∀ key, key ≠ pid →
         EHT.Find hash key (page_table_ s') = EHT.Find hash key (page_table_ s)) ∧
      replacer_ s' = SetEvictable f false (RecordAccess f (replacer_ s)))
   ∨ (free_list_ s = [] ∧ free_list_ s' = [] ∧
      ∃ victim r1,
        Evict (replacer_ s) = ((true, f), r1) ∧ evictable (replacer_ s) f ∧
        page_at s f = Some victim ∧ pin_count_ victim = 0 ∧
        let resident := bool_decide (page_id_ victim ≠ INVALID_PAGE_ID) in
        disk_manager_ s' =
          (if resident && is_dirty_ victim
           then WritePage (page_id_ victim) (data_ victim) (disk_manager_ s)
           else disk_manager_ s) ∧
        (∀ key, key ≠ pid →
           EHT.Find hash key (page_table_ s') =
             if resident && bool_decide (key = page_id_ victim)
             then Some None else EHT.Find hash key (page_table_ s)) ∧
        replacer_ s' =
          SetEvictable f false
            (RecordAccess f (if resident then Replacer.Remove f r1 else r1)))).
Proof.
  intros Hpool Hr Ha Hi.
  pose proof (reachable_bpm_inv hash pool k disk s Hpool Hr) as Hinv.
  pose proof (reachable_pool_size pool k disk s Hr) as Hps.
  destruct (acquire_frame_inv hash s s1 (Some f) Hinv Ha) as (Hinv1 & Hps1 & Hfr).
  pose proof (Hfr f eq_refl) as Hin. unfold in_pool in Hin. rewrite Hps in Hin.
  destruct (acquire_frame_pool_size s s1 (Some f) Ha) as [_ Hnid].
  pose proof (acquire_frame_table s s1 (Some f) (page_table_reachable pool k disk s Hr) Ha)
    as Hrt1.
  destruct (install_Some fuel f pid data nid s1 s' Hinv1 Hrt1) as
    (Hpf & Hpg & HFp & HFo & Hrep & Htr & Hne & Hdisk & Hfl & Hn' & _); [| exact Hi |].
  { unfold in_pool. rewrite Hps1, Hps. exact Hin. }
  split; [exact Hdisk|]. split; [exact Hnid|]. split; [exact Hin|].
  split; [exact Hpf|]. split.
  { intros g Hg. rewrite (Hpg g Hg).
    destruct (acquire_frame_Some pool k disk s s1 f Hpool Hr Ha)
      as [(rest & _ & _ & Hpages & _)
         | (_ & _ & victim & r1 & _ & _ & _ & _ & _ & _ & Hoth & _)].
    + unfold page_at. by rewrite Hpages.
    + by apply Hoth. }
  split; [exact HFp|]. split; [exact Htr|]. split; [exact Hne|].
  split; [exact Hn'|].
  destruct (acquire_frame_Some pool k disk s s1 f Hpool Hr Ha)
      as [(rest & Hf1 & Hf2 & Hpages & Hd1 & Ht1 & Hr1)
         | (Hf1 & Hf2 & victim & r1 & HE & Hev & Hv & Hvp & Hd1 & _ & _ & Ht1 & Hr1)].
  - left. exists rest. rewrite Hfl, Hdisk, Hrep, Hr1, Hd1. split_and!; try done.
    intros key Hk. rewrite (HFo key Hk). by rewrite Ht1.
  - right. rewrite Hfl, Hdisk, Hrep. split; [done|]. split; [done|].
    exists victim, r1. cbv zeta in *. rewrite Hr1, Hd1. split_and!; try done.
    intros key Hk. rewrite (HFo key Hk). apply Ht1.
Qed.

(** X18.  A [NewPgImp] that returns a page: the page id is the value of the
    counter, which advances by one; the frame comes from the front of the
    free list when the list is not empty (the replacer is not asked), and
    otherwise it is the victim of [Evict], an evictable frame of pin count 0
    whose page is written to disk iff it is dirty and loses its page-table
    entry; the frame then holds the new page zero-filled, clean and pinned
    once, the page table maps the new id to it and no other mapping changes,
    and the frame is tracked and not evictable. *)
Theorem NewPgImp_spec pool k disk fuel pid f (s s' : BufferPoolManagerInstance) :
  0 <= pool <= INT_MAX → reachable hash pool k disk s →
  NewPgImp hash fuel s = Some (Some (pid, f), s') →
  pid = next_page_id_ s ∧ next_page_id_ s' = int_wrap (pid + 1) ∧
  0 <= f < pool ∧
  page_at s' f = Some (mkPage zeroed pid 1 false) ∧
  (∀ g, g ≠ f → page_at s' g = page_at s g) ∧
  EHT.Find hash pid (page_table_ s') = Some (Some f) ∧
  tracked (replacer_ s') f ∧ ¬ evictable (replacer_ s') f ∧
  ((∃ rest, free_list_ s = f :: rest ∧ free_list_ s' = rest ∧
      disk_manager_ s' = disk_manager_ s ∧
      (∀ key, key ≠ pid →
         EHT.Find hash key (page_table_ s') = EHT.Find hash key (page_table_ s)) ∧
      replacer_ s' = SetEvictable f false (RecordAccess f (replacer_ s)))
   ∨ (free_list_ s = [] ∧ free_list_ s' = [] ∧
      ∃ victim r1,
        Evict (replacer_ s) = ((true, f), r1) ∧ evictable (replacer_ s) f ∧
        page_at s f = Some victim ∧ pin_count_ victim = 0 ∧
        let resident := bool_decide (page_id_ victim ≠ INVALID_PAGE_ID) in
        disk_manager_ s' =
          (if resident && is_dirty_ victim
           then WritePage (page_id_ victim) (data_ victim) (disk_manager_ s)
           else disk_manager_ s) ∧
        (∀ key, key ≠ pid →
           EHT.Find hash key (page_table_ s') =
             if resident && bool_decide (key = page_id_ victim)
             then Some None else EHT.Find hash key (page_table_ s)) ∧
        replacer_ s' =
          SetEvictable f false
            (RecordAccess f (if resident then Replacer.Remove f r1 else r1)))).
Proof.
  intros Hpool Hr. unfold NewPgImp.
  destruct (acquire_frame hash s) as [[fr s1]|] eqn:Ha; [|done]. cbn.
  destruct fr as [frame|]; [|done].
  destruct (install _ _ _ _ _ _ _) as [s2|] eqn:Hi; [|done]. cbn.
  intros [= <- <- <-].
  destruct (allocation_spec pool k disk fuel frame _ _ _ s s1 s2 Hpool Hr Ha Hi)
    as (_ & Hnid & H).
  rewrite Hnid in *. destruct_and! H. split_and!; try done.
Qed.

(** X19.  A [FetchPgImp] of a page that is not in the page table and that
    returns a page: the frame is chosen as for [NewPgImp] (free list first,
    else an evictable victim of pin count 0, written back iff dirty and
    unmapped); the frame then holds the bytes that the disk has for the page
    after the write-back, clean and pinned once; the page table maps the
    page to the frame, and the page-id counter does not move. *)
Theorem FetchPgImp_miss_spec pool k disk fuel pid f (s s' : BufferPoolManagerInstance) :
  0 <= pool <= INT_MAX → reachable hash pool k disk s →
  EHT.Find hash pid (page_table_ s) = Some None →
  FetchPgImp hash fuel pid s = Some (Some f, s') →
  next_page_id_ s' = next_page_id_ s ∧
  0 <= f < pool ∧
  page_at s' f = Some (mkPage (ReadPage pid (disk_manager_ s')) pid 1 false) ∧
  (∀ g, g ≠ f → page_at s' g = page_at s g) ∧
  EHT.Find hash pid (page_table_ s') = Some (Some f) ∧
  tracked (replacer_ s') f ∧ ¬ evictable (replacer_ s') f ∧
  ((∃ rest, free_list_ s = f :: rest ∧ free_list_ s' = rest ∧
      disk_manager_ s' = disk_manager_ s ∧
      (∀ key, key ≠ pid →
         EHT.Find hash key (page_table_ s') = EHT.Find hash key (page_table_ s)) ∧
      replacer_ s' = SetEvictable f false (RecordAccess f (replacer_ s)))
   ∨ (free_list_ s = [] ∧ free_list_ s' = [] ∧
      ∃ victim r1,
        Evict (replacer_ s) = ((true, f), r1) ∧ evictable (replacer_ s) f ∧
        page_at s f = Some victim ∧ pin_count_ victim = 0 ∧
        let resident := bool_decide (page_id_ victim ≠ INVALID_PAGE_ID) in
        disk_manager_ s' =
          (if resident && is_dirty_ victim
           then WritePage (page_id_ victim) (data_ victim) (disk_manager_ s)
           else disk_manager_ s) ∧
        (∀ key, key ≠ pid →
           EHT.Find hash key (page_table_ s') =
             if resident && bool_decide (key = page_id_ victim)
             then Some None else EHT.Find hash key (page_table_ s)) ∧
        replacer_ s' =
          SetEvictable f false
            (RecordAccess f (if resident then Replacer.Remove f r1 else r1)))).
Proof.
  intros Hpool Hr HF. unfold FetchPgImp. rewrite HF. cbn.
  destruct (acquire_frame hash s) as [[fr s1]|] eqn:Ha; [|done]. cbn.
  destruct fr as [frame|]; [|done].
  destruct (install _ _ _ _ _ _ _) as [s2|] eqn:Hi; [|done]. cbn.
  intros [= <- <-].
  destruct (allocation_spec pool k disk fuel frame _ _ _ s s1 s2 Hpool Hr Ha Hi)
    as (Hd & Hnid & H).
  rewrite Hnid, <- Hd in *. destruct_and! H. split_and!; try done.
Qed.

(** X20.  A [FetchPgImp] of a page that is in the page table returns its
    frame with the pin count raised by one; the bytes, the page id and the
    dirty flag of the frame are kept, the disk is neither read nor written,
    the page table, the free list and the page-id counter are unchanged, and
    the frame is not evictable afterwards. *)
Theorem FetchPgImp_hit_spec pool k disk fuel pid f (s : BufferPoolManagerInstance) :
  0 <= pool <= INT_MAX → reachable hash pool k disk s →
  EHT.Find hash pid (page_table_ s) = Some (Some f) →
  ∃ page, page_at s f = Some page ∧
    (pin_count_ page < INT_MAX →
     ∃ s', FetchPgImp hash fuel pid s = Some (Some f, s') ∧
       page_at s' f =
         Some (mkPage (data_ page) (page_id_ page) (pin_count_ page + 1)
                      (is_dirty_ page)) ∧
       (∀ g, g ≠ f → page_at s' g = page_at s g) ∧
       replacer_ s' = SetEvictable f false (RecordAccess f (replacer_ s)) ∧
       tracked (replacer_ s') f ∧ ¬ evictable (replacer_ s') f ∧
       disk_manager_ s' = disk_manager_ s ∧ page_table_ s' = page_table_ s ∧
       free_list_ s' = free_list_ s ∧ next_page_id_ s' = next_page_id_ s ∧
       pool_size_ s' = pool_size_ s).
Proof.
  intros Hpool Hr HF.
  pose proof (reachable_bpm_inv hash pool k disk s Hpool Hr) as Hinv.
  pose proof (cast_size s Hinv) as Hcast.
  pose proof (Find_values_in hash _ _ _ _ (bi_values s Hinv) HF) as Hin.
  destruct (page_at_in_pool s f Hinv Hin) as [page Hp].
  pose proof Hp as [Hf0 Hl]%page_at_Some.
  exists page. split; [done|]. intros Hlt.
  unfold FetchPgImp. rewrite HF. cbn. rewrite Hp. cbn.
  rewrite bool_decide_eq_false_2 by lia.
  eexists. split; [done|]. simpl_bpm. split_and!; try done.
  - destruct s. simpl_bpm. rewrite page_at_insert by done.
    rewrite decide_True by done.
    by rewrite decide_True by (by apply lookup_lt_Some in Hl).
  - intros g Hg. destruct s. simpl_bpm. rewrite page_at_insert by done.
    by rewrite decide_False by done.
  - apply SetEvictable_tracked, RecordAccess_tracked. right.
    split; [done|]. rewrite Hcast. apply Hin.
  - intros [x Hx]. by rewrite SetEvictable_false_flag, lookup_delete_eq in Hx.
Qed.


(** *** Valid runs *)

Lemma reachable_valid_reachable pool k disk (s : BufferPoolManagerInstance) :
  reachable_valid hash pool k disk s → reachable hash pool k disk s.
Proof.
  induction 1 as [| s o s' _ IH _ Hstep]; [apply reachable_new|].
  by apply (reachable_step hash pool k disk s o).
Qed.

Lemma page_at_set (s : BufferPoolManagerInstance) f p g page nid disk pt r fl :
  page_at s f = Some page →
  page_at (mkBPM (pool_size_ s) nid (<[Z.to_nat f := p]> (pages_ s)) disk pt r fl) g =
    if decide (g = f) then Some p else page_at s g.
Proof.
  intros [Hf0 Hl]%page_at_Some. destruct s. simpl_bpm.
  rewrite page_at_insert by done. case_decide; [|done].
  rewrite decide_True; [done | by apply lookup_lt_Some in Hl].
Qed.

Lemma mapped_not_free (s : BufferPoolManagerInstance) pid f :
  consistent hash s → EHT.Find hash pid (page_table_ s) = Some (Some f) →
  f ∉ free_list_ s.
Proof.
  intros Hco HF Hin.
  destruct (co_mapped hash s Hco pid f HF) as [Hv (pg & Hg & Hid)].
  destruct (co_free hash s Hco f Hin) as [Hpg _].
  rewrite Hpg in Hg. injection Hg as <-. cbn in Hid. unfold INVALID_PAGE_ID in Hid. lia.
Qed.

(** An operation that rewrites one frame that holds a page. *)
Lemma consistent_update_frame (s : BufferPoolManagerInstance) f page page' disk r' :
  consistent hash s → page_at s f = Some page → f ∉ free_list_ s →
  page_id_ page' = page_id_ page →
  wf r' →
  (∀ g, tracked r' g ↔ tracked (replacer_ s) g) →
  (∀ g, g ≠ f → (evictable r' g ↔ evictable (replacer_ s) g)) →
  (evictable r' f ↔ pin_count_ page' = 0) →
  consistent hash
    (mkBPM (pool_size_ s) (next_page_id_ s) (<[Z.to_nat f := page']> (pages_ s))
           disk (page_table_ s) r' (free_list_ s)).
Proof.
  intros Hco Hp Hnf Hid Hwf Htr Hev Hevf.
  destruct Hco as [Hnext _ Hmap Hfree Hnd Hused].
  split; simpl_bpm; try done.
  - intros pid g HF. destruct (Hmap pid g HF) as [Hv (pg & Hg & Hpid)].
    split; [done|]. rewrite (page_at_set s f page' g page) by done.
    case_decide as Hgf; [|by exists pg].
    subst g. rewrite Hp in Hg. injection Hg as <-. exists page'. by rewrite Hid.
  - intros g Hg. destruct (Hfree g Hg) as [Hpg Hnt].
    rewrite (page_at_set s f page' g page) by done.
    rewrite decide_False by (by intros ->). split; [done|]. by rewrite Htr.
  - intros g pg Hg Hgf. rewrite (page_at_set s f page' g page) in Hg by done.
    case_decide as Heq.
    + subst g. injection Hg as <-.
      destruct (Hused f page Hp Hnf) as (Hv & Ht & _).
      rewrite Hid, Htr. done.
    + destruct (Hused g pg Hg Hgf) as (Hv & Ht & He).
      rewrite Htr, (Hev g Heq). done.
Qed.

(** An operation that only touches the replacer, leaving the tracked and
    the flagged frames as they are. *)
Lemma consistent_set_replacer (s : BufferPoolManagerInstance) r' :
  consistent hash s → wf r' →
  (∀ g, tracked r' g ↔ tracked (replacer_ s) g) →
  (∀ g, evictable r' g ↔ evictable (replacer_ s) g) →
  consistent hash (set_replacer r' s).
Proof.
  intros [Hnext _ Hmap Hfree Hnd Hused] Hwf Htr Hev.
  split; try done.
  - intros g Hg. destruct (Hfree g Hg) as [Hpg Hnt]. split; [done|].
    cbn. by rewrite Htr.
  - intros g pg Hg Hgf. destruct (Hused g pg Hg Hgf) as (Hv & Ht & He).
    cbn. rewrite Htr, Hev. done.
Qed.

Lemma cast_seqZ pool :
  0 <= pool <= INT_MAX → static_cast_int <$> seqZ 0 pool = seqZ 0 pool.
Proof.
  intros Hpool. apply list_eq. intros i. rewrite list_lookup_fmap.
  destruct (seqZ 0 pool !! i) as [x|] eqn:E; [|done]. cbn.
  apply lookup_seqZ in E as [-> Hi]. f_equal. apply static_cast_int_small. lia.
Qed.

Lemma new_bpm_consistent pool k disk :
  0 <= pool <= INT_MAX → consistent hash (new_bpm pool k disk).
Proof.
  intros Hpool. split; cbn.
  - done.
  - apply wf_new.
  - intros pid f HF. apply found_entry_stored in HF as (h & b & Hb & Hin).
    cbn in Hb. apply lookup_singleton_Some in Hb as [_ <-].
    by apply elem_of_nil in Hin.
  - intros f Hf. rewrite cast_seqZ in Hf by done. apply elem_of_seqZ in Hf.
    split.
    + unfold page_at. cbn. rewrite (proj2 (Z.ltb_ge _ _)) by lia.
      apply lookup_replicate_2. lia.
    + intros [[x Hx] | [x Hx]]; done.
  - rewrite cast_seqZ by done. apply NoDup_seqZ.
  - intros f page [Hf0 Hp]%page_at_Some Hnf. cbn in Hp.
    apply lookup_replicate in Hp as [_ Hlt]. destruct Hnf.
    rewrite cast_seqZ by done. apply elem_of_seqZ. lia.
Qed.

(** *** The operations keep the state consistent *)

Lemma FetchPgImp_hit_consistent fuel pid f (s s' : BufferPoolManagerInstance) res :
  consistent hash s → pins_ok s → current_timestamp_ (replacer_ s) + 4 < SIZE_MOD →
  EHT.Find hash pid (page_table_ s) = Some (Some f) →
  FetchPgImp hash fuel pid s = Some (res, s') → consistent hash s'.
Proof.
  intros Hco Hpins Hck HF. unfold FetchPgImp. rewrite HF. cbn.
  destruct (page_at s f) as [page|] eqn:Hp; [|done]. cbn.
  pose proof Hp as [Hf0 _]%page_at_Some.
  case_bool_decide; [done|]. intros [= <- <-].
  pose proof (mapped_not_free s pid f Hco HF) as Hnf.
  destruct (co_used hash s Hco f page Hp Hnf) as (_ & Htf & _).
  destruct (wf_step_RecordAccess f (replacer_ s) 3 (co_wf hash s Hco)) as [Hwf1 Hc1];
    [lia | lia | done |].
  destruct (wf_step_SetEvictable f false _ 2 Hwf1) as [Hwf2 _]; [lia | lia |].
  apply (consistent_update_frame s f page); try done.
  - intros g. rewrite SetEvictable_tracked, RecordAccess_tracked.
    split; [intros [? | [-> _]]; done | by left].
  - intros g Hg. unfold evictable.
    rewrite SetEvictable_false_flag, RecordAccess_evict_flag.
    by rewrite lookup_delete_ne by done.
  - unfold evictable. rewrite SetEvictable_false_flag, lookup_delete_eq. cbn.
    pose proof (Hpins f page Hp). split; [by intros [? ?] | lia].
Qed.

Lemma UnpinPgImp_consistent pid d (s s' : BufferPoolManagerInstance) res :
  consistent hash s → pins_ok s → current_timestamp_ (replacer_ s) + 4 < SIZE_MOD →
  UnpinPgImp hash pid d s = Some (res, s') → consistent hash s'.
Proof.
  intros Hco Hpins Hck. unfold UnpinPgImp.
  destruct (EHT.Find hash pid _) as [[f|]|] eqn:HF; [| by intros [= <- <-] | done]; cbn.
  destruct (page_at s f) as [page|] eqn:Hp; [|done]. cbn.
  destruct (Z.leb_spec (pin_count_ page) 0); [by intros [= <- <-]|].
  intros [= <- <-].
  pose proof (mapped_not_free s pid f Hco HF) as Hnf.
  destruct (co_used hash s Hco f page Hp Hnf) as (_ & Htf & Hef).
  destruct (wf_step_SetEvictable f true (replacer_ s) 3 (co_wf hash s Hco))
    as [Hwf1 _]; [lia | lia |].
  apply (consistent_update_frame s f page); try done.
  - destruct (_ =? 0); [done | apply (co_wf hash s Hco)].
  - intros g. destruct (_ =? 0); [apply SetEvictable_tracked | done].
  - intros g Hg. destruct (_ =? 0); [|done]. unfold evictable.
    rewrite SetEvictable_true_flag, bool_decide_eq_true_2 by done.
    by rewrite lookup_insert_ne by done.
  - cbn. destruct (Z.eqb_spec (pin_count_ page - 1) 0) as [He | Hn].
    + split; [done | intros _]. unfold evictable.
      rewrite SetEvictable_true_flag, bool_decide_eq_true_2 by done.
      by rewrite lookup_insert_eq.
    + split; [|done]. intros Hev%Hef. lia.
Qed.

Lemma FlushPgImp_consistent pid (s s' : BufferPoolManagerInstance) res :
  consistent hash s → FlushPgImp hash pid s = Some (res, s') → consistent hash s'.
Proof.
  intros Hco. unfold FlushPgImp.
  destruct (EHT.Find hash pid _) as [[f|]|] eqn:HF; [| by intros [= <- <-] | done]; cbn.
  destruct (page_at s f) as [page|] eqn:Hp; [|done]. cbn.
  intros [= <- <-].
  pose proof (mapped_not_free s pid f Hco HF) as Hnf.
  destruct (co_used hash s Hco f page Hp Hnf) as (_ & Htf & Hef).
  apply (consistent_update_frame s f page); try done.
  apply (co_wf hash s Hco).
Qed.

Lemma flushed_id page : page_id_ (flushed page) = page_id_ page.
Proof. unfold flushed. by case_bool_decide. Qed.

Lemma page_at_FlushAll (s : BufferPoolManagerInstance) g :
  page_at (FlushAllPgsImp s) g = flushed <$> page_at s g.
Proof.
  unfold page_at. destruct (g <? 0); [done|].
  by rewrite FlushAllPgsImp_pages, list_lookup_fmap.
Qed.

Lemma FlushAllPgsImp_consistent (s : BufferPoolManagerInstance) :
  consistent hash s → consistent hash (FlushAllPgsImp s).
Proof.
  intros [Hnext Hwf Hmap Hfree Hnd Hused]. split; try done.
  - intros pid g HF. destruct (Hmap pid g HF) as [Hv (pg & Hg & Hpid)].
    split; [done|]. exists (flushed pg). rewrite page_at_FlushAll, Hg.
    split; [done|]. by rewrite flushed_id.
  - intros g Hg. destruct (Hfree g Hg) as [Hpg Hnt]. split; [|done].
    by rewrite page_at_FlushAll, Hpg.
  - intros g pg Hg Hgf. rewrite page_at_FlushAll in Hg.
    destruct (page_at s g) as [pg0|] eqn:Hg0; [|done]. injection Hg as <-.
    rewrite flushed_id, flushed_pin. by apply Hused.
Qed.

Lemma DeletePgImp_consistent pid (s s' : BufferPoolManagerInstance) res :
  consistent hash s → EHT.reachable hash bucket_size_ (page_table_ s) →
  current_timestamp_ (replacer_ s) + 4 < SIZE_MOD →
  DeletePgImp hash pid s = Some (res, s') → consistent hash s'.
Proof.
  intros Hco Hrt Hck. unfold DeletePgImp.
  destruct (EHT.Find hash pid _) as [[f|]|] eqn:HF; [| by intros [= <- <-] | done]; cbn.
  destruct (page_at s f) as [page|] eqn:Hp; [|done]. cbn.
  destruct (0 <? pin_count_ page); [by intros [= <- <-]|].
  destruct (EHT.Remove hash pid _) as [[found pt]|] eqn:Hrm; [|done]. cbn.
  intros [= <- <-].
  pose proof (mapped_not_free s pid f Hco HF) as Hnf.
  destruct (co_mapped hash s Hco pid f HF) as [Hvp (pg & Hpg & Hpid)].
  rewrite Hp in Hpg. injection Hpg as <-.
  destruct (wf_step_Remove f (replacer_ s) 3 (co_wf hash s Hco)) as [Hwf1 _];
    [lia | lia |].
  destruct Hco as [Hnext Hwf Hmap Hfree Hnd Hused].
  split; simpl_bpm; try done.
  - intros pid' g HF'.
    assert (Hne : pid' ≠ pid).
    { intros ->.
      destruct (Remove_spec hash pid _ _ (reachable_keys_nodup hash _ _ Hrt) HF)
        as (pt' & Hrm' & HF'' & _).
      rewrite Hrm in Hrm'. injection Hrm' as _ <-. congruence. }
    rewrite (Remove_Find_other hash pid found _ pt pid' Hne Hrm) in HF'.
    destruct (Hmap pid' g HF') as [Hv (pg & Hg & Hpid')].
    split; [done|]. exists pg. split; [|done].
    rewrite (page_at_set s f _ g page) by done.
    rewrite decide_False; [done|]. intros ->. congruence.
  - intros g [Hg | ->%list_elem_of_singleton]%elem_of_app.
    + destruct (Hfree g Hg) as [Hpg Hnt].
      rewrite (page_at_set s f _ g page) by done.
      rewrite decide_False by (by intros ->). split; [done|].
      intros [Ht _]%Remove_tracked. done.
    + rewrite (page_at_set s f _ f page) by done. rewrite decide_True by done.
      split; [done|]. intros [_ Hne]%Remove_tracked. done.
  - apply NoDup_app. split; [done|]. split; [|apply NoDup_singleton].
    intros g Hg ->%list_elem_of_singleton. done.
  - intros g pg Hg Hgf. apply not_elem_of_app in Hgf as [Hgf Hgne].
    apply not_elem_of_cons in Hgne as [Hgne _].
    rewrite (page_at_set s f _ g page) in Hg by done.
    rewrite decide_False in Hg by done.
    destruct (Hused g pg Hg Hgf) as (Hv & Ht & He).
    split; [done|]. split; [by apply Remove_tracked|].
    unfold evictable. rewrite Remove_evict_flag.
    by rewrite lookup_delete_ne by done.
Qed.


(** The replacer after the two calls that end an allocation. *)
Lemma replacer_after_install r0 f :
  wf r0 → current_timestamp_ r0 + 2 < SIZE_MOD → 0 <= f →
  wf (SetEvictable f false (RecordAccess f r0)) ∧
  (∀ g, g ≠ f →
     (tracked (SetEvictable f false (RecordAccess f r0)) g ↔ tracked r0 g)) ∧
  (∀ g, g ≠ f →
     (evictable (SetEvictable f false (RecordAccess f r0)) g ↔ evictable r0 g)).
Proof.
  intros Hwf Hck Hf.
  destruct (wf_step_RecordAccess f r0 1 Hwf) as [Hwf1 Hc1]; [lia | lia | done |].
  destruct (wf_step_SetEvictable f false _ 0 Hwf1) as [Hwf2 _]; [lia | lia |].
  split; [done|]. split.
  - intros g Hg. rewrite SetEvictable_tracked, RecordAccess_tracked.
    split; [intros [? | [? _]]; done | by left].
  - intros g Hg. unfold evictable.
    rewrite SetEvictable_false_flag, RecordAccess_evict_flag.
    by rewrite lookup_delete_ne by done.
Qed.

Lemma allocation_consistent pool k disk fuel f pid data nid
    (s s1 s' : BufferPoolManagerInstance) :
  0 <= pool <= INT_MAX → reachable hash pool k disk s → consistent hash s →
  current_timestamp_ (replacer_ s) + 4 < SIZE_MOD →
  0 <= pid <= INT_MAX → 0 <= nid →
  acquire_frame hash s = Some (Some f, s1) →
  install hash fuel f pid data nid s1 = Some s' →
  consistent hash s'.
Proof.
  intros Hpool Hr Hco Hck Hpid Hnid Ha Hi.
  destruct (allocation_spec pool k disk fuel f pid data nid s s1 s' Hpool Hr Ha Hi)
    as (_ & _ & Hin & Hpf & Hoth & HFp & Htf & Hnef & Hn' & Hcase).
  pose proof Hco as [Hnext Hwf Hmap Hfree Hnd Hused].
  assert (Hnew : ∀ g pg, page_at s' g = Some pg → g = f →
            0 <= page_id_ pg <= INT_MAX ∧ tracked (replacer_ s') g ∧
            (evictable (replacer_ s') g ↔ pin_count_ pg = 0)).
  { intros g pg Hg ->. rewrite Hpf in Hg. injection Hg as <-. cbn.
    split; [done|]. split; [done|]. split; [done | lia]. }
  destruct Hcase as [(rest & Hfl & Hfl' & Hdisk & HFo & Hrep)
                    | (Hfl & Hfl' & victim & r1 & HE & Hev & Hv & Hvp & Hdisk & HFo & Hrep)].
  - (* a frame of the free list *)
    assert (Hff : f ∈ free_list_ s) by (rewrite Hfl; apply list_elem_of_here).
    destruct (Hfree f Hff) as [Hpe Hnt].
    rewrite Hfl in Hnd. apply NoDup_cons in Hnd as [Hf_rest Hnd_rest].
    destruct (replacer_after_install (replacer_ s) f Hwf) as (Hwf' & Htr & Hevs);
      [lia | lia |].
    rewrite <- Hrep in Hwf', Htr, Hevs.
    split; try done.
    + lia.
    + intros pid' g HF'. destruct (decide (pid' = pid)) as [-> | Hne].
      * rewrite HFp in HF'. injection HF' as <-. split; [done|]. by eexists.
      * rewrite (HFo pid' Hne) in HF'.
        destruct (Hmap pid' g HF') as [Hv (pg & Hg & Hpid')].
        split; [done|]. exists pg. split; [|done]. rewrite Hoth; [done|].
        intros ->. rewrite Hpe in Hg. injection Hg as <-. cbn in Hpid'.
        unfold INVALID_PAGE_ID in Hpid'. lia.
    + rewrite Hfl'. intros g Hg.
      assert (g ≠ f) by (intros ->; done).
      destruct (Hfree g) as [Hpg Hnt']; [rewrite Hfl; by apply list_elem_of_further|].
      rewrite Hoth by done. split; [done|]. by rewrite Htr.
    + by rewrite Hfl'.
    + rewrite Hfl'. intros g pg Hg Hgr.
      destruct (decide (g = f)) as [-> | Hne]; [by apply Hnew|].
      rewrite Hoth in Hg by done.
      destruct (Hused g pg Hg) as (Hv & Ht & He).
      { rewrite Hfl. by apply not_elem_of_cons. }
      rewrite Htr, Hevs by done. done.
  - (* the victim of the replacer *)
    assert (Hnf : f ∉ free_list_ s) by (rewrite Hfl; apply not_elem_of_nil).
    destruct (Hused f victim Hv Hnf) as (Hvid & Htv & _).
    cbv zeta in *.
    rewrite bool_decide_eq_true_2 in Hdisk, HFo, Hrep
      by (unfold INVALID_PAGE_ID; lia).
    cbn [andb] in HFo.
    destruct (Evict_true _ _ _ HE) as (_ & _ & _ & Hflag & Hsub & Hkeep).
    destruct (wf_step_Evict (replacer_ s) 3 (true, f) r1 Hwf) as [Hwf1 Hc1];
      [lia | lia | done |].
    destruct (wf_step_Remove f r1 2 Hwf1) as [Hwf2 Hc2]; [lia | lia |].
    destruct (replacer_after_install (Replacer.Remove f r1) f Hwf2)
      as (Hwf' & Htr & Hevs); [lia | lia |].
    rewrite <- Hrep in Hwf', Htr, Hevs.
    split; try done.
    + lia.
    + intros pid' g HF'. destruct (decide (pid' = pid)) as [-> | Hne].
      * rewrite HFp in HF'. injection HF' as <-. split; [done|]. by eexists.
      * rewrite (HFo pid' Hne) in HF'. case_bool_decide as Hpv; [done|].
        destruct (Hmap pid' g HF') as [Hv' (pg & Hg & Hpid')].
        split; [done|]. exists pg. split; [|done]. rewrite Hoth; [done|].
        intros ->. rewrite Hv in Hg. injection Hg as <-. done.
    + rewrite Hfl'. by intros g ?%elem_of_nil.
    + rewrite Hfl'. apply NoDup_nil_2.
    + intros g pg Hg _.
      destruct (decide (g = f)) as [-> | Hne]; [by apply Hnew|].
      rewrite Hoth in Hg by done.
      destruct (Hused g pg Hg) as (Hv' & Ht & He).
      { rewrite Hfl. apply not_elem_of_nil. }
      rewrite Htr, Hevs by done. split; [done|]. split.
      * apply Remove_tracked. split; [|done]. by apply Hkeep.
      * rewrite <- He. unfold evictable.
        rewrite Remove_evict_flag, Hflag.
        by rewrite !lookup_delete_ne by done.
Qed.

(** A failed allocation. *)
Lemma failed_allocation_consistent (s s1 : BufferPoolManagerInstance) :
  consistent hash s → current_timestamp_ (replacer_ s) + 4 < SIZE_MOD →
  acquire_frame hash s = Some (None, s1) → consistent hash s1.
Proof.
  intros Hco Hck Ha. apply acquire_frame_None in Ha as (_ & _ & ->).
  apply consistent_set_replacer; try done.
  apply wf_tick; [apply (co_wf hash s Hco) | unfold clock_ok; lia].
Qed.

(** A write of a caller changes the bytes of a pinned frame only. *)
Lemma write_data_consistent f data (s s' : BufferPoolManagerInstance) :
  consistent hash s → write_data f data s = Some s' → consistent hash s'.
Proof.
  intros Hco. unfold write_data.
  destruct (page_at s f) as [page|] eqn:Hp; [|done]. cbn.
  destruct (Z.ltb_spec 0 (pin_count_ page)) as [Hpin|]; [|done]. intros [= <-].
  assert (Hnf : f ∉ free_list_ s).
  { intros Hin. destruct (co_free hash s Hco f Hin) as [Hpe _].
    rewrite Hp in Hpe. injection Hpe as ->. cbn in Hpin. lia. }
  destruct (co_used hash s Hco f page Hp Hnf) as (_ & _ & He).
  by apply (consistent_update_frame s f page); [..| apply (co_wf hash s Hco) | | |].
Qed.

Lemma run_op_consistent pool k disk o (s s' : BufferPoolManagerInstance) :
  0 <= pool <= INT_MAX → reachable hash pool k disk s → consistent hash s →
  valid_op s o → run_op hash o s = Some s' → consistent hash s'.
Proof.
  intros Hpool Hr Hco [Hck Hval].
  pose proof (reachable_pins pool k disk s Hr) as Hpins.
  pose proof (reachable_bpm_inv hash pool k disk s Hpool Hr) as Hinv.
  destruct o as [fuel | fuel pid | pid d | pid | | pid | wf wdata]; cbn.
  - unfold NewPgImp.
    destruct (acquire_frame hash s) as [[fr s1]|] eqn:Ha; [|done]. cbn.
    destruct fr as [frame|].
    2:{ intros [= <-]. by apply (failed_allocation_consistent s). }
    destruct (install _ _ _ _ _ _ _) as [s2|] eqn:Hi; [|done]. cbn.
    intros [= <-].
    destruct (acquire_frame_pool_size s s1 _ Ha) as [_ Hnid].
    pose proof (co_next hash s Hco) as Hnext.
    apply (allocation_consistent pool k disk fuel frame _ _ _ s s1 s2 Hpool Hr Hco Hck)
      in Hi; [done | | | done].
    + rewrite Hnid. lia.
    + rewrite Hnid. unfold int_wrap, INT_MAX in *. rewrite Z.mod_small; lia.
  - destruct (Find_defined hash pid _ (bi_table s Hinv)) as [[f|] HF].
    + destruct (FetchPgImp hash fuel pid s) as [[res s1]|] eqn:E; [|done].
      intros [= <-]. by apply (FetchPgImp_hit_consistent fuel pid f s s1 res).
    + unfold FetchPgImp. rewrite HF. cbn.
      destruct (acquire_frame hash s) as [[fr s1]|] eqn:Ha; [|done]. cbn.
      destruct fr as [frame|].
      2:{ intros [= <-]. by apply (failed_allocation_consistent s). }
      destruct (install _ _ _ _ _ _ _) as [s2|] eqn:Hi; [|done]. cbn.
      intros [= <-].
      destruct (acquire_frame_pool_size s s1 _ Ha) as [_ Hnid].
      pose proof (co_next hash s Hco) as Hnext.
      apply (allocation_consistent pool k disk fuel frame _ _ _ s s1 s2 Hpool Hr Hco Hck)
        in Hi; [done | done | | done].
      rewrite Hnid. lia.
  - destruct (UnpinPgImp hash pid d s) as [[res s1]|] eqn:E; [|done].
    intros [= <-]. by apply (UnpinPgImp_consistent pid d s s1 res).
  - destruct (FlushPgImp hash pid s) as [[res s1]|] eqn:E; [|done].
    intros [= <-]. by apply (FlushPgImp_consistent pid s s1 res).
  - intros [= <-]. by apply FlushAllPgsImp_consistent.
  - destruct (DeletePgImp hash pid s) as [[res s1]|] eqn:E; [|done].
    intros [= <-]. apply (DeletePgImp_consistent pid s s1 res); try done.
    by apply (page_table_reachable pool k disk).
  - by apply write_data_consistent.
Qed.

Lemma reachable_valid_consistent pool k disk (s : BufferPoolManagerInstance) :
  0 <= pool <= INT_MAX → reachable_valid hash pool k disk s → consistent hash s.
Proof.
  intros Hpool. induction 1 as [| s o s' Hr IH Hval Hstep];
    [by apply new_bpm_consistent|].
  apply (run_op_consistent pool k disk o s); try done.
  by apply reachable_valid_reachable.
Qed.


(** *** The allocating operations are defined *)

Lemma acquire_frame_defined (s : BufferPoolManagerInstance) :
  bpm_inv s → is_Some (acquire_frame hash s).
Proof.
  intros Hinv. unfold acquire_frame.
  destruct (free_list_ s) as [|frame rest]; [|done].
  destruct (Evict (replacer_ s)) as [[ok frame] r1] eqn:HE.
  destruct ok; cbn [negb]; [|done].
  destruct (Evict_true _ _ _ HE) as (Htf & _).
  destruct (page_at_in_pool s frame Hinv (bi_tracked s Hinv _ Htf)) as [victim ->].
  cbn. case_bool_decide; [|done].
  destruct (Remove_defined hash (page_id_ victim) _ (bi_table s Hinv)) as [rm ->].
  done.
Qed.

Lemma install_defined fuel f pid data nid (s1 : BufferPoolManagerInstance) :
  bpm_inv s1 → in_pool s1 f →
  is_Some (EHT.Insert hash fuel pid f (page_table_ s1)) →
  is_Some (install hash fuel f pid data nid s1).
Proof.
  intros Hinv Hin [pt Hpt]. unfold install.
  destruct (page_at_in_pool s1 f Hinv Hin) as [page ->]. cbn.
  by rewrite Hpt.
Qed.

(** The page ids of the table of the state that [acquire_frame] leaves are
    page ids of the table before. *)
Lemma acquire_frame_keys pool k disk (s s1 : BufferPoolManagerInstance) f key g :
  0 <= pool <= INT_MAX → reachable hash pool k disk s →
  acquire_frame hash s = Some (Some f, s1) →
  EHT.Find hash key (page_table_ s1) = Some (Some g) →
  EHT.Find hash key (page_table_ s) = Some (Some g).
Proof.
  intros Hpool Hr Ha.
  destruct (acquire_frame_Some pool k disk s s1 f Hpool Hr Ha)
    as [(rest & _ & _ & _ & _ & -> & _) |
        (_ & _ & victim & r1 & _ & _ & _ & _ & _ & _ & _ & HF & _)]; [done|].
  rewrite HF. by case_match.
Qed.


(** *** What valid runs guarantee *)

(** X21.  On runs with non-negative page ids (counters not wrapped): the
    page table maps a page id only to a frame that holds that page; the free
    list has no duplicates, and a frame in it holds the empty page (no page
    id, pin count 0, clean, zeroed) and is unknown to the replacer; every
    other frame holds a page and is tracked by the replacer. *)
Theorem valid_runs_keep_the_pool_consistent pool k disk (s : BufferPoolManagerInstance) :
  0 <= pool <= INT_MAX → reachable_valid hash pool k disk s →
  (∀ pid f, EHT.Find hash pid (page_table_ s) = Some (Some f) →
     0 <= pid <= INT_MAX ∧
     ∃ page, page_at s f = Some page ∧ page_id_ page = pid) ∧
  NoDup (free_list_ s) ∧
  (∀ f, f ∈ free_list_ s →
     page_at s f = Some (mkPage zeroed INVALID_PAGE_ID 0 false) ∧
     ¬ tracked (replacer_ s) f) ∧
  (∀ f page, page_at s f = Some page → f ∉ free_list_ s →
     0 <= page_id_ page <= INT_MAX ∧ tracked (replacer_ s) f).
Proof.
  intros Hpool Hr.
  destruct (reachable_valid_consistent pool k disk s Hpool Hr)
    as [_ _ Hmap Hfree Hnd Hused].
  split_and!; try done.
  intros f page Hp Hnf. destruct (Hused f page Hp Hnf) as (? & ? & _). done.
Qed.

(** X22.  On such runs a frame is evictable in the replacer exactly when it
    holds a page and its pin count is 0. *)
Theorem frame_is_evictable_iff_unpinned pool k disk (s : BufferPoolManagerInstance) f page :
  0 <= pool <= INT_MAX → reachable_valid hash pool k disk s →
  page_at s f = Some page →
  (evictable (replacer_ s) f ↔
   page_id_ page ≠ INVALID_PAGE_ID ∧ pin_count_ page = 0).
Proof.
  intros Hpool Hr Hp.
  destruct (reachable_valid_consistent pool k disk s Hpool Hr)
    as [_ Hwf _ Hfree _ Hused].
  destruct (decide (f ∈ free_list_ s)) as [Hin | Hnf].
  - destruct (Hfree f Hin) as [Hpe Hnt]. rewrite Hp in Hpe. injection Hpe as ->.
    cbn. split; [| by intros [? _]].
    intros Hev. destruct Hnt. by apply (wf_flag _ Hwf).
  - destruct (Hused f page Hp Hnf) as (Hv & _ & He). rewrite He.
    unfold INVALID_PAGE_ID. split; [intros ?; split; [lia | done] | by intros [_ ?]].
Qed.

(** X23.  On such runs a [FetchPgImp] that returns a frame returns a frame
    that holds the requested page, pinned at least once and not evictable,
    and the page table maps the page to that frame. *)
Theorem FetchPgImp_returns_the_requested_page pool k disk fuel pid f
    (s s' : BufferPoolManagerInstance) :
  0 <= pool <= INT_MAX → reachable_valid hash pool k disk s →
  FetchPgImp hash fuel pid s = Some (Some f, s') →
  ∃ page, page_at s' f = Some page ∧ page_id_ page = pid ∧
          1 <= pin_count_ page ∧ ¬ evictable (replacer_ s') f ∧
          EHT.Find hash pid (page_table_ s') = Some (Some f).
Proof.
  intros Hpool Hrv HFetch.
  pose proof (reachable_valid_reachable pool k disk s Hrv) as Hr.
  pose proof (reachable_valid_consistent pool k disk s Hpool Hrv) as Hco.
  pose proof (reachable_bpm_inv hash pool k disk s Hpool Hr) as Hinv.
  pose proof (reachable_pins pool k disk s Hr) as Hpins.
  destruct (Find_defined hash pid _ (bi_table s Hinv)) as [[f0|] HF].
  - destruct (co_mapped hash s Hco pid f0 HF) as [_ (page & Hp & Hid)].
    unfold FetchPgImp in HFetch. rewrite HF in HFetch. cbn in HFetch.
    rewrite Hp in HFetch. cbn in HFetch.
    case_bool_decide; [done|]. injection HFetch as <- <-.
    eexists. rewrite (page_at_set s f0 _ f0 page) by done.
    rewrite decide_True by done. split; [done|]. cbn.
    pose proof (Hpins f0 page Hp). split_and!; [done | lia | | done].
    intros [x Hx]. by rewrite SetEvictable_false_flag, lookup_delete_eq in Hx.
  - unfold FetchPgImp in HFetch. rewrite HF in HFetch. cbn in HFetch.
    destruct (acquire_frame hash s) as [[fr s1]|] eqn:Ha; [|done]. cbn in HFetch.
    destruct fr as [frame|]; [|done].
    destruct (install _ _ _ _ _ _ _) as [s2|] eqn:Hi; [|done]. cbn in HFetch.
    injection HFetch as <- <-.
    destruct (allocation_spec pool k disk fuel frame _ _ _ s s1 s2 Hpool Hr Ha Hi)
      as (_ & _ & _ & Hpf & _ & HFp & _ & Hne & _).
    eexists. split; [exact Hpf|]. cbn. split_and!; [done | lia | done | done].
Qed.

(** X24.  On such runs, before the clock of the replacer wraps: [NewPgImp]
    returns [nullptr] exactly when the free list is empty and every frame is
    pinned, and so does [FetchPgImp] of a page that is not in the page
    table. *)
Theorem allocation_fails_iff_all_frames_are_pinned pool k disk fuel
    (s : BufferPoolManagerInstance) :
  0 <= pool <= INT_MAX → reachable_valid hash pool k disk s →
  clock_ok (replacer_ s) →
  ((∃ s', NewPgImp hash fuel s = Some (None, s')) ↔
   free_list_ s = [] ∧ ∀ f page, page_at s f = Some page → 0 < pin_count_ page) ∧
  (∀ pid, EHT.Find hash pid (page_table_ s) = Some None →
     ((∃ s', FetchPgImp hash fuel pid s = Some (None, s')) ↔
      free_list_ s = [] ∧
      ∀ f page, page_at s f = Some page → 0 < pin_count_ page)).
Proof.
  intros Hpool Hrv Hck.
  pose proof (reachable_valid_reachable pool k disk s Hrv) as Hr.
  pose proof (reachable_valid_consistent pool k disk s Hpool Hrv) as Hco.
  pose proof (reachable_bpm_inv hash pool k disk s Hpool Hr) as Hinv.
  pose proof (reachable_pins pool k disk s Hr) as Hpins.
  pose proof (co_wf hash s Hco) as Hwf.
  assert (Hacq : (∃ s', acquire_frame hash s = Some (None, s')) ↔
                 free_list_ s = [] ∧
                 ∀ f page, page_at s f = Some page → 0 < pin_count_ page).
  { split.
    - intros [s' Ha]. apply acquire_frame_None in Ha as (Hfl & HE & _).
      split; [done|]. intros f page Hp.
      destruct (Evict (replacer_ s)) as [[ok fv] r1] eqn:HEv. cbn in HE. subst ok.
      destruct (Evict_in_wf _ _ _ _ _ _ Hwf Hck (map_to_list_enumerates _)
                  (map_to_list_enumerates _) HEv) as (Hiff & _).
      pose proof (proj1 Hiff eq_refl f) as Hnev.
      destruct (co_used hash s Hco f page Hp) as (_ & _ & He).
      { rewrite Hfl. apply not_elem_of_nil. }
      pose proof (Hpins f page Hp).
      destruct (decide (pin_count_ page = 0)) as [H0 | ?]; [|lia].
      destruct Hnev. by apply He.
    - intros [Hfl Hall]. unfold acquire_frame. rewrite Hfl.
      destruct (Evict (replacer_ s)) as [[ok fv] r1] eqn:HEv.
      destruct (Evict_in_wf _ _ _ _ _ _ Hwf Hck (map_to_list_enumerates _)
                  (map_to_list_enumerates _) HEv) as (Hiff & _).
      assert (ok = false) as ->.
      { apply Hiff. intros g Hg.
        pose proof (bi_tracked s Hinv g (wf_flag _ Hwf g Hg)) as Hin.
        destruct (page_at_in_pool s g Hinv Hin) as [pg Hpg].
        destruct (bi_pinned s Hinv g pg Hpg (Hall g pg Hpg)) as [_ Hne]. done. }
      cbn. by eexists. }
  split.
  - rewrite <- Hacq. unfold NewPgImp. split.
    + intros [s' HN].
      destruct (acquire_frame hash s) as [[[frame|] s1]|]; cbn in HN; [| |done].
      * by destruct (install _ _ _ _ _ _ _).
      * injection HN as <-. by eexists.
    + intros [s' ->]. cbn. by eexists.
  - intros pid HF. rewrite <- Hacq. unfold FetchPgImp. rewrite HF. cbn. split.
    + intros [s' HN].
      destruct (acquire_frame hash s) as [[[frame|] s1]|]; cbn in HN; [| |done].
      * by destruct (install _ _ _ _ _ _ _).
      * injection HN as <-. by eexists.
    + intros [s' ->]. cbn. by eexists.
Qed.


End Props.

(** *** Examples *)

(** ** The page table of the pool under [std::hash<int>] *)

(** At most two page ids of the range of [AllocatePage] agree in the low 30
    bits. *)
Lemma low_bits_pigeonhole (l : list Z) c :
  NoDup l → (∀ x, x ∈ l → 0 <= x <= INT_MAX ∧ x mod 2 ^ 30 = c) →
  (length l <= 2)%nat.
Proof.
  intros Hnd H.
  assert (Hsub : l ⊆+ [c; c + 2 ^ 30]).
  { apply NoDup_submseteq; [done|]. intros x Hx.
    destruct (H x Hx) as [Hr Hm]. unfold INT_MAX in Hr.
    pose proof (Z.div_mod x (2 ^ 30) ltac:(lia)) as Hdm.
    assert (0 <= x / 2 ^ 30 < 2) as Hq.
    { split; [apply Z.div_pos; lia | apply Z.div_lt_upper_bound; lia]. }
    rewrite !elem_of_cons. assert (x = c ∨ x = c + 2 ^ 30) as [-> | ->] by lia; tauto. }
  apply submseteq_length in Hsub. cbn in Hsub. lia.
Qed.

(** [Insert] into the page table returns: a full bucket of four valid page
    ids holds one that differs from the new id in the low 30 bits. *)
Lemma page_table_Insert_returns fuel pid f (t : EHT.ExtendibleHashTable Z Z) :
  EHT.reachable std_hash_int bucket_size_ t →
  (∀ key g, EHT.Find std_hash_int key t = Some (Some g) → 0 <= key <= INT_MAX) →
  (30 <= fuel)%nat →
  is_Some (EHT.Insert std_hash_int fuel pid f t).
Proof.
  intros Hr Hkeys Hfuel.
  pose proof (reachable_inv std_hash_int _ t Hr) as Hinv.
  pose proof (reachable_placed std_hash_int _ t Hr) as Hpl.
  destruct (target_defined std_hash_int t pid Hinv) as (h & b & Ht & _).
  pose proof Ht as [_ Hb]%target_Some.
  destruct (Insert_returns std_hash_int fuel pid f t h b Hinv Hpl Ht) as [t' Ht'];
    [| done | by exists t'].
  destruct (EHT.IsFull b) eqn:Hfull; [right | by left].
  destruct (decide (Forall (λ kv : Z * Z, std_hash_int kv.1 mod 2 ^ 30 =
                                         std_hash_int pid mod 2 ^ 30) (EHT.cell_ b)))
    as [Hall | Hex].
  - exfalso. rewrite Forall_forall in Hall.
    destruct (EHT.inv_heap t Hinv h b Hb) as [_ Hsz].
    rewrite (reachable_bucket_size std_hash_int _ t Hr) in Hsz.
    unfold EHT.IsFull in Hfull. apply Z.eqb_eq in Hfull.
    rewrite Hsz in Hfull. unfold bucket_size_ in Hfull.
    pose proof (low_bits_pigeonhole (EHT.cell_ b).*1 (std_hash_int pid mod 2 ^ 30)
                  (reachable_keys_nodup std_hash_int _ t Hr h b Hb)) as Hlen.
    rewrite length_fmap in Hlen.
    enough ((length (EHT.cell_ b) <= 2)%nat) by lia. apply Hlen.
    intros x [[key g] [-> Hin]]%list_elem_of_fmap. cbn.
    pose proof (stored_entry_found std_hash_int _ t h b key g Hr Hb Hin) as HF.
    pose proof (Hkeys key g HF) as Hv. split; [done|].
    pose proof (Hall _ Hin) as He. cbn in He. unfold std_hash_int at 1 in He.
    unfold SIZE_MOD, INT_MAX in *. by rewrite (Z.mod_small key) in He by lia.
  - apply not_Forall_Exists in Hex; [| intros ?; apply _].
    apply Exists_exists in Hex as (kv & Hin & Hne). by exists kv.
Qed.

(** X25.  With [std::hash<int>] (the identity) and runs on non-negative page
    ids, the loop of [Insert] in the allocating operations always ends, after
    at most 30 iterations, and no step is undefined: [NewPgImp] returns, and
    [FetchPgImp] returns unless the page is resident with a pin count of
    [INT_MAX]. *)
Theorem allocating_operations_return pool k disk fuel (s : BufferPoolManagerInstance) :
  0 <= pool <= INT_MAX → reachable_valid std_hash_int pool k disk s →
  (30 <= fuel)%nat →
  is_Some (NewPgImp std_hash_int fuel s) ∧
  ∀ pid,
    (∀ f page, EHT.Find std_hash_int pid (page_table_ s) = Some (Some f) →
               page_at s f = Some page → pin_count_ page < INT_MAX) →
    is_Some (FetchPgImp std_hash_int fuel pid s).
Proof.
  intros Hpool Hrv Hfuel.
  pose proof (reachable_valid_reachable std_hash_int pool k disk s Hrv) as Hr.
  pose proof (reachable_valid_consistent std_hash_int pool k disk s Hpool Hrv) as Hco.
  pose proof (reachable_bpm_inv std_hash_int pool k disk s Hpool Hr) as Hinv.
  pose proof (page_table_reachable std_hash_int pool k disk s Hr) as Hrt.
  assert (Hinst : ∀ f s1 pid data nid,
            acquire_frame std_hash_int s = Some (Some f, s1) →
            is_Some (install std_hash_int fuel f pid data nid s1)).
  { intros f s1 pid data nid Ha.
    destruct (acquire_frame_inv std_hash_int s s1 (Some f) Hinv Ha)
      as (Hinv1 & Hps & Hin).
    apply install_defined; [done | |].
    - unfold in_pool. rewrite Hps. by apply Hin.
    - apply page_table_Insert_returns; [| | done].
      + by apply (acquire_frame_table std_hash_int s s1 (Some f)).
      + intros key g HF.
        apply (acquire_frame_keys std_hash_int pool k disk s s1 f key g Hpool Hr Ha) in HF.
        by destruct (co_mapped std_hash_int s Hco key g HF). }
  destruct (acquire_frame_defined std_hash_int s Hinv) as [[fr s1] Ha].
  split.
  - unfold NewPgImp. rewrite Ha. cbn. destruct fr as [f|]; [|done].
    by destruct (Hinst f s1 (next_page_id_ s1) zeroed
                   (int_wrap (next_page_id_ s1 + 1)) Ha) as [s' ->].
  - intros pid Hpin. unfold FetchPgImp.
    destruct (Find_defined std_hash_int pid _ (bi_table s Hinv)) as [[f0|] HF];
      rewrite HF; cbn.
    + destruct (co_mapped std_hash_int s Hco pid f0 HF) as [_ (page & Hp & _)].
      rewrite Hp. cbn. pose proof (Hpin f0 page HF Hp).
      rewrite bool_decide_eq_false_2 by lia. done.
    + rewrite Ha. cbn. destruct fr as [f|]; [|done].
      by destruct (Hinst f s1 pid (ReadPage pid (disk_manager_ s1))
                     (next_page_id_ s1) Ha) as [s' ->].
Qed.


Section Examples.
Import Examples.

Ltac step_from s o :=
  apply (reachable_step _ _ _ _ s o); [| vm_compute; reflexivity].

Lemma reachable_pool2_c : reachable std_hash_int 2 2 [] pool2_c.
Proof.
  step_from pool2_b (OpNewPage 30). step_from pool2_a (OpUnpinPage 0 true).
  step_from pool2 (OpNewPage 30). apply reachable_new.
Defined.

Lemma reachable_pool2_e : reachable std_hash_int 2 2 [] pool2_e.
Proof.
  step_from pool2_d (OpUnpinPage 1 false). step_from pool2_c (OpNewPage 30).
  apply reachable_pool2_c.
Defined.

Lemma pool2_size : 0 <= 2 <= INT_MAX.
Proof. unfold INT_MAX. lia. Defined.

Lemma reachable_pool3_d : reachable std_hash_int 2 2 disk3 pool3_d.
Proof. step_from pool3_c (OpNewPage 30). apply reachable_pool3_c. Defined.

Lemma reachable_pool3_f : reachable std_hash_int 2 2 disk3 pool3_f.
Proof.
  step_from pool3_e (OpUnpinPage 1 false). step_from pool3_d (OpNewPage 30).
  apply reachable_pool3_d.
Defined.

(** Frame 0 of [pool3_c] holds page 0, unpinned after one pin. *)
Lemma pin_counts_are_never_negative_witness :
  0 <= pin_count_ (mkPage bytes_a 0 0 true).
Proof.
  apply (pin_counts_are_never_negative std_hash_int 2 2 disk3 pool3_c 0).
  - apply reachable_pool3_c.
  - vm_compute. reflexivity.
Defined.

Lemma frame_ids_stay_in_bounds_witness :
  pool_size_ pool2_e = 2 ∧ Z.of_nat (length (pages_ pool2_e)) = 2 ∧
  (∀ f, f ∈ free_list_ pool2_e → 0 <= f < 2 ∧ is_Some (page_at pool2_e f)) ∧
  (∀ pid f, EHT.Find std_hash_int pid (page_table_ pool2_e) = Some (Some f) →
            0 <= f < 2 ∧ is_Some (page_at pool2_e f)) ∧
  (∀ f, tracked (replacer_ pool2_e) f → 0 <= f < 2 ∧ is_Some (page_at pool2_e f)).
Proof.
  apply (frame_ids_stay_in_bounds std_hash_int 2 2 [] pool2_e).
  - apply pool2_size.
  - apply reachable_pool2_e.
Defined.

(** The third [NewPage] of the run finds the free list empty and evicts
    frame 0, which holds the dirty page 0 with the bytes [bytes_a] of the
    caller: these bytes are written to disk, and the frame holds the new
    page 2, zero-filled. *)
Lemma NewPgImp_spec_witness :
  page_at pool3_d 0 = Some (mkPage bytes_a 0 0 true) ∧
  2 = next_page_id_ pool3_d ∧ next_page_id_ pool3_e = int_wrap (2 + 1) ∧
  page_at pool3_e 0 = Some (mkPage zeroed 2 1 false) ∧
  disk_manager_ pool3_e = WritePage 0 bytes_a (disk_manager_ pool3_d).
Proof.
  assert (Hv0 : page_at pool3_d 0 = Some (mkPage bytes_a 0 0 true))
    by (vm_compute; reflexivity).
  pose proof (NewPgImp_spec std_hash_int 2 2 disk3 30 2 0 pool3_d pool3_e
                pool3_size reachable_pool3_d) as H.
  destruct H as (H1 & H2 & _ & H4 & _ & _ & _ & _ & Hcase);
    [vm_compute; reflexivity|].
  split_and!; [exact Hv0 | exact H1 | exact H2 | exact H4 |].
  destruct Hcase as [(rest & Hfl & _) |
                     (_ & _ & victim & r1 & _ & _ & Hv & _ & Hd & _)].
  - vm_compute in Hfl. discriminate Hfl.
  - rewrite Hv0 in Hv. injection Hv as <-. exact Hd.
Defined.

(** [FetchPage(0)] on [pool3_f] misses, evicts the clean frame 1 without a
    write, and reads from disk the bytes that the eviction of page 0 had
    written there. *)
Lemma FetchPgImp_miss_spec_witness :
  ReadPage 0 (disk_manager_ pool3_g) = bytes_a ∧
  next_page_id_ pool3_g = next_page_id_ pool3_f ∧
  page_at pool3_g 1 =
    Some (mkPage (ReadPage 0 (disk_manager_ pool3_g)) 0 1 false) ∧
  disk_manager_ pool3_g = disk_manager_ pool3_f.
Proof.
  assert (Hv1 : page_at pool3_f 1 = Some (mkPage zeroed 1 0 false))
    by (vm_compute; reflexivity).
  pose proof (FetchPgImp_miss_spec std_hash_int 2 2 disk3 30 0 1 pool3_f pool3_g
                pool3_size reachable_pool3_f) as H.
  destruct H as (H1 & _ & H3 & _ & _ & _ & _ & Hcase);
    [vm_compute; reflexivity | vm_compute; reflexivity |].
  split_and!; [vm_compute; reflexivity | exact H1 | exact H3 |].
  destruct Hcase as [(rest & Hfl & _) |
                     (_ & _ & victim & r1 & _ & _ & Hv & _ & Hd & _)].
  - vm_compute in Hfl. discriminate Hfl.
  - rewrite Hv1 in Hv. injection Hv as <-. exact Hd.
Defined.

(** [FetchPage(0)] on [pool3_c] hits frame 0, which holds the bytes
    [bytes_a] of the caller: they are kept, and the disk is as before. *)
Lemma FetchPgImp_hit_spec_witness :
  ∃ s', FetchPgImp std_hash_int 30 0 pool3_c = Some (Some 0, s') ∧
        page_at s' 0 = Some (mkPage bytes_a 0 1 true) ∧
        (∀ g, g ≠ 0 → page_at s' g = page_at pool3_c g) ∧
        ¬ evictable (replacer_ s') 0 ∧
        disk_manager_ s' = disk3 ∧
        page_table_ s' = page_table_ pool3_c ∧
        free_list_ s' = free_list_ pool3_c ∧
        next_page_id_ s' = next_page_id_ pool3_c.
Proof.
  assert (Hv0 : page_at pool3_c 0 = Some (mkPage bytes_a 0 0 true))
    by (vm_compute; reflexivity).
  destruct (FetchPgImp_hit_spec std_hash_int 2 2 disk3 30 0 0 pool3_c
              pool3_size reachable_pool3_c) as (page & Hp & H);
    [vm_compute; reflexivity|].
  rewrite Hv0 in Hp. injection Hp as <-.
  destruct H as (s' & HF & Hpf & Hoth & _ & _ & Hne & Hd & Ht & Hfl & Hn & _);
    [vm_compute; reflexivity|].
  exists s'. split_and!; try done.
Defined.

Ltac valid_step_from s o :=
  apply (reachable_valid_step _ _ _ _ s o);
    [| split; vm_compute; by try split | vm_compute; reflexivity].

Lemma reachable_valid_pool2_c : reachable_valid std_hash_int 2 2 [] pool2_c.
Proof.
  valid_step_from pool2_b (OpNewPage 30).
  valid_step_from pool2_a (OpUnpinPage 0 true).
  valid_step_from pool2 (OpNewPage 30). apply reachable_valid_new.
Defined.

Lemma reachable_valid_pool2_e : reachable_valid std_hash_int 2 2 [] pool2_e.
Proof.
  valid_step_from pool2_d (OpUnpinPage 1 false).
  valid_step_from pool2_c (OpNewPage 30).
  apply reachable_valid_pool2_c.
Defined.

Lemma reachable_valid_pool1_full : reachable_valid std_hash_int 1 2 [] pool1_full.
Proof.
  valid_step_from pool1 (OpNewPage 1). apply reachable_valid_new.
Defined.

Lemma valid_runs_keep_the_pool_consistent_witness :
  (∀ pid f, EHT.Find std_hash_int pid (page_table_ pool2_e) = Some (Some f) →
     0 <= pid <= INT_MAX ∧
     ∃ page, page_at pool2_e f = Some page ∧ page_id_ page = pid) ∧
  NoDup (free_list_ pool2_e) ∧
  (∀ f, f ∈ free_list_ pool2_e →
     page_at pool2_e f = Some (mkPage zeroed INVALID_PAGE_ID 0 false) ∧
     ¬ tracked (replacer_ pool2_e) f) ∧
  (∀ f page, page_at pool2_e f = Some page → f ∉ free_list_ pool2_e →
     0 <= page_id_ page <= INT_MAX ∧ tracked (replacer_ pool2_e) f).
Proof.
  apply (valid_runs_keep_the_pool_consistent std_hash_int 2 2 [] pool2_e).
  - apply pool2_size.
  - apply reachable_valid_pool2_e.
Defined.

(** Frame 0 of [pool2_c] holds page 0, unpinned: it is evictable. *)
Lemma frame_is_evictable_iff_unpinned_witness :
  evictable (replacer_ pool2_c) 0 ↔
  page_id_ (mkPage zeroed 0 0 true) ≠ INVALID_PAGE_ID ∧
  pin_count_ (mkPage zeroed 0 0 true) = 0.
Proof.
  apply (frame_is_evictable_iff_unpinned std_hash_int 2 2 [] pool2_c 0).
  - apply pool2_size.
  - apply reachable_valid_pool2_c.
  - vm_compute. reflexivity.
Defined.

(** [FetchPage(0)] on [pool2_e] returns frame 1, which then holds page 0. *)
Lemma FetchPgImp_returns_the_requested_page_witness :
  ∃ page, page_at pool2_f 1 = Some page ∧ page_id_ page = 0 ∧
          1 <= pin_count_ page ∧ ¬ evictable (replacer_ pool2_f) 1 ∧
          EHT.Find std_hash_int 0 (page_table_ pool2_f) = Some (Some 1).
Proof.
  apply (FetchPgImp_returns_the_requested_page std_hash_int 2 2 [] 30 0 1
           pool2_e pool2_f).
  - apply pool2_size.
  - apply reachable_valid_pool2_e.
  - vm_compute. reflexivity.
Defined.

(** The only frame of [pool1_full] is pinned. *)
Lemma allocation_fails_iff_all_frames_are_pinned_witness :
  ((∃ s', NewPgImp std_hash_int 1 pool1_full = Some (None, s')) ↔
   free_list_ pool1_full = [] ∧
   ∀ f page, page_at pool1_full f = Some page → 0 < pin_count_ page) ∧
  (∀ pid, EHT.Find std_hash_int pid (page_table_ pool1_full) = Some None →
     ((∃ s', FetchPgImp std_hash_int 1 pid pool1_full = Some (None, s')) ↔
      free_list_ pool1_full = [] ∧
      ∀ f page, page_at pool1_full f = Some page → 0 < pin_count_ page)).
Proof.
  apply (allocation_fails_iff_all_frames_are_pinned std_hash_int 1 2 [] 1 pool1_full).
  - apply pool1_size.
  - apply reachable_valid_pool1_full.
  - vm_compute. reflexivity.
Defined.


Lemma allocating_operations_return_witness :
  is_Some (NewPgImp std_hash_int 30 pool2_c) ∧
  ∀ pid,
    (∀ f page, EHT.Find std_hash_int pid (page_table_ pool2_c) = Some (Some f) →
               page_at pool2_c f = Some page → pin_count_ page < INT_MAX) →
    is_Some (FetchPgImp std_hash_int 30 pid pool2_c).
Proof.
  apply (allocating_operations_return 2 2 [] 30 pool2_c).
  - apply pool2_size.
  - apply reachable_valid_pool2_c.
  - lia.
Defined.


End Examples.


End BPMProps.
